(** * nlglib: constituent trees, search-and-splice, referring expressions

    A shallow embedding of the element hierarchy of [nlglib/structures.py],
    of the tree rewriting functions of [nlglib/microplanning/visitors.py],
    of the referring-expression generator of [nlglib/reg.py] and of
    [PredicateMsg.value_for] of [nlglib/structures/macroplanning.py].

    Python objects are immutable trees here; every object carries the
    identity token [oid] that [id(obj)] returns, in-place mutation is
    explicit state passing (a function returns the mutated object), object
    creation draws identity tokens from a counter, and exceptions are the
    [Raise] results of [Res].  A call that ends in an exception returns no
    object: what it did to its arguments before it raised is not part of
    the model.  The characters of a [str] are code points below U+0100,
    one [ascii] for each; no encoding is involved. *)

From stdpp Require Import gmap strings list pretty.
From Stdlib Require Import ZArith Ascii String Lia.

Set Warnings "-register-all,-clear-no-such-hyp".

Local Open Scope string_scope.
Local Open Scope list_scope.
Local Open Scope Z_scope.

(** ** Exceptions and results *)

Inductive Exn :=
| AssertionError
| TypeError
| AttributeError
| ValueError
| IndexError
| KeyError
| SignatureError
| RecursionError
| Exception.

Inductive Res (A : Type) :=
| Ok (a : A)
| Raise (e : Exn).

Arguments Ok {A} a.
Arguments Raise {A} e.

Definition is_ok {A} (r : Res A) : bool :=
  match r with Ok _ => true | Raise _ => false end.

(** ** The element hierarchy (structures.py) *)

(** [self.id]: the integer 0 unless set; a [Var] is built with a name. *)
Inductive PyId :=
| IdInt (z : Z)
| IdStr (s : string)
| IdNone.

(** The attributes every [Element] carries ([Element.__init__]).  [oid] is
    the identity token of the object, [parent] the identity token of the
    object the back-reference points to. *)
Record Meta := mkMeta {
  oid : nat;
  eid : PyId;
  features : gmap string string;
  hash : Z;
  parent : option nat
}.

(** The classes that share [Phrase]'s slots and methods. *)
Inductive PhraseClass :=
| Phrase
| VerbPhrase
| PrepositionalPhrase
| AdverbPhrase
| AdjectivePhrase.

(** One constructor per class; [PyNone] is the value [None] where it sits
    in a slot or is passed for a replacement. *)
Inductive Element :=
| PyNone
| EElement (m : Meta)
| EString (m : Meta) (value : string)
| EWord (m : Meta) (word pos base : string)
| EVar (m : Meta) (value : Element)
| ECoordination (m : Meta) (coords : list Element) (conj : string)
    (pre_modifiers complements post_modifiers : list Element)
| EPhrase (c : PhraseClass) (m : Meta)
    (front_modifiers pre_modifiers : list Element) (head : Element)
    (complements post_modifiers : list Element)
| ENounPhrase (m : Meta) (spec : Element)
    (front_modifiers pre_modifiers : list Element) (head : Element)
    (complements post_modifiers : list Element)
| EClause (m : Meta)
    (front_modifiers pre_modifiers : list Element) (subj vp : Element)
    (complements post_modifiers : list Element).

(** Type tags of structures.py. *)
Definition ELEMENT : Z := 0.
Definition STRING : Z := 1.
Definition WORD : Z := 2.
Definition VAR : Z := 3.
Definition CLAUSE : Z := 4.
Definition COORDINATION : Z := 5.
Definition PHRASE : Z := 10.
Definition NOUN_PHRASE : Z := 11.
Definition VERB_PHRASE : Z := 12.
Definition PREPOSITIONAL_PHRASE : Z := 13.
Definition ADJECTIVE_PHRASE : Z := 14.
Definition ADVERB_PHRASE : Z := 15.

Definition phrase_type (c : PhraseClass) : Z :=
  match c with
  | Phrase => PHRASE
  | VerbPhrase => VERB_PHRASE
  | PrepositionalPhrase => PREPOSITIONAL_PHRASE
  | AdverbPhrase => ADVERB_PHRASE
  | AdjectivePhrase => ADJECTIVE_PHRASE
  end.

(** [self._type], as the constructor of each class sets it. *)
Definition _type (e : Element) : option Z :=
  match e with
  | PyNone => None
  | EElement _ => Some ELEMENT
  | EString _ _ => Some STRING
  | EWord _ _ _ _ => Some WORD
  | EVar _ _ => Some VAR
  | ECoordination _ _ _ _ _ _ => Some COORDINATION
  | EPhrase c _ _ _ _ _ _ => Some (phrase_type c)
  | ENounPhrase _ _ _ _ _ _ _ => Some NOUN_PHRASE
  | EClause _ _ _ _ _ _ _ => Some CLAUSE
  end.

Definition meta (e : Element) : option Meta :=
  match e with
  | PyNone => None
  | EElement m | EString m _ | EWord m _ _ _ | EVar m _
  | ECoordination m _ _ _ _ _ | EPhrase _ m _ _ _ _ _
  | ENounPhrase m _ _ _ _ _ _ | EClause m _ _ _ _ _ _ => Some m
  end.

(** [id(e)]; [None] is a singleton, given the token 0, which no element has
    (the counter of [fresh] starts above it). *)
Definition py_id (e : Element) : nat :=
  match meta e with Some m => oid m | None => 0%nat end.

Definition with_meta (f : Meta -> Meta) (e : Element) : Element :=
  match e with
  | PyNone => PyNone
  | EElement m => EElement (f m)
  | EString m v => EString (f m) v
  | EWord m w p b => EWord (f m) w p b
  | EVar m v => EVar (f m) v
  | ECoordination m cs cj pr cm po => ECoordination (f m) cs cj pr cm po
  | EPhrase c m fr pr h cm po => EPhrase c (f m) fr pr h cm po
  | ENounPhrase m s fr pr h cm po => ENounPhrase (f m) s fr pr h cm po
  | EClause m fr pr s v cm po => EClause (f m) fr pr s v cm po
  end.

Definition set_oid (n : nat) (m : Meta) : Meta :=
  mkMeta n (eid m) (features m) (hash m) (parent m).
Definition set_eid (i : PyId) (m : Meta) : Meta :=
  mkMeta (oid m) i (features m) (hash m) (parent m).
Definition set_features (f : gmap string string) (m : Meta) : Meta :=
  mkMeta (oid m) (eid m) f (hash m) (parent m).
Definition set_hash (h : Z) (m : Meta) : Meta :=
  mkMeta (oid m) (eid m) (features m) h (parent m).
Definition set_parent (p : option nat) (m : Meta) : Meta :=
  mkMeta (oid m) (eid m) (features m) (hash m) p.

(** [e.features], empty for [None]. *)
Definition features_of (e : Element) : gmap string string :=
  match meta e with Some m => features m | None => ∅ end.

(** [Element.set_feature]. *)
Definition set_feature (k v : string) (e : Element) : Element :=
  with_meta (fun m => set_features (<[k := v]> (features m)) m) e.

(** [Element.has_feature] with a value. *)
Definition has_feature (k v : string) (e : Element) : bool :=
  match features_of e !! k with
  | Some v' => String.eqb v v'
  | None => false
  end.

(** ** Structural equality: the [__eq__] methods *)

Definition pyid_eq (a b : PyId) : bool :=
  match a, b with
  | IdInt x, IdInt y => Z.eqb x y
  | IdStr x, IdStr y => String.eqb x y
  | IdNone, IdNone => true
  | _, _ => false
  end.

Definition features_eq (a b : gmap string string) : bool :=
  bool_decide (a = b).

Definition opt_Z_eq (a b : option Z) : bool :=
  match a, b with
  | Some x, Some y => Z.eqb x y
  | None, None => true
  | _, _ => false
  end.

(** [Element.__eq__]: [is_element_t(other)], the same [_type], the same
    [id] and the same features. *)
Definition Element_eq (a b : Element) : bool :=
  match meta a, meta b with
  | Some ma, Some mb =>
      opt_Z_eq (_type a) (_type b)
      && pyid_eq (eid ma) (eid mb)
      && features_eq (features ma) (features mb)
  | _, _ => false
  end.

(** [==] on Python lists: the same length and [==] at every index. *)
Fixpoint list_eq {A} (eq : A -> A -> bool) (l1 l2 : list A) : bool :=
  match l1, l2 with
  | [], [] => true
  | x :: t1, y :: t2 => eq x y && list_eq eq t1 t2
  | _, _ => false
  end.

(** [a == b], by the [__eq__] of the class of [a].  Where the class of [b]
    is a subclass of that of [a] with an [__eq__] of its own, Python asks
    [b] first; its [isinstance] test then answers [False], as does the
    [_type] comparison here. *)
Fixpoint py_eq (a b : Element) {struct a} : bool :=
  match a with
  | PyNone => match b with PyNone => true | _ => false end
  | EElement _ => Element_eq a b
  | EString _ v =>
      match b with
      | EString _ v' => String.eqb v v' && Element_eq a b
      | _ => false
      end
  | EWord _ w p _ =>
      match b with
      | EWord _ w' p' _ => String.eqb w w' && String.eqb p p' && Element_eq a b
      | _ => false
      end
  | EVar m v =>
      match b with
      | EVar m' v' => pyid_eq (eid m) (eid m') && py_eq v v' && Element_eq a b
      | _ => false
      end
  | ECoordination _ cs cj _ _ _ =>
      match b with
      | ECoordination _ cs' cj' _ _ _ =>
          list_eq py_eq cs cs' && String.eqb cj cj' && Element_eq a b
      | _ => false
      end
  | EPhrase _ _ fr pr h cm po =>
      match b with
      | EPhrase _ _ fr' pr' h' cm' po'
      | ENounPhrase _ _ fr' pr' h' cm' po' =>
          opt_Z_eq (_type a) (_type b)
          && list_eq py_eq fr fr' && list_eq py_eq pr pr'
          && py_eq h h'
          && list_eq py_eq cm cm' && list_eq py_eq po po'
          && Element_eq a b
      | _ => false
      end
  | ENounPhrase _ s fr pr h cm po =>
      match b with
      | ENounPhrase _ s' fr' pr' h' cm' po' =>
          py_eq s s' && py_eq h h'
          && (opt_Z_eq (_type a) (_type b)
              && list_eq py_eq fr fr' && list_eq py_eq pr pr'
              && py_eq h h'
              && list_eq py_eq cm cm' && list_eq py_eq po po'
              && Element_eq a b)
      | _ => false
      end
  | EClause _ _ pr s v cm po =>
      match b with
      | EClause _ _ pr' s' v' cm' po' =>
          list_eq py_eq pr pr' && py_eq s s' && py_eq v v'
          && list_eq py_eq cm cm' && list_eq py_eq po po'
          && Element_eq a b
      | _ => false
      end
  end.

(** ** Hashing: the [__hash__] methods *)

Section Hashing.

(** CPython's hashes of [str] (randomised per process), of tuples and of
    [None] are left open. *)
Variable hash_str : string -> Z.
Variable hash_tuple : list Z -> Z.
Variable hash_none : Z.

(** [hash] of an [int] on a 64-bit CPython: reduction modulo 2^61 - 1
    with the sign kept, and -2 in place of -1. *)
Definition hash_int (z : Z) : Z :=
  let r := Z.sgn z * (Z.abs z mod (2 ^ 61 - 1)) in
  if r =? -1 then -2 else r.

(** What the builtin [hash] makes of the integer a [__hash__] returned. *)
Definition slot_hash (r : Z) : Z :=
  let h := if (- 2 ^ 63 <=? r) && (r <? 2 ^ 63) then r else hash_int r in
  if h =? -1 then -2 else h.

Definition hash_id (i : PyId) : Z :=
  match i with
  | IdInt z => hash_int z
  | IdStr s => hash_str s
  | IdNone => hash_none
  end.

(** [Element.__hash__]: fills the cache [self.hash] when it holds -1. *)
Definition Element_hash (m : Meta) : Meta * Z :=
  if hash m =? -1 then
    let h := Z.lxor (hash_id (eid m))
               (hash_tuple (repeat (hash_str "k:v") (size (features m)))) in
    (set_hash h m, h)
  else (m, hash m).

(** [hash(e)] with the object as the call leaves it.  [Coordination] and
    [Phrase] assert; [NounPhrase] and [Clause] define [__eq__] and no
    [__hash__], which leaves their [__hash__] set to [None]. *)
Fixpoint py_hash (e : Element) : Element * Res Z :=
  match e with
  | PyNone => (e, Ok hash_none)
  | EElement m =>
      let '(m', h) := Element_hash m in (EElement m', Ok (slot_hash h))
  | EString m v =>
      if hash m =? -1 then
        let '(m', h) := Element_hash m in
        let h' := Z.lxor (11 * h) (hash_str v) in
        (EString (set_hash h' m') v, Ok (slot_hash h'))
      else (e, Ok (slot_hash (hash m)))
  | EWord m w p b =>
      if hash m =? -1 then
        let '(m', h) := Element_hash m in
        let h' := Z.lxor (11 * h) (Z.lxor (hash_str p) (hash_str w)) in
        (EWord (set_hash h' m') w p b, Ok (slot_hash h'))
      else (e, Ok (slot_hash (hash m)))
  | EVar m v =>
      if hash m =? -1 then
        let '(m', h) := Element_hash m in
        match py_hash v with
        | (v', Ok hv) =>
            let h' := Z.lxor (11 * h) (Z.land (hash_id (eid m)) hv) in
            (EVar (set_hash h' m') v', Ok (slot_hash h'))
        | (v', Raise x) => (EVar m' v', Raise x)
        end
      else (e, Ok (slot_hash (hash m)))
  | ECoordination _ _ _ _ _ _ => (e, Raise AssertionError)
  | EPhrase _ _ _ _ _ _ _ => (e, Raise AssertionError)
  | ENounPhrase _ _ _ _ _ _ _ => (e, Raise TypeError)
  | EClause _ _ _ _ _ _ _ => (e, Raise TypeError)
  end.

End Hashing.

(** The leaf classes: [Element] itself, [String], [Word] and [Var]. *)
Definition is_leaf (e : Element) : bool :=
  match e with
  | EElement _ | EString _ _ | EWord _ _ _ _ | EVar _ _ => true
  | _ => false
  end.

Definition is_coordination (e : Element) : bool :=
  match e with ECoordination _ _ _ _ _ _ => true | _ => false end.

Definition is_plain_phrase (e : Element) : bool :=
  match e with EPhrase _ _ _ _ _ _ _ => true | _ => false end.

Definition is_noun_phrase (e : Element) : bool :=
  match e with ENounPhrase _ _ _ _ _ _ _ => true | _ => false end.

Definition is_clause (e : Element) : bool :=
  match e with EClause _ _ _ _ _ _ _ => true | _ => false end.

Definition is_none (e : Element) : bool :=
  match e with PyNone => true | _ => false end.

(** ** Python computations: object creation and exceptions *)

(** A computation draws identity tokens for the objects it creates from a
    counter and ends in a value or in an exception. *)
Definition Py (A : Type) : Type := nat -> Res A * nat.

#[export] Instance Py_ret : MRet Py := fun A a n => (Ok a, n).
#[export] Instance Py_bind : MBind Py := fun A B k c n =>
  match c n with
  | (Ok a, n') => k a n'
  | (Raise e, n') => (Raise e, n')
  end.

Definition raise {A} (e : Exn) : Py A := fun n => (Raise e, n).

(** The identity token of a newly created object. *)
Definition fresh : Py nat := fun n => (Ok n, S n).

(** [str(self.id)]. *)
Definition str_of_id (i : PyId) : string :=
  match i with
  | IdInt z => pretty z
  | IdStr s => s
  | IdNone => "None"
  end.

(** [Element.__init__]: [id] 0, no cached hash. *)
Definition new_meta (feats : gmap string string) (par : option nat) : Py Meta :=
  n ← fresh; mret (mkMeta n (IdInt 0) feats (-1) par).

(** [Element(ELEMENT, features, parent)]. *)
Definition new_Element (feats : gmap string string) (par : option nat)
  : Py Element :=
  m ← new_meta feats par; mret (EElement m).

(** [String(val, features, parent)]. *)
Definition new_String (val : string) (feats : gmap string string)
    (par : option nat) : Py Element :=
  m ← new_meta feats par; mret (EString m val).

(** [Word(word, pos, features, base, parent)]: [base or word], and the
    feature [cat] set to the part of speech. *)
Definition new_Word (word pos : string) (feats : gmap string string)
    (base : option string) (par : option nat) : Py Element :=
  m ← new_meta feats par;
  let b := match base with
           | Some b => if String.eqb b "" then word else b
           | None => word
           end in
  mret (set_feature "cat" pos (EWord m word pos b)).

(** [Var(id, obj, features, parent)]; [set_value] puts a noun made of the
    name in place of a missing value. *)
Definition new_Var (i : PyId) (obj : Element) (feats : gmap string string)
    (par : option nat) : Py Element :=
  m ← new_meta feats par;
  v ← (if is_none obj then new_Word (str_of_id i) "NOUN" ∅ None None
       else mret obj);
  mret (EVar (set_eid i m) v).

(** [Coordination(c1, ..., conj=conj, features=features, parent=parent)],
    without the keyword lists. *)
Definition new_Coordination (coords : list Element) (conj : string)
    (feats : gmap string string) (par : option nat) : Py Element :=
  m ← new_meta feats par;
  mret (set_feature "conj" conj (ECoordination m coords conj [] [] [])).

(** [x.parent = p]; [None] has no attributes. *)
Definition assign_parent (p : nat) (x : Element) : Py Element :=
  if is_none x then raise AttributeError
  else mret (with_meta (set_parent (Some p)) x).

(** [Phrase.__init__], without the keyword lists: empty slots around a
    new placeholder head.  Returns the attributes and the head. *)
Definition Phrase_init (feats : gmap string string) (par : option nat)
  : Py (Meta * Element) :=
  m ← new_meta feats par;
  h ← new_Element ∅ None;
  mret (m, h).

(** [Phrase.set_head(elt)] for [elt] an element or [None]: the head's
    features are merged into the phrase's.  ([set_head_args] has the case
    of a [str].) *)
Definition set_head (m : Meta) (elt : Element) : Py (Meta * Element) :=
  h ← (if is_none elt then new_Element ∅ None else mret elt);
  h' ← assign_parent (oid m) h;
  mret (set_features (features_of h' ∪ features m) m, h').

(** [Phrase(type, features=features, parent=parent)]. *)
Definition new_Phrase (feats : gmap string string) (par : option nat)
  : Py Element :=
  '(m, h) ← Phrase_init feats par;
  mret (EPhrase Phrase m [] [] h [] []).

(** [VerbPhrase(head, features=features, parent=parent)] and the like for
    [PrepositionalPhrase], [AdverbPhrase] and [AdjectivePhrase], for
    [head] an element or [None].  ([new_HeadPhrase_args] has the case of
    a [str].) *)
Definition new_HeadPhrase (c : PhraseClass) (head : Element)
    (feats : gmap string string) (par : option nat) : Py Element :=
  '(m, _) ← Phrase_init feats par;
  '(m', h) ← set_head m head;
  mret (EPhrase c m' [] [] h [] []).

(** [NounPhrase(head, spec, features=features, parent=parent)] for [head]
    and [spec] elements or [None].  ([new_NounPhrase_args] has the case
    of a [str].) *)
Definition new_NounPhrase (head spec : Element) (feats : gmap string string)
    (par : option nat) : Py Element :=
  '(m, _) ← Phrase_init feats par;
  s ← (if is_none spec then new_Element ∅ None else mret spec);
  '(m', h) ← set_head m head;
  mret (ENounPhrase m' s [] [] h [] []).

(** [bool(e)]: the [__bool__] methods. *)
Definition py_bool (e : Element) : bool :=
  match e with
  | PyNone => false
  | EElement _ => false
  | EString _ v => negb (String.eqb v "")
  | _ => true
  end.

(** [raise_to_np]. *)
Fixpoint raise_to_np (phrase : Element) : Py Element :=
  match phrase with
  | ECoordination m cs cj pr cm po =>
      cs' ← mapM raise_to_np cs;
      mret (ECoordination m cs' cj pr cm po)
  | EString _ _ | EWord _ _ _ _ => new_NounPhrase phrase PyNone ∅ None
  | _ => mret phrase
  end.

(** [raise_to_vp]. *)
Fixpoint raise_to_vp (phrase : Element) : Py Element :=
  match phrase with
  | ECoordination m cs cj pr cm po =>
      cs' ← mapM raise_to_vp cs;
      mret (ECoordination m cs' cj pr cm po)
  | EString _ _ | EWord _ _ _ _ => new_HeadPhrase VerbPhrase phrase ∅ None
  | _ => mret phrase
  end.

(** [Clause(subj, vp, features=features, parent=parent)] for [subj] and
    [vp] elements or [None].  ([new_Clause_args] has the case of a
    [str].) *)
Definition new_Clause (subj vp : Element) (feats : gmap string string)
    (par : option nat) : Py Element :=
  m ← new_meta feats par;
  s ← raise_to_np subj;
  s' ← (if py_bool s then mret s else new_Element ∅ None);
  s'' ← assign_parent (oid m) s';
  v ← raise_to_vp vp;
  v' ← assign_parent (oid m) v;
  mret (EClause m [] [] s'' v' [] []).

(** [Element._add_to_list]: every modifier gets [self] for its parent and
    is appended, or inserted at [pos]. *)
Definition add_to_list (self : nat) (lst mods : list Element)
    (pos : option nat) : Py (list Element) :=
  ms ← mapM (assign_parent self) mods;
  mret (match pos with
        | None => lst ++ ms
        | Some p => foldl (fun l x => take p l ++ x :: drop p l) lst ms
        end).

(** The slot methods of class [Phrase], which [NounPhrase] and the other
    phrase classes inherit, for modifiers that are elements or [None]:
    [add_front_modifier] and [add_pre_modifier] insert at index 0,
    [add_complement] and [add_post_modifier] append.  An object of another
    class has methods of its own and is returned as it is.  (The methods
    pass their arguments through [str_to_elt], which leaves these as they
    are; [Phrase_add_pre_modifier_args] and the like have the case of a
    [str].) *)
Definition Phrase_add_front_modifier (e : Element) (mods : list Element)
  : Py Element :=
  match e with
  | EPhrase c m fr pr h cm po =>
      fr' ← add_to_list (oid m) fr mods (Some 0%nat);
      mret (EPhrase c m fr' pr h cm po)
  | ENounPhrase m s fr pr h cm po =>
      fr' ← add_to_list (oid m) fr mods (Some 0%nat);
      mret (ENounPhrase m s fr' pr h cm po)
  | _ => mret e
  end.

Definition Phrase_add_pre_modifier (e : Element) (mods : list Element)
  : Py Element :=
  match e with
  | EPhrase c m fr pr h cm po =>
      pr' ← add_to_list (oid m) pr mods (Some 0%nat);
      mret (EPhrase c m fr pr' h cm po)
  | ENounPhrase m s fr pr h cm po =>
      pr' ← add_to_list (oid m) pr mods (Some 0%nat);
      mret (ENounPhrase m s fr pr' h cm po)
  | _ => mret e
  end.

Definition Phrase_add_complement (e : Element) (mods : list Element)
  : Py Element :=
  match e with
  | EPhrase c m fr pr h cm po =>
      cm' ← add_to_list (oid m) cm mods None;
      mret (EPhrase c m fr pr h cm' po)
  | ENounPhrase m s fr pr h cm po =>
      cm' ← add_to_list (oid m) cm mods None;
      mret (ENounPhrase m s fr pr h cm' po)
  | _ => mret e
  end.

Definition Phrase_add_post_modifier (e : Element) (mods : list Element)
  : Py Element :=
  match e with
  | EPhrase c m fr pr h cm po =>
      po' ← add_to_list (oid m) po mods None;
      mret (EPhrase c m fr pr h cm po')
  | ENounPhrase m s fr pr h cm po =>
      po' ← add_to_list (oid m) po mods None;
      mret (ENounPhrase m s fr pr h cm po')
  | _ => mret e
  end.

(** [e.spec] and [e.head]; [None] where the class has no such slot. *)
Definition spec_of (e : Element) : Element :=
  match e with
  | ENounPhrase _ s _ _ _ _ _ => s
  | _ => PyNone
  end.

Definition head_of (e : Element) : Element :=
  match e with
  | EPhrase _ _ _ _ h _ _ | ENounPhrase _ _ _ _ h _ _ => h
  | _ => PyNone
  end.

(** [e.spec = s]. *)
Definition assign_spec (s : Element) (e : Element) : Element :=
  match e with
  | ENounPhrase m _ fr pr h cm po => ENounPhrase m s fr pr h cm po
  | _ => e
  end.

(** The value a computation started with the counter at 1 ends in;
    [None] for an exception. *)
Definition run {A} (c : Py A) : option A :=
  match c 1%nat with
  | (Ok a, _) => Some a
  | (Raise _, _) => None
  end.

(** ** Deep copy: the [__deepcopy__] methods *)

(** [copyobj.id = self.id] and [copyobj.hash = self.hash]. *)
Definition copy_id (src : Meta) (e : Element) : Element :=
  with_meta (set_eid (eid src)) e.
Definition copy_hash (src : Meta) (e : Element) : Element :=
  with_meta (set_hash (hash src)) e.

(** [deepcopy(e)].  A list is copied element by element; the memo of
    [copy.deepcopy], which only tells when one object sits twice in a
    list, is left out. *)
Fixpoint deepcopy (e : Element) : Py Element :=
  match e with
  | PyNone => mret PyNone
  | EElement m =>
      c ← new_Element (features m) (parent m);
      mret (copy_hash m (copy_id m c))
  | EString m v =>
      c ← new_String v (features m) (parent m);
      mret (copy_hash m (copy_id m c))
  | EWord m w p b =>
      c ← new_Word w p (features m) (Some b) (parent m);
      mret (copy_hash m (copy_id m c))
  | EVar m v =>
      c ← new_Var (eid m) v (features m) (parent m);
      mret (copy_hash m (copy_id m c))
  | ECoordination m cs cj _ _ _ =>
      c ← new_Coordination [] cj (features m) (parent m);
      cs' ← mapM deepcopy cs;
      mret (match c with
            | ECoordination m' _ cj' pr cm po =>
                ECoordination (set_eid (eid m) m') cs' cj' pr cm po
            | _ => c
            end)
  | EPhrase Phrase m fr pr h cm po =>
      '(m', _) ← Phrase_init (features m) (parent m);
      fr' ← mapM deepcopy fr;
      pr' ← mapM deepcopy pr;
      h' ← deepcopy h;
      cm' ← mapM deepcopy cm;
      po' ← mapM deepcopy po;
      mret (EPhrase Phrase (set_eid (eid m) m') fr' pr' h' cm' po')
  | EPhrase c m _ _ h cm _ =>
      h' ← deepcopy h;
      c' ← new_HeadPhrase c h' (features m) (parent m);
      cm' ← mapM deepcopy cm;
      mret (match copy_hash m (copy_id m c') with
            | EPhrase k m' fr pr hd _ po => EPhrase k m' fr pr hd cm' po
            | x => x
            end)
  | ENounPhrase m s _ _ h _ _ =>
      h' ← deepcopy h;
      s' ← deepcopy s;
      c ← new_NounPhrase h' s' (features m) (parent m);
      mret (copy_hash m (copy_id m c))
  | EClause m fr pr s v cm po =>
      s' ← deepcopy s;
      v' ← deepcopy v;
      c ← new_Clause s' v' (features m) (parent m);
      fr' ← mapM deepcopy fr;
      pr' ← mapM deepcopy pr;
      cm' ← mapM deepcopy cm;
      po' ← mapM deepcopy po;
      mret (match copy_id m c with
            | EClause m' _ _ sj vb _ _ => EClause m' fr' pr' sj vb cm' po'
            | x => x
            end)
  end.

(** ** Traversal: the [constituents] generators *)

(** What a generator produces when it is run to its end: the elements it
    yields, and the exception that ends it if one does. *)
Definition Gen : Type := list Element * option Exn.

(** Running one generator after another. *)
Definition gen_app (g1 g2 : Gen) : Gen :=
  match g1.2 with
  | Some x => g1
  | None => (g1.1 ++ g2.1, g2.2)
  end.

(** [for x in l: yield from f(x)]. *)
Fixpoint gen_for (l : list Element) (f : Element -> Gen) : Gen :=
  match l with
  | [] => ([], None)
  | x :: t => gen_app (f x) (gen_for t f)
  end.

(** [for x in g: yield from f(x)], for a generator [g]. *)
Definition gen_bind (g : Gen) (f : Element -> Gen) : Gen :=
  gen_app (gen_for g.1 f) ([], g.2).

(** The loop of [yield_front_modifiers], [yield_pre_modifiers],
    [yield_complements] and [yield_post_modifiers]:
    [for o in mods: for x in o.constituents(): yield from x.constituents()]. *)
Definition yield_modifiers (constituents : Element -> Gen)
    (mods : list Element) : Gen :=
  gen_for mods (fun o => gen_bind (constituents o) constituents).

(** [yield_head], and the like loop of [NounPhrase.constituents] for the
    specifier: nothing for [None]. *)
Definition yield_head (constituents : Element -> Gen) (h : Element) : Gen :=
  if is_none h then ([], None)
  else gen_bind (constituents h) constituents.

(** [e.constituents()] run with the recursion depth bounded by [depth]; a
    depth that does not suffice ends the sequence in a [RecursionError]. *)
Fixpoint constituents_at (depth : nat) (e : Element) {struct depth} : Gen :=
  match depth with
  | O => ([], Some RecursionError)
  | S d =>
      let rec := constituents_at d in
      match e with
      | PyNone => ([], Some AttributeError)
      | EElement _ => ([], None)
      | EString _ _ | EWord _ _ _ _ | EVar _ _ => ([e], None)
      | ECoordination _ cs _ _ _ _ =>
          gen_app ([e], None)
            (gen_for cs (fun c => if is_none c then ([c], None) else rec c))
      | EPhrase _ _ fr pr h cm po =>
          gen_app ([e], None)
            (gen_app (yield_modifiers rec fr)
               (gen_app (yield_modifiers rec pr)
                  (gen_app (yield_head rec h)
                     (gen_app (yield_modifiers rec cm)
                        (yield_modifiers rec po)))))
      | ENounPhrase _ s fr pr h cm po =>
          gen_app ([e], None)
            (gen_app (yield_head rec s)
               (gen_app (yield_modifiers rec fr)
                  (gen_app (yield_modifiers rec pr)
                     (gen_app (yield_head rec h)
                        (gen_app (yield_modifiers rec cm)
                           (yield_modifiers rec po))))))
      | EClause _ _ pr s v cm po =>
          gen_app ([e], None)
            (gen_app (yield_modifiers rec pr)
               (gen_app (rec s)
                  (gen_app (rec v)
                     (gen_app (yield_modifiers rec cm)
                        (yield_modifiers rec po)))))
      end
  end.

Definition list_max (l : list nat) : nat := foldr Nat.max 0%nat l.

(** The height of the tree under an element. *)
Fixpoint height (e : Element) : nat :=
  match e with
  | PyNone | EElement _ | EString _ _ | EWord _ _ _ _ => 0%nat
  | EVar _ v => S (height v)
  | ECoordination _ cs _ pr cm po =>
      S (list_max (map height cs ++ map height pr
                   ++ map height cm ++ map height po))
  | EPhrase _ _ fr pr h cm po =>
      S (list_max (height h :: map height fr ++ map height pr
                   ++ map height cm ++ map height po))
  | ENounPhrase _ s fr pr h cm po =>
      S (list_max (height s :: height h :: map height fr ++ map height pr
                   ++ map height cm ++ map height po))
  | EClause _ fr pr s v cm po =>
      S (list_max (height s :: height v :: map height fr ++ map height pr
                   ++ map height cm ++ map height po))
  end.

(** [e.constituents()], run with a recursion depth that suffices for the
    tree under [e] ([constituents_depth_enough]). *)
Definition constituents (e : Element) : Gen :=
  constituents_at (S (height e)) e.

(** The traversal order the specification describes: an element, then its
    specifier (noun phrases), front modifiers, pre-modifiers, head,
    complements and post-modifiers, each list left to right and every
    member expanded in turn; a clause yields itself, its pre-modifiers,
    subject, predicate, complements and post-modifiers; a coordination
    itself and its coordinates.  A bare [Element] stands for an unset slot
    and is passed over. *)
Fixpoint preorder (e : Element) : list Element :=
  match e with
  | PyNone => []
  | EElement _ => []
  | EString _ _ | EWord _ _ _ _ | EVar _ _ => [e]
  | ECoordination _ cs _ _ _ _ => e :: flat_map preorder cs
  | EPhrase _ _ fr pr h cm po =>
      e :: flat_map preorder fr ++ flat_map preorder pr ++ preorder h
        ++ flat_map preorder cm ++ flat_map preorder po
  | ENounPhrase _ s fr pr h cm po =>
      e :: preorder s ++ flat_map preorder fr ++ flat_map preorder pr
        ++ preorder h ++ flat_map preorder cm ++ flat_map preorder po
  | EClause _ _ pr s v cm po =>
      e :: flat_map preorder pr ++ preorder s ++ preorder v
        ++ flat_map preorder cm ++ flat_map preorder po
  end.

(** No [None] under an element, but for an unset head or specifier, which
    the generators test for. *)
Fixpoint no_none (e : Element) : bool :=
  match e with
  | PyNone => false
  | EElement _ | EString _ _ | EWord _ _ _ _ | EVar _ _ => true
  | ECoordination _ cs _ _ _ _ => forallb no_none cs
  | EPhrase _ _ fr pr h cm po =>
      forallb no_none fr && forallb no_none pr
      && (is_none h || no_none h)
      && forallb no_none cm && forallb no_none po
  | ENounPhrase _ s fr pr h cm po =>
      (is_none s || no_none s)
      && forallb no_none fr && forallb no_none pr
      && (is_none h || no_none h)
      && forallb no_none cm && forallb no_none po
  | EClause _ _ pr s v cm po =>
      forallb no_none pr && no_none s && no_none v
      && forallb no_none cm && forallb no_none po
  end.

(** The first occurrences of a sequence of identity tokens, in order. *)
Fixpoint first_occurrences (seen l : list nat) : list nat :=
  match l with
  | [] => []
  | x :: t =>
      if bool_decide (x ∈ seen) then first_occurrences seen t
      else x :: first_occurrences (x :: seen) t
  end.

(** The identity tokens of a sequence of elements. *)
Definition ids (l : list Element) : list nat := map py_id l.

(** The children the traversal visits, in its order. *)
Definition children (e : Element) : list Element :=
  match e with
  | ECoordination _ cs _ _ _ _ => cs
  | EPhrase _ _ fr pr h cm po => fr ++ pr ++ [h] ++ cm ++ po
  | ENounPhrase _ s fr pr h cm po => [s] ++ fr ++ pr ++ [h] ++ cm ++ po
  | EClause _ _ pr s v cm po => pr ++ [s] ++ [v] ++ cm ++ po
  | _ => []
  end.

(** Two sequences with the same first occurrences, whatever was seen before
    them. *)
Definition same_first_occurrences (l l' : list nat) : Prop :=
  forall s, first_occurrences s l = first_occurrences s l'.

(** A generator runs to its end without an exception and yields the
    elements of [ref]: the same elements, first met in the same order. *)
Definition yields (g : Gen) (ref : list Element) : Prop :=
  g.2 = None
  /\ (forall x, x ∈ g.1 <-> x ∈ ref)
  /\ same_first_occurrences (ids g.1) (ids ref).

(** ** Induction on elements *)

Section ElementInduction.

Variable P : Element -> Prop.

Hypothesis HNone : P PyNone.
Hypothesis HElement : forall m, P (EElement m).
Hypothesis HString : forall m v, P (EString m v).
Hypothesis HWord : forall m w p b, P (EWord m w p b).
Hypothesis HVar : forall m v, P v -> P (EVar m v).
Hypothesis HCoordination : forall m cs cj pr cm po,
    Forall P cs -> Forall P pr -> Forall P cm -> Forall P po ->
    P (ECoordination m cs cj pr cm po).
Hypothesis HPhrase : forall c m fr pr h cm po,
    Forall P fr -> Forall P pr -> P h -> Forall P cm -> Forall P po ->
    P (EPhrase c m fr pr h cm po).
Hypothesis HNounPhrase : forall m s fr pr h cm po,
    P s -> Forall P fr -> Forall P pr -> P h -> Forall P cm ->
    Forall P po -> P (ENounPhrase m s fr pr h cm po).
Hypothesis HClause : forall m fr pr s v cm po,
    Forall P fr -> Forall P pr -> P s -> P v -> Forall P cm ->
    Forall P po -> P (EClause m fr pr s v cm po).

Fixpoint Element_ind_nested (e : Element) : P e :=
  let all := fix all (l : list Element) : Forall P l :=
               match l with
               | [] => @List.Forall_nil _ P
               | x :: t => @List.Forall_cons _ P x t (Element_ind_nested x) (all t)
               end in
  match e with
  | PyNone => HNone
  | EElement m => HElement m
  | EString m v => HString m v
  | EWord m w p b => HWord m w p b
  | EVar m v => HVar m v (Element_ind_nested v)
  | ECoordination m cs cj pr cm po =>
      HCoordination m cs cj pr cm po (all cs) (all pr) (all cm) (all po)
  | EPhrase c m fr pr h cm po =>
      HPhrase c m fr pr h cm po (all fr) (all pr) (Element_ind_nested h)
        (all cm) (all po)
  | ENounPhrase m s fr pr h cm po =>
      HNounPhrase m s fr pr h cm po (Element_ind_nested s) (all fr)
        (all pr) (Element_ind_nested h) (all cm) (all po)
  | EClause m fr pr s v cm po =>
      HClause m fr pr s v cm po (all fr) (all pr) (Element_ind_nested s)
        (Element_ind_nested v) (all cm) (all po)
  end.

End ElementInduction.

Ltac element_induction e :=
  induction e using Element_ind_nested.

(** ** Search and splice (microplanning/visitors.py) *)

(** The slots of visitors.py are those of structures.py: the class
    declarations visitors.py imports are absent, and its [premodifiers]
    and [postmodifiers] are taken to be the lists [pre_modifiers] and
    [post_modifiers].  An object sits in one slot only, so that changing
    it in place changes the tree at one position. *)

(** [del l[i]] when the replacement is [None], [l[i] = replacement]
    otherwise, at the head of what is left of the list. *)
Definition put_or_delete (replacement : Element) (rest : list Element)
  : list Element :=
  if is_none replacement then rest else replacement :: rest.

(** The loop over a list slot in forward order:
    [for i, o in list(enumerate(l)):] if [o] matches, splice and return
    [True]; else if the search in [o] returns [True], return [True].
    Returns the answer, [False] when the loop ends, and the list as the
    loop leaves it. *)
Fixpoint splice_forward (test : Element -> bool)
    (search : Element -> bool * Element) (replacement : Element)
    (l : list Element) : bool * list Element :=
  match l with
  | [] => (false, [])
  | o :: t =>
      if test o then (true, put_or_delete replacement t)
      else
        let '(found, o') := search o in
        if found then (true, o' :: t)
        else
          let '(found', t') := splice_forward test search replacement t in
          (found', o' :: t')
  end.

(** The same loop over [reversed(list(enumerate(l)))]: the members of
    larger index come first. *)
Fixpoint splice_backward (test : Element -> bool)
    (search : Element -> bool * Element) (replacement : Element)
    (l : list Element) : bool * list Element :=
  match l with
  | [] => (false, [])
  | o :: t =>
      let '(found, t') := splice_backward test search replacement t in
      if found then (true, o :: t')
      else if test o then (true, put_or_delete replacement t')
      else
        let '(found', o') := search o in
        (found', o' :: t')
  end.

(** [replace_element(sent, elt, replacement)]: the answer and [sent] as the
    call leaves it. *)
Fixpoint replace_element (sent elt replacement : Element) {struct sent}
  : bool * Element :=
  if py_eq sent elt then (true, sent)
  else
    let test := fun o => py_eq o elt in
    let search := fun o => replace_element o elt replacement in
    match sent with
    | EClause m fr pr subj vp cm po =>
        if py_eq subj elt then (true, EClause m fr pr replacement vp cm po)
        else
          let '(found, subj') := replace_element subj elt replacement in
          if found then (true, EClause m fr pr subj' vp cm po)
          else if py_eq vp elt
          then (true, EClause m fr pr subj' replacement cm po)
          else
            let '(found', vp') := replace_element vp elt replacement in
            (found', EClause m fr pr subj' vp' cm po)
    | ECoordination m cs cj pr cm po =>
        let '(found, cs') := splice_forward test search replacement cs in
        (found, ECoordination m cs' cj pr cm po)
    | EPhrase c m fr pr h cm po =>
        let '(found, po') := splice_backward test search replacement po in
        if found then (true, EPhrase c m fr pr h cm po')
        else
          let '(found, cm') := splice_backward test search replacement cm in
          if found then (true, EPhrase c m fr pr h cm' po')
          else if py_eq h elt
          then (true, EPhrase c m fr pr replacement cm' po')
          else
            let '(found, pr') :=
              splice_backward test search replacement pr in
            (found, EPhrase c m fr pr' h cm' po')
    | ENounPhrase m s fr pr h cm po =>
        let '(found, po') := splice_backward test search replacement po in
        if found then (true, ENounPhrase m s fr pr h cm po')
        else
          let '(found, cm') := splice_backward test search replacement cm in
          if found then (true, ENounPhrase m s fr pr h cm' po')
          else if py_eq h elt
          then (true, ENounPhrase m s fr pr replacement cm' po')
          else
            let '(found, pr') :=
              splice_backward test search replacement pr in
            if found then (true, ENounPhrase m s fr pr' h cm' po')
            else if py_eq s elt
            then (true, ENounPhrase m replacement fr pr' h cm' po')
            else (false, ENounPhrase m s fr pr' h cm' po')
    | _ => (false, sent)
    end.

(** [e == i] for an [int] [i]: neither an element nor [None] equals an
    [int]. *)
Definition eq_int (e : Element) (i : nat) : bool := false.

(** [replacement or Element()], where the new [Element] gets the identity
    token [next]. *)
Definition or_Element (next : nat) (replacement : Element) : Element :=
  if py_bool replacement then replacement
  else EElement (mkMeta next (IdInt 0) ∅ (-1) None).

(** [replace_element_with_id(sent, elt_id, replacement)]: the answer and
    [sent] as the call leaves it; [next] is the identity token of the
    [Element] the call creates when it empties a subject. *)
Fixpoint replace_element_with_id (next : nat) (sent : Element) (elt_id : nat)
    (replacement : Element) {struct sent} : bool * Element :=
  if (py_id sent =? elt_id)%nat then (true, sent)
  else
    let test := fun o => (py_id o =? elt_id)%nat in
    let search := fun o => replace_element_with_id next o elt_id replacement in
    match sent with
    | ECoordination m cs cj pr cm po =>
        let '(found, cs') := splice_forward test search replacement cs in
        (found, ECoordination m cs' cj pr cm po)
    | EClause m fr pr subj vp cm po =>
        let '(found, pr') := splice_backward test search replacement pr in
        if found then (true, EClause m fr pr' subj vp cm po)
        else if test subj
        then (true, EClause m fr pr' (or_Element next replacement) vp cm po)
        else
          let '(found, subj') := search subj in
          if found then (true, EClause m fr pr' subj' vp cm po)
          else if test vp
          then (true, EClause m fr pr' subj' replacement cm po)
          else
            let '(found, vp') := search vp in
            if found then (true, EClause m fr pr' subj' vp' cm po)
            else
              let '(found, cm') :=
                splice_backward test search replacement cm in
              if found then (true, EClause m fr pr' subj' vp' cm' po)
              else
                let '(found, po') :=
                  splice_backward test search replacement po in
                (found, EClause m fr pr' subj' vp' cm' po')
    | EPhrase c m fr pr h cm po =>
        let '(found, po') := splice_backward test search replacement po in
        if found then (true, EPhrase c m fr pr h cm po')
        else
          let '(found, cm') := splice_backward test search replacement cm in
          if found then (true, EPhrase c m fr pr h cm' po')
          else if test h
          then (true, EPhrase c m fr pr replacement cm' po')
          else
            let '(found, pr') :=
              splice_backward test search replacement pr in
            (found, EPhrase c m fr pr' h cm' po')
    | ENounPhrase m s fr pr h cm po =>
        let '(found, po') := splice_backward test search replacement po in
        if found then (true, ENounPhrase m s fr pr h cm po')
        else
          let '(found, cm') := splice_backward test search replacement cm in
          if found then (true, ENounPhrase m s fr pr h cm' po')
          else if test h
          then (true, ENounPhrase m s fr pr replacement cm' po')
          else
            let '(found, pr') :=
              splice_backward test search replacement pr in
            if found then (true, ENounPhrase m s fr pr' h cm' po')
            else if eq_int s elt_id
            then (true, ENounPhrase m replacement fr pr' h cm' po')
            else (false, ENounPhrase m s fr pr' h cm' po')
    | _ => (false, sent)
    end.

(** *** Positions and scan order *)

(** The slots of an element, and a position under an element: the slot
    and the index to take at every step down (index 0 in a slot that
    holds one element). *)
Inductive Slot :=
| in_coords
| in_pre
| in_head
| in_spec
| in_subj
| in_vp
| in_complements
| in_post.

Definition Path : Type := list (Slot * nat).

(** A slot that holds one element, not a list. *)
Definition single (s : Slot) : bool :=
  match s with
  | in_head | in_spec | in_subj | in_vp => true
  | _ => false
  end.

(** What a slot holds, as a list. *)
Definition slot (s : Slot) (e : Element) : list Element :=
  match s, e with
  | in_coords, ECoordination _ cs _ _ _ _ => cs
  | in_pre, EPhrase _ _ _ pr _ _ _ | in_pre, ENounPhrase _ _ _ pr _ _ _
  | in_pre, EClause _ _ pr _ _ _ _ => pr
  | in_head, EPhrase _ _ _ _ h _ _ | in_head, ENounPhrase _ _ _ _ h _ _ => [h]
  | in_spec, ENounPhrase _ s _ _ _ _ _ => [s]
  | in_subj, EClause _ _ _ sj _ _ _ => [sj]
  | in_vp, EClause _ _ _ _ v _ _ => [v]
  | in_complements, EPhrase _ _ _ _ _ cm _
  | in_complements, ENounPhrase _ _ _ _ _ cm _
  | in_complements, EClause _ _ _ _ _ cm _ => cm
  | in_post, EPhrase _ _ _ _ _ _ po | in_post, ENounPhrase _ _ _ _ _ _ po
  | in_post, EClause _ _ _ _ _ _ po => po
  | _, _ => []
  end.

(** The element with a slot set to a list; a slot for one element takes
    the first of the list. *)
Definition set_slot (s : Slot) (l : list Element) (e : Element) : Element :=
  let x := default PyNone (head l) in
  match s, e with
  | in_coords, ECoordination m _ cj pr cm po => ECoordination m l cj pr cm po
  | in_pre, EPhrase c m fr _ h cm po => EPhrase c m fr l h cm po
  | in_pre, ENounPhrase m sp fr _ h cm po => ENounPhrase m sp fr l h cm po
  | in_pre, EClause m fr _ sj v cm po => EClause m fr l sj v cm po
  | in_head, EPhrase c m fr pr _ cm po => EPhrase c m fr pr x cm po
  | in_head, ENounPhrase m sp fr pr _ cm po => ENounPhrase m sp fr pr x cm po
  | in_spec, ENounPhrase m _ fr pr h cm po => ENounPhrase m x fr pr h cm po
  | in_subj, EClause m fr pr _ v cm po => EClause m fr pr x v cm po
  | in_vp, EClause m fr pr sj _ cm po => EClause m fr pr sj x cm po
  | in_complements, EPhrase c m fr pr h _ po => EPhrase c m fr pr h l po
  | in_complements, ENounPhrase m sp fr pr h _ po =>
      ENounPhrase m sp fr pr h l po
  | in_complements, EClause m fr pr sj v _ po => EClause m fr pr sj v l po
  | in_post, EPhrase c m fr pr h cm _ => EPhrase c m fr pr h cm l
  | in_post, ENounPhrase m sp fr pr h cm _ => ENounPhrase m sp fr pr h cm l
  | in_post, EClause m fr pr sj v cm _ => EClause m fr pr sj v cm l
  | _, _ => e
  end.

(** The element at a position. *)
Fixpoint node_at (e : Element) (p : Path) : option Element :=
  match p with
  | [] => Some e
  | (s, i) :: p' =>
      match slot s e !! i with
      | Some o => node_at o p'
      | None => None
      end
  end.

Section Splice.

(** What is written into a slot for one element, and the replacement. *)
Variable written : Slot -> Element.
Variable replacement : Element.

(** The element with the node at a position replaced: in a list the node
    is removed when the replacement is [None] and overwritten otherwise; a
    slot for one element is overwritten.  The root is left as it is. *)
Fixpoint splice_at (e : Element) (p : Path) : Element :=
  match p with
  | [] => e
  | (s, i) :: p' =>
      let l := slot s e in
      match p' with
      | [] =>
          if single s then set_slot s [written s] e
          else set_slot s (take i l ++ put_or_delete replacement
                                         (drop (S i) l)) e
      | _ :: _ =>
          set_slot s (alter (fun o => splice_at o p') i l) e
      end
  end.

End Splice.

(** The positions under the members of a list slot in the order of the
    loop over [reversed(list(enumerate(l)))]: a member of larger index
    first, and after each member the positions the search visits in it.
    [i] is the index of the first member. *)
Fixpoint scan_backward (s : Slot) (scan : Element -> list Path) (i : nat)
    (l : list Element) : list Path :=
  match l with
  | [] => []
  | o :: t =>
      scan_backward s scan (S i) t
      ++ [(s, i)] :: map (cons (s, i)) (scan o)
  end.

(** The same in the order of the loop over [list(enumerate(l))]. *)
Fixpoint scan_forward (s : Slot) (scan : Element -> list Path) (i : nat)
    (l : list Element) : list Path :=
  match l with
  | [] => []
  | o :: t =>
      ([(s, i)] :: map (cons (s, i)) (scan o))
      ++ scan_forward s scan (S i) t
  end.

(** The position of a slot for one element, followed, when the search
    goes into the element, by the positions visited in it. *)
Definition scan_single (s : Slot) (inner : list Path) : list Path :=
  [(s, 0%nat)] :: map (cons (s, 0%nat)) inner.

(** The scan order of [replace_element], as the specification gives it:
    for a clause the subject, then the predicate; for a coordination the
    coordinates in forward order; for a phrase the post-modifiers in
    reverse index order, the complements in reverse index order, the
    head, the pre-modifiers in reverse index order and, for a noun phrase,
    last the specifier.  The search goes into subject, predicate and list
    members, not into a head or a specifier. *)
Fixpoint scan_order (e : Element) : list Path :=
  match e with
  | EClause _ _ _ subj vp _ _ =>
      scan_single in_subj (scan_order subj)
      ++ scan_single in_vp (scan_order vp)
  | ECoordination _ cs _ _ _ _ => scan_forward in_coords scan_order 0 cs
  | EPhrase _ _ _ pr _ cm po =>
      scan_backward in_post scan_order 0 po
      ++ scan_backward in_complements scan_order 0 cm
      ++ scan_single in_head []
      ++ scan_backward in_pre scan_order 0 pr
  | ENounPhrase _ _ _ pr _ cm po =>
      scan_backward in_post scan_order 0 po
      ++ scan_backward in_complements scan_order 0 cm
      ++ scan_single in_head []
      ++ scan_backward in_pre scan_order 0 pr
      ++ scan_single in_spec []
  | _ => []
  end.

(** The scan order of [replace_element_with_id]: a clause is searched in
    its pre-modifiers (reverse index order), subject, predicate,
    complements and post-modifiers (reverse index order); the specifier of
    a noun phrase is compared with the identity token itself and never
    matches. *)
Fixpoint scan_order_id (e : Element) : list Path :=
  match e with
  | ECoordination _ cs _ _ _ _ => scan_forward in_coords scan_order_id 0 cs
  | EClause _ _ pr subj vp cm po =>
      scan_backward in_pre scan_order_id 0 pr
      ++ scan_single in_subj (scan_order_id subj)
      ++ scan_single in_vp (scan_order_id vp)
      ++ scan_backward in_complements scan_order_id 0 cm
      ++ scan_backward in_post scan_order_id 0 po
  | EPhrase _ _ _ pr _ cm po | ENounPhrase _ _ _ pr _ cm po =>
      scan_backward in_post scan_order_id 0 po
      ++ scan_backward in_complements scan_order_id 0 cm
      ++ scan_single in_head []
      ++ scan_backward in_pre scan_order_id 0 pr
  | _ => []
  end.

(** The node at a position under a member of a list whose first member
    has the index [i0]; and the list with that node spliced. *)
Definition node_in (i0 : nat) (l : list Element) (p : Path)
  : option Element :=
  match p with
  | [] => None
  | (_, i) :: p' =>
      match l !! (i - i0)%nat with
      | Some o => node_at o p'
      | None => None
      end
  end.

Definition splice_in (written : Slot -> Element) (replacement : Element)
    (i0 : nat) (l : list Element) (p : Path) : list Element :=
  match p with
  | [] => l
  | [(_, i)] =>
      take (i - i0) l ++ put_or_delete replacement (drop (S (i - i0)) l)
  | (_, i) :: p' =>
      alter (fun o => splice_at written replacement o p') (i - i0)%nat l
  end.

(** The node at a position passes a test. *)
Definition hit (test : Element -> bool) (e : Element) (p : Path) : bool :=
  match node_at e p with
  | Some x => test x
  | None => false
  end.

(** The node at a position under a member of a list passes a test. *)
Definition hit_in (test : Element -> bool) (i0 : nat) (l : list Element)
    (p : Path) : bool :=
  match node_in i0 l p with
  | Some x => test x
  | None => false
  end.

(** The search in an element that does not pass the test splices the first
    position of its scan order whose node does. *)
Definition search_spec (test : Element -> bool)
    (search : Element -> bool * Element) (scan : Element -> list Path)
    (written : Slot -> Element) (replacement : Element) (o : Element)
  : Prop :=
  test o = false ->
  search o = match find (hit test o) (scan o) with
             | Some p => (true, splice_at written replacement o p)
             | None => (false, o)
             end.

(** Search and splice as the specification has it: [True] and nothing
    done when the root passes the test; else the first position of the
    scan order whose node passes the test is spliced, with [True]; else
    [False] and the tree as it was. *)
Definition splice_first (test : Element -> bool) (order : list Path)
    (written : Slot -> Element) (replacement : Element) (e : Element)
  : bool * Element :=
  if test e then (true, e)
  else match find (hit test e) order with
       | Some p => (true, splice_at written replacement e p)
       | None => (false, e)
       end.

(** ** Referring expressions (reg.py) *)

(** *** Strings *)

(** [c.isupper()] for a character [c], a code point below U+0100: the
    capital letters A to Z (U+0041 to U+005A), U+00C0 to U+00D6 and U+00D8
    to U+00DE. *)
Definition isupper (c : ascii) : bool :=
  let n := nat_of_ascii c in
  ((65 <=? n) && (n <=? 90) || (192 <=? n) && (n <=? 214)
   || (216 <=? n) && (n <=? 222))%nat.

(** The class [[0-9]] of a regular expression. *)
Definition is_digit (c : ascii) : bool :=
  (Ascii.leb "0" c && Ascii.leb c "9")%char.

(** [s.rpartition(sep)[2]]: what follows the last [sep], the whole of [s]
    when there is none. *)
Fixpoint after_last (sep : ascii) (s : string) : option string :=
  match s with
  | EmptyString => None
  | String c t =>
      match after_last sep t with
      | Some r => Some r
      | None => if Ascii.eqb c sep then Some t else None
      end
  end.

Definition rpartition_tail (sep : ascii) (s : string) : string :=
  default s (after_last sep s).

(** The digits a reversed string starts with, and what is left. *)
Fixpoint span_digits (l : list ascii) : list ascii * list ascii :=
  match l with
  | c :: t =>
      if is_digit c then let '(ds, r) := span_digits t in (c :: ds, r)
      else ([], l)
  | [] => ([], [])
  end.

(** [re.search(r"([^0-9]+)([0-9]+)$", s)] and its [group(2)]: the digits
    [s] ends in, when there are some and something that is no digit stands
    before them; [$] also matches before a last newline. *)
Definition numeral_suffix (s : string) : option string :=
  let r := rev (list_ascii_of_string s) in
  let r' := match r with
            | c :: t => if Ascii.eqb c "010" then t else r
            | [] => r
            end in
  match span_digits r' with
  | ([], _) => None
  | (_, []) => None
  | (ds, _ :: _) => Some (string_of_list_ascii (rev ds))
  end.

(** [e.string] of a [String] or a [Word]. *)
Definition surface (e : Element) : option string :=
  match e with
  | EString _ v => Some v
  | EWord _ w _ _ => Some w
  | _ => None
  end.

(** *** The discourse context *)

(** The ontology collaborator: [best_entity_type] and [entities_of_type],
    either of which may raise. *)
Record Ontology := mkOntology {
  best_entity_type : string -> Res string;
  entities_of_type : string -> Res (list string)
}.

(** The keys of the registry: [reg.py] stores under a [str] and under an
    element. *)
Inductive RefKey :=
| KStr (s : string)
| KElt (e : Element).

(** Modelled from the spec: the class [LinguisticContext] of the absent
    module [ctx].  Its [referents] is a map from referent keys to pairs
    [(isGloballyUnique, cachedExpression)], a Python [dict], kept here in
    insertion order; [ontology] may be [None]. *)
Record Context := mkContext {
  ontology : option Ontology;
  referents : list (RefKey * (bool * Element))
}.

(** [stored == key] between a key of the dict and the key looked up: a
    [str] never equals an element.  Keys that are equal hash alike (the
    hashes are functions of the fields [==] compares), so the hashes are
    left out of the lookup. *)
Definition key_eq (stored key : RefKey) : bool :=
  match stored, key with
  | KStr a, KStr b => String.eqb a b
  | KElt a, KElt b => py_eq a b
  | _, _ => false
  end.

(** [d.get(key)]. *)
Fixpoint dict_get {B} (d : list (RefKey * B)) (key : RefKey) : option B :=
  match d with
  | [] => None
  | (k, v) :: t => if key_eq k key then Some v else dict_get t key
  end.

(** [key in d]. *)
Definition dict_contains {B} (d : list (RefKey * B)) (key : RefKey) : bool :=
  match dict_get d key with Some _ => true | None => false end.

(** [d[key] = v]: the value of an equal key is replaced, a new key goes to
    the end. *)
Fixpoint dict_set {B} (d : list (RefKey * B)) (key : RefKey) (v : B)
  : list (RefKey * B) :=
  match d with
  | [] => [(key, v)]
  | (k, w) :: t =>
      if key_eq k key then (k, v) :: t else (k, w) :: dict_set t key v
  end.

Definition set_referent (key : RefKey) (v : bool * Element) (c : Context)
  : Context :=
  mkContext (ontology c) (dict_set (referents c) key v).

(** *** Exceptions in computations *)

Definition lift {A} (r : Res A) : Py A := fun n => (r, n).

(** [try: c except Exception as x: handler(x)]. *)
Definition try_except {A} (c : Py A) (handler : Exn -> Py A) : Py A :=
  fun n =>
    match c n with
    | (Ok a, n') => (Ok a, n')
    | (Raise x, n') => handler x n'
    end.

(** *** [generate_ref_exp] *)

(** [Element.__getattr__(name)], which Python calls for an attribute that
    is neither in the [__dict__] of the object nor in its class.  [d] is
    what the [__dict__] holds under [features]: an object made without
    [__init__] holds nothing there, and the method raises
    [Exception('flag!')]; else a feature of that name is the value, and
    without one the method raises [AttributeError].  The table
    [_feature_constants] is empty: the metaclass fills it from the modules
    of a directory [lexicon/feature] beside the package, and the sources
    hold none. *)
Definition Element_getattr (d : option (gmap string string)) (name : string)
  : Res string :=
  match d with
  | None => Raise Exception
  | Some feats =>
      match feats !! name with
      | Some v => Ok v
      | None => Raise AttributeError
      end
  end.

(** [NounPhrase(target, features=target._features)].  No class of
    structures.py sets an attribute [_features], so [Element.__getattr__]
    answers: [AttributeError], unless the referent has a feature of that
    name.  [Element.__init__] takes a value that is false (the empty
    [str]) for no features, and refuses any other value that is no
    [dict] with [ValueError]. *)
Definition wrap_referent (target : Element) : Py Element :=
  match meta target with
  | None => raise AttributeError
  | Some m =>
      feats ← lift (Element_getattr (Some (features m)) "_features");
      if String.eqb feats "" then new_NounPhrase target PyNone ∅ None
      else _ ← fresh; raise ValueError
  end.

(** The branch of [_do_initial_reference] for a referent that is not
    unique: the number the name ends in becomes a complement and the
    phrase is tagged [PROPER].  The registry holds the very object that is
    returned, so it shows what is added after the object was stored. *)
Definition distinguish_by_number (referent : string) (result : Element)
    (context : Context) : Py (Element * Context) :=
  match numeral_suffix referent with
  | Some number =>
      w ← new_Word number "ANY" ∅ None None;
      r ← Phrase_add_complement result [w];
      let r' := set_feature "PROPER" "true" r in
      mret (r', set_referent (KStr referent) (false, r') context)
  | None =>
      mret (result, set_referent (KStr referent) (false, result) context)
  end.

(** [_do_initial_reference]: the expression and the context as the call
    leaves it. *)
Definition _do_initial_reference (target : Element) (context : Context)
  : Py (Element * Context) :=
  try_except
    (match default "" (surface target) with
     | EmptyString => raise IndexError
     | String c _ as referent =>
         if isupper c then
           result ← wrap_referent target;
           mret (set_feature "PROPER" "true" result, context)
         else
           onto ← match ontology context with
                  | Some o => mret o
                  | None => raise AttributeError
                  end;
           t ← lift (best_entity_type onto (":" ++ referent)%string);
           let entity_type := rpartition_tail ":" t in
           noun ← new_Word entity_type "NOUN" ∅ None None;
           result ← new_NounPhrase noun PyNone ∅ None;
           xs ← lift (entities_of_type onto (":" ++ entity_type)%string);
           let distractors := remove_dups (map (rpartition_tail ":") xs) in
           let count := List.length distractors in
           if (count =? 0)%nat
              || ((count =? 1)%nat
                  && bool_decide (head distractors = Some referent)) then
             cached ← deepcopy result;
             the ← new_Word "the" "DETERMINER" ∅ None None;
             mret (assign_spec the result,
                   set_referent (KStr referent) (true, cached) context)
           else distinguish_by_number referent result context
     end)
    (fun _ =>
       result ← wrap_referent target;
       mret (result, set_referent (KElt target) (false, result) context)).

(** [_do_repeated_reference]; a missing key is a [KeyError].  The
    expression of a referent that is not unique is the cached object
    itself, so the determiner it is given shows in the registry. *)
Definition _do_repeated_reference (referent : Element) (context : Context)
  : Py (Element * Context) :=
  match dict_get (referents context) (KElt referent) with
  | None => raise KeyError
  | Some (true, refexp) =>
      result ← deepcopy refexp;
      the ← new_Word "the" "DETERMINER" ∅ None None;
      mret (assign_spec the result, context)
  | Some (false, refexp) =>
      if has_feature "PROPER" "true" refexp then mret (refexp, context)
      else
        a ← new_Word "a" "DETERMINER" ∅ None None;
        let result := assign_spec a refexp in
        mret (result, set_referent (KElt referent) (false, result) context)
  end.

(** [generate_ref_exp]: anything but a [String] or a [Word] passes
    through. *)
Definition generate_ref_exp (referent : Element) (context : Context)
  : Py (Element * Context) :=
  match referent with
  | EString _ _ | EWord _ _ _ _ =>
      if dict_contains (referents context) (KElt referent)
      then _do_repeated_reference referent context
      else _do_initial_reference referent context
  | _ => mret (referent, context)
  end.

(** The specifier of a noun phrase is the determiner [w]. *)
Definition has_determiner (w : string) (e : Element) : bool :=
  match spec_of e with
  | EWord _ w' p _ => String.eqb w w' && String.eqb p "DETERMINER"
  | _ => false
  end.

(** The specifier of a noun phrase is unset: a bare [Element]. *)
Definition no_determiner (e : Element) : bool :=
  match spec_of e with
  | EElement _ => true
  | _ => false
  end.

(** *** [optimise_ref_exp] *)

#[export] Instance Res_ret : MRet Res := fun A a => Ok a.
#[export] Instance Res_bind : MBind Res := fun A B k r =>
  match r with
  | Ok a => k a
  | Raise x => Raise x
  end.

(** [copy(x)] of the module [copy], for [None] or an object of a class of
    structures.py.  [None] is returned as it is.  No class of
    structures.py has a method [__copy__], so any other object is rebuilt
    from [x.__reduce_ex__(4)]: an object [y] of the class of [x] is made
    without [__init__]; then [hasattr(y, '__setstate__')] asks [y] for an
    attribute that no class has, so that [Element.__getattr__] answers,
    for an object whose [__dict__] is still empty; [hasattr] turns an
    [AttributeError] into [False] and lets any other exception through.
    After [False] the attributes of [x] are put into [y]: the copy is [x]
    with another identity and the same objects in its slots.  (A feature
    found under the name would be called and is no function.) *)
Definition py_copy (x : Element) : Py Element :=
  match x with
  | PyNone => mret PyNone
  | _ =>
      y ← fresh;
      match Element_getattr None "__setstate__" with
      | Ok _ => raise TypeError
      | Raise AttributeError => mret (with_meta (set_oid y) x)
      | Raise e => raise e
      end
  end.

Section OptimiseRefExp.

(** What [optimise_ref_exp] does after its first statement, with the
    phrase and the copy of it: the search for noun phrases, the choice of
    a pronoun and of its case, the determiners.  It works with the modules
    [lexicon] and [ctx], which are not in the sources, and is left open
    here. *)
Variable rest : Element -> Element -> Py Element.

(** [optimise_ref_exp(phrase)]: [result = copy(phrase)] comes first. *)
Definition optimise_ref_exp (phrase : Element) : Py Element :=
  result ← py_copy phrase;
  rest phrase result.

End OptimiseRefExp.

(** ** Message specifications (structures/macroplanning.py) *)

(** The key [value_for] is called with: an [int] or a [str]. *)
Inductive PyKey :=
| KeyInt (z : Z)
| KeyStr (s : string).

Section PredicateMsg.

(** The values a message holds for its arguments. *)
Variable V : Type.

(** [int(s)] for a [str]; [None] where it raises [ValueError]. *)
Variable int_of_str : string -> option Z.

(** A [PredicateMsg]: the name and features of [MsgSpec], the operator of
    the predicate and the list [args].  [attrs] tells what introspection
    finds under a name: nothing, an attribute that cannot be called, or a
    method with the result of calling it. *)
Record PredicateMsg := mkPredicateMsg {
  name : string;
  predicate_op : string;
  args : list V;
  msg_features : gmap string string;
  attrs : string -> option (option (Res V))
}.

(** [MsgSpec.value_for]. *)
Definition MsgSpec_value_for (self : PredicateMsg) (attr : string) : Res V :=
  match attrs self attr with
  | None => Raise ValueError
  | Some None => Raise ValueError
  | Some (Some r) => r
  end.

(** [self.args[idx]], with Python's indexing from the end for a negative
    index. *)
Definition py_index (l : list V) (idx : Z) : Res V :=
  let i := if idx <? 0 then idx + Z.of_nat (List.length l) else idx in
  if i <? 0 then Raise IndexError
  else match l !! Z.to_nat i with
       | Some v => Ok v
       | None => Raise IndexError
       end.

(** [PredicateMsg.value_for]: the message as the call leaves it, and the
    value returned or the exception raised. *)
Definition value_for (self : PredicateMsg) (key : PyKey)
  : PredicateMsg * Res V :=
  let idx := match key with
             | KeyInt z => Some z
             | KeyStr s => int_of_str s
             end in
  match idx with
  | None =>
      (self, match key with
             | KeyStr s => MsgSpec_value_for self s
             | KeyInt _ => Raise ValueError
             end)
  | Some idx =>
      if Z.of_nat (List.length (args self)) <=? idx
      then (self, Raise SignatureError)
      else (self, py_index (args self) idx)
  end.

End PredicateMsg.

Arguments mkPredicateMsg {V}.
Arguments args {V}.
Arguments value_for {V}.

(** ** Sample trees *)

(** [NounPhrase(Word('block', 'NOUN'))] with the pre-modifier
    [AdjectivePhrase(Word('red', 'ADJECTIVE'))]: "red block". *)
Definition red_block_py : Py Element :=
  adj ← new_Word "red" "ADJECTIVE" ∅ None None;
  adjp ← new_HeadPhrase AdjectivePhrase adj ∅ None;
  noun ← new_Word "block" "NOUN" ∅ None None;
  np ← new_NounPhrase noun PyNone ∅ None;
  Phrase_add_pre_modifier np [adjp].

Definition red_block : Element := default PyNone (run red_block_py).

(** [deepcopy(red_block)], the counter standing above the tokens of
    [red_block]. *)
Definition red_block_copy : Element :=
  match deepcopy red_block 8%nat with
  | (Ok c, _) => c
  | (Raise _, _) => PyNone
  end.

(** [e.pre_modifiers]. *)
Definition pre_modifiers_of (e : Element) : list Element :=
  match e with
  | ECoordination _ _ _ pr _ _ | EPhrase _ _ _ pr _ _ _
  | ENounPhrase _ _ _ pr _ _ _ | EClause _ _ pr _ _ _ _ => pr
  | _ => []
  end.

(** ** Sample discourse *)

(** An ontology with one table, the referent itself. *)
Definition one_table : Ontology :=
  mkOntology (fun _ => Ok ":table") (fun _ => Ok [":table"]).

(** An ontology with two blocks. *)
Definition two_blocks : Ontology :=
  mkOntology (fun _ => Ok ":block") (fun _ => Ok [":b1"; ":b2"]).

(** The object [String(s)] with the identity token 1. *)
Definition referent_named (s : string) : Element :=
  EString (mkMeta 1%nat (IdInt 0) ∅ (-1) None) s.

(** [generate_ref_exp] on [String(s)] in a context with an empty registry:
    the expression, the context and the counter it leaves. *)
Definition first_mention (onto : Ontology) (s : string)
  : Element * Context * nat :=
  match generate_ref_exp (referent_named s) (mkContext (Some onto) []) 2%nat
  with
  | (Ok (e, c), n) => (e, c, n)
  | (Raise _, n) => (PyNone, mkContext (Some onto) [], n)
  end.

(** [generate_ref_exp] on the same [String(s)] once more, in the context
    the first call left. *)
Definition second_mention (onto : Ontology) (s : string)
  : Element * Context * nat :=
  let '(_, c1, n1) := first_mention onto s in
  match generate_ref_exp (referent_named s) c1 n1 with
  | (Ok (e, c), n) => (e, c, n)
  | (Raise _, n) => (PyNone, c1, n)
  end.

(** The keys of a registry, and the flags stored under them. *)
Definition key_strings (c : Context) : list (option string * bool) :=
  map (fun '(k, (u, _)) =>
         (match k with KStr s => Some s | KElt _ => None end, u))
      (referents c).

(** [Clause(NounPhrase(Word('John', 'NOUN')),
            VerbPhrase(Word('see', 'VERB'),
                       NounPhrase(Word('John', 'NOUN'))))]:
    "John sees John", with two noun phrases that are equal and are not
    the same object. *)
Definition john_sees_john_py : Py Element :=
  j1 ← new_Word "John" "NOUN" ∅ None None;
  subj ← new_NounPhrase j1 PyNone ∅ None;
  j2 ← new_Word "John" "NOUN" ∅ None None;
  obj ← new_NounPhrase j2 PyNone ∅ None;
  see ← new_Word "see" "VERB" ∅ None None;
  vp ← new_HeadPhrase VerbPhrase see ∅ None;
  vp' ← Phrase_add_complement vp [obj];
  new_Clause subj vp' ∅ None.

Definition john_sees_john : Element := default PyNone (run john_sees_john_py).

(** [e.subj], [e.vp] and [e.complements]. *)
Definition subj_of (e : Element) : Element :=
  match e with EClause _ _ _ s _ _ _ => s | _ => PyNone end.

Definition vp_of (e : Element) : Element :=
  match e with EClause _ _ _ _ v _ _ => v | _ => PyNone end.

Definition complements_of (e : Element) : list Element :=
  match e with
  | ECoordination _ _ _ _ cm _ | EPhrase _ _ _ _ _ cm _
  | ENounPhrase _ _ _ _ _ cm _ | EClause _ _ _ _ _ cm _ => cm
  | _ => []
  end.

(** "John sees Mary". *)
Definition john_sees_mary_py : Py Element :=
  j ← new_Word "John" "NOUN" ∅ None None;
  subj ← new_NounPhrase j PyNone ∅ None;
  m ← new_Word "Mary" "NOUN" ∅ None None;
  obj ← new_NounPhrase m PyNone ∅ None;
  see ← new_Word "see" "VERB" ∅ None None;
  vp ← new_HeadPhrase VerbPhrase see ∅ None;
  vp' ← Phrase_add_complement vp [obj];
  new_Clause subj vp' ∅ None.

Definition john_sees_mary : Element := default PyNone (run john_sees_mary_py).

(** Neither the element nor a node at a position of its scan order
    passes the test. *)
Definition unmatched (test : Element -> bool) (scan : Element -> list Path)
    (o : Element) : Prop :=
  test o = false /\ forall p, p ∈ scan o -> hit test o p = false.

(** What a search and splice answers, [res], for an element [sent], a test
    and a scan order: nothing is done to a root that passes the test;
    without any match the answer is [False] and the tree is as it was;
    else the first position of the scan order whose node passes the test,
    and no other, is spliced. *)
Definition replaces_first (test : Element -> bool) (order : list Path)
    (written : Slot -> Element) (replacement : Element) (sent : Element)
    (res : bool * Element) : Prop :=
  (test sent = true -> res = (true, sent))
  /\ (test sent = false ->
      (forall p, p ∈ order -> hit test sent p = false) ->
      res = (false, sent))
  /\ (test sent = false ->
      forall before p after,
        order = before ++ p :: after ->
        hit test sent p = true ->
        (forall q, q ∈ before -> hit test sent q = false) ->
        res = (true, splice_at written replacement sent p))
  /\ (res.1 = false <->
      test sent = false /\ forall p, p ∈ order -> hit test sent p = false)
  /\ (res.1 = false -> res.2 = sent).

(** What [replace_element_with_id] writes into a slot for one element: an
    emptied subject becomes a new [Element]. *)
Definition written_with_id (next : nat) (replacement : Element) (s : Slot)
  : Element :=
  match s with
  | in_subj => or_Element next replacement
  | _ => replacement
  end.

(** A list in which the search finds nothing: no member passes the test
    and none holds, at a position of its scan order, a node that does. *)
Definition quiet (test : Element -> bool) (scan : Element -> list Path)
    (l : list Element) : Prop :=
  Forall (unmatched test scan) l.

(** The list [l'] is [l] spliced at a member that passes the test, the
    search finding nothing in the members of larger index. *)
Definition spliced_at_last (test : Element -> bool)
    (scan : Element -> list Path) (replacement : Element)
    (l l' : list Element) : Prop :=
  exists l1 b l2,
    l = l1 ++ b :: l2 /\ test b = true /\ quiet test scan l2
    /\ l' = l1 ++ put_or_delete replacement l2.

(** What a search and splice answers, [res], for a phrase [sent] that
    does not pass the test, slot after slot: the post-modifiers, from the
    last one; when the search finds nothing there, the complements, from
    the last one; then the head; then the pre-modifiers, from the last
    one; then, when [with_spec] is set and the phrase is a noun phrase,
    the specifier; else the answer is [False]. *)
Definition scans_phrase_slots (test : Element -> bool)
    (scan : Element -> list Path) (with_spec : bool)
    (replacement : Element) (sent : Element) (res : bool * Element)
  : Prop :=
  let post := slot in_post sent in
  let comp := slot in_complements sent in
  let pre := slot in_pre sent in
  let found s l' := res = (true, set_slot s l' sent) in
  (forall l', spliced_at_last test scan replacement post l' ->
     found in_post l')
  /\ (quiet test scan post ->
      forall l', spliced_at_last test scan replacement comp l' ->
        found in_complements l')
  /\ (quiet test scan post -> quiet test scan comp ->
      test (head_of sent) = true ->
      found in_head [replacement])
  /\ (quiet test scan post -> quiet test scan comp ->
      test (head_of sent) = false ->
      forall l', spliced_at_last test scan replacement pre l' ->
        found in_pre l')
  /\ (quiet test scan post -> quiet test scan comp ->
      test (head_of sent) = false -> quiet test scan pre ->
      res = if with_spec && is_noun_phrase sent && test (spec_of sent)
            then (true, set_slot in_spec [replacement] sent)
            else (false, sent)).

(** [NounPhrase(Coordination(Word('cats', 'NOUN'), Word('dogs', 'NOUN')))]:
    "cats and dogs", a noun phrase with a coordination for its head; and
    the word [Word('mice', 'NOUN')], created after it. *)
Definition cats_and_dogs_py : Py (Element * Element) :=
  cats ← new_Word "cats" "NOUN" ∅ None None;
  dogs ← new_Word "dogs" "NOUN" ∅ None None;
  cc ← new_Coordination [cats; dogs] "and" ∅ None;
  np ← new_NounPhrase cc PyNone ∅ None;
  mice ← new_Word "mice" "NOUN" ∅ None None;
  mret (np, mice).

Definition cats_and_dogs : Element :=
  match run cats_and_dogs_py with
  | Some (np, _) => np
  | None => PyNone
  end.

Definition mice : Element :=
  match run cats_and_dogs_py with
  | Some (_, w) => w
  | None => PyNone
  end.

(** The first coordinate of the head of [cats_and_dogs]. *)
Definition cats : Element :=
  default PyNone
    (node_at cats_and_dogs [(in_head, 0%nat); (in_coords, 0%nat)]).

(** [e.front_modifiers]. *)
Definition front_modifiers_of (e : Element) : list Element :=
  match e with
  | EPhrase _ _ fr _ _ _ _ | ENounPhrase _ _ fr _ _ _ _
  | EClause _ fr _ _ _ _ _ => fr
  | _ => []
  end.

(** "block here here": [NounPhrase(Word('block', 'NOUN'))] to which
    [add_post_modifier(Word('here', 'ADVERB'))] is applied twice, with two
    words that are equal, [first] before [second]; and the words
    [Word('here', 'ADVERB')] and [Word('there', 'ADVERB')] created after
    it. *)
Definition block_here_here_py
  : Py (Element * Element * Element * Element * Element) :=
  noun ← new_Word "block" "NOUN" ∅ None None;
  np ← new_NounPhrase noun PyNone ∅ None;
  first ← new_Word "here" "ADVERB" ∅ None None;
  np1 ← Phrase_add_post_modifier np [first];
  second ← new_Word "here" "ADVERB" ∅ None None;
  np2 ← Phrase_add_post_modifier np1 [second];
  target ← new_Word "here" "ADVERB" ∅ None None;
  there ← new_Word "there" "ADVERB" ∅ None None;
  mret (np2, first, second, target, there).

Definition block_here_here : Element :=
  match run block_here_here_py with
  | Some (np, _, _, _, _) => np
  | None => PyNone
  end.

(** The word attached first and the word attached second. *)
Definition first_here : Element :=
  match run block_here_here_py with
  | Some (_, w, _, _, _) => w
  | None => PyNone
  end.

Definition second_here : Element :=
  match run block_here_here_py with
  | Some (_, _, w, _, _) => w
  | None => PyNone
  end.

Definition here : Element :=
  match run block_here_here_py with
  | Some (_, _, _, target, _) => target
  | None => PyNone
  end.

Definition there : Element :=
  match run block_here_here_py with
  | Some (_, _, _, _, w) => w
  | None => PyNone
  end.

(** * More of the code *)

(** ** Elements (structures.py) *)

(** [e.hash], the cache of [__hash__]; -1 stands for "not computed". *)
Definition cached_hash (e : Element) : Z :=
  match meta e with Some m => hash m | None => -1 end.

(** An [Element], [String] or [Word]: the classes whose [__hash__] looks at
    the object alone. *)
Definition is_plain_leaf (e : Element) : bool :=
  match e with
  | EElement _ | EString _ _ | EWord _ _ _ _ => true
  | _ => false
  end.

(** The object with another identity token, cached hash and parent. *)
Definition relocated (n : nat) (h : Z) (p : option nat) (e : Element)
  : Element :=
  with_meta (fun m => mkMeta n (eid m) (features m) h p) e.

(** [e.parent] and [e.post_modifiers]. *)
Definition parent_of (e : Element) : option nat :=
  match meta e with Some m => parent m | None => None end.

Definition post_modifiers_of (e : Element) : list Element :=
  match e with
  | ECoordination _ _ _ _ _ po | EPhrase _ _ _ _ _ _ po
  | ENounPhrase _ _ _ _ _ _ po | EClause _ _ _ _ _ _ po => po
  | _ => []
  end.

(** The classes with a [__deepcopy__] that builds the copy from the
    attributes of the object alone: [Element], [String] and [Var]. *)
Definition copied_by_attributes (e : Element) : bool :=
  match e with
  | EElement _ | EString _ _ => true
  | EVar _ v => negb (is_none v)
  | _ => false
  end.

(** "very red": [AdjectivePhrase(Word('red', 'ADJECTIVE'))] with the
    pre-modifier [Word('very', 'ADVERB')]. *)
Definition very_red_py : Py Element :=
  red ← new_Word "red" "ADJECTIVE" ∅ None None;
  adjp ← new_HeadPhrase AdjectivePhrase red ∅ None;
  very ← new_Word "very" "ADVERB" ∅ None None;
  Phrase_add_pre_modifier adjp [very].

Definition very_red : Element := default PyNone (run very_red_py).

(** [deepcopy(very_red)], the counter standing above the tokens of
    [very_red]. *)
Definition very_red_copy : Element :=
  match deepcopy very_red 5%nat with
  | (Ok c, _) => c
  | (Raise _, _) => PyNone
  end.

(** [String('a')] with its hash computed before: 42. *)
Definition hashed_a : Element :=
  EString (mkMeta 1%nat (IdInt 0) ∅ 42 None) "a".

(** *** Features *)

(** The feature methods of [Element], on an element that is not [None];
    the values of features are strings here. *)

(** [Element.has_feature(feature, value)], [value] being [None] when it is
    left out. *)
Definition Element_has_feature (feature : string) (value : option string)
    (e : Element) : bool :=
  match features_of e !! feature with
  | Some v' =>
      match value with
      | None => true
      | Some v => String.eqb v v'
      end
  | None => false
  end.

(** [Element.get_feature]: [self.features[feature]]. *)
Definition get_feature (feature : string) (e : Element) : Res string :=
  match features_of e !! feature with
  | Some v => Ok v
  | None => Raise KeyError
  end.

(** [Element.feature] and [Element.__getitem__]: [None] for a missing
    feature. *)
Definition feature (feat : string) (e : Element) : option string :=
  features_of e !! feat.

(** [Element.del_feature(feat, val)]: with a value the feature is deleted;
    without one, [val == self.features[feat]] compares [None] with the
    string stored and nothing is deleted. *)
Definition del_feature (feat : string) (val : option string) (e : Element)
  : Element :=
  match features_of e !! feat with
  | Some _ =>
      match val with
      | Some _ => with_meta (fun m => set_features (delete feat (features m)) m) e
      | None => e
      end
  | None => e
  end.

(** [Element.__delitem__]: the feature is deleted when it is there. *)
Definition delitem (feature_name : string) (e : Element) : Element :=
  match features_of e !! feature_name with
  | Some _ =>
      with_meta (fun m => set_features (delete feature_name (features m)) m) e
  | None => e
  end.

(** [Element.addfeatures(features)]: every given feature is set. *)
Definition addfeatures (fs : gmap string string) (e : Element) : Element :=
  with_meta (fun m => set_features (fs ∪ features m) m) e.

(** *** The object of a verb phrase *)

(** [c.has_feature('discourseFunction', 'OBJECT')] for a complement [c];
    [None] has no such method. *)
Definition is_object (c : Element) : Res bool :=
  if is_none c then Raise AttributeError
  else Ok (has_feature "discourseFunction" "OBJECT" c).

(** The loop of [VerbPhrase.get_object]: the first complement that is an
    object, [None] when there is none. *)
Fixpoint get_object_in (cm : list Element) : Res Element :=
  match cm with
  | [] => Ok PyNone
  | c :: t =>
      b ← is_object c;
      if b : bool then Ok c else get_object_in t
  end.

(** The loop of [VerbPhrase.remove_object]: the complements that are no
    objects. *)
Fixpoint remove_object_in (cm : list Element) : Res (list Element) :=
  match cm with
  | [] => Ok []
  | c :: t =>
      b ← is_object c;
      t' ← remove_object_in t;
      Ok (if b : bool then t' else c :: t')
  end.

(** [VerbPhrase.get_object], [VerbPhrase.remove_object] and
    [VerbPhrase.set_object]; the other classes have no such methods. *)
Definition get_object (self : Element) : Res Element :=
  match self with
  | EPhrase VerbPhrase _ _ _ _ cm _ => get_object_in cm
  | _ => Raise AttributeError
  end.

Definition remove_object (self : Element) : Res Element :=
  match self with
  | EPhrase VerbPhrase m fr pr h cm po =>
      cm' ← remove_object_in cm;
      Ok (EPhrase VerbPhrase m fr pr h cm' po)
  | _ => Raise AttributeError
  end.

Definition set_object (obj : Element) (self : Element) : Res Element :=
  self' ← remove_object self;
  if is_none obj then Ok self'
  else
    match self' with
    | EPhrase c m fr pr h cm po =>
        Ok (EPhrase c m fr pr h
              (set_feature "discourseFunction" "OBJECT" obj :: cm) po)
    | _ => Ok self'
    end.

(** A verb phrase. *)
Definition is_verb_phrase (e : Element) : bool :=
  match e with EPhrase VerbPhrase _ _ _ _ _ _ => true | _ => false end.

(** No complement is [None]. *)
Definition complements_set (e : Element) : bool :=
  forallb (fun c => negb (is_none c)) (complements_of e).

(** A complement that is an object. *)
Definition object_complement (c : Element) : bool :=
  has_feature "discourseFunction" "OBJECT" c.

(** ** Printing visitors (microplanning/visitors.py) *)

(** [PrintVisitor]: the tags of the elements entered and not yet left,
    the indentation level, the indentation unit and the separator. *)
Record PrintVisitor := mkPrintVisitor {
  ancestors : list string;
  depth : Z;
  indent : string;
  sep : string
}.

(** [PrintVisitor.__init__]. *)
Definition PrintVisitor_init (depth : Z) (indent sep : string)
  : PrintVisitor :=
  mkPrintVisitor [] depth indent sep.

(** [XmlVisitor.__init__], as far as the indentation goes: the tag
    ['child'] is there from the start. *)
Definition XmlVisitor_init (depth : Z) (indent sep : string)
  : PrintVisitor :=
  mkPrintVisitor ["child"] depth indent sep.

(** [PrintVisitor.enter]. *)
Definition enter (tag : string) (v : PrintVisitor) : PrintVisitor :=
  mkPrintVisitor (ancestors v ++ [tag]) (depth v + 1) (indent v) (sep v).

(** [PrintVisitor.exit]; [None] stands for the [Exception] it raises when
    no ancestor is left. *)
Definition exit (v : PrintVisitor) : option PrintVisitor :=
  if (List.length (ancestors v) =? 0)%nat then None
  else Some (mkPrintVisitor (removelast (ancestors v)) (depth v - 1)
               (indent v) (sep v)).

(** [s * n] for a [str] [s] and an [int] [n]: empty when [n] is
    negative. *)
Definition str_times (s : string) (n : Z) : string :=
  String.concat "" (repeat s (Z.to_nat n)).

(** [PrintVisitor._get_args()], without keyword arguments: the tag of the
    innermost ancestor and the indentation outside and inside the
    element; an [IndexError] when there is no ancestor. *)
Record FormatArgs := mkFormatArgs {
  arg_tag : string;
  arg_outer : string;
  arg_inner : string;
  arg_sep : string
}.

Definition _get_args (v : PrintVisitor) : Res FormatArgs :=
  match last (ancestors v) with
  | Some tag =>
      Ok (mkFormatArgs tag (str_times (indent v) (depth v))
            (str_times (indent v) (depth v + 1)) (sep v))
  | None => Raise IndexError
  end.

(** A call of [enter] or of [exit]. *)
Inductive VisitorCall :=
| Enter (tag : string)
| Exit.

(** The visitor after a sequence of calls; [None] when one of them
    raises. *)
Fixpoint calls (cs : list VisitorCall) (v : PrintVisitor)
  : option PrintVisitor :=
  match cs with
  | [] => Some v
  | Enter tag :: t => calls t (enter tag v)
  | Exit :: t =>
      match exit v with
      | Some v' => calls t v'
      | None => None
      end
  end.

(** The calls of [enter] less the calls of [exit]. *)
Fixpoint entered (cs : list VisitorCall) : Z :=
  match cs with
  | [] => 0
  | Enter _ :: t => 1 + entered t
  | Exit :: t => entered t - 1
  end.

(** ** Iterating over a sentence (microplanning/visitors.py) *)

(** [for o in reversed(l): for x in f(o): yield x]. *)
Definition yield_reversed (f : Element -> list Element) (l : list Element)
  : list Element :=
  List.concat (rev (map f l)).

(** [sentence_iterator(sent)], the elements it yields.  Its
    [postmodifiers] and [premodifiers] are the lists [post_modifiers] and
    [pre_modifiers], as for the search above. *)
Fixpoint sentence_iterator (sent : Element) : list Element :=
  match sent with
  | EClause _ _ _ subj vp _ _ => sentence_iterator vp ++ [vp; subj]
  | EPhrase _ _ _ pr h cm po =>
      yield_reversed sentence_iterator po
      ++ yield_reversed sentence_iterator cm
      ++ (if is_none h then [] else sentence_iterator h)
      ++ yield_reversed sentence_iterator pr
      ++ [sent]
  | ENounPhrase _ s _ pr h cm po =>
      yield_reversed sentence_iterator po
      ++ yield_reversed sentence_iterator cm
      ++ (if is_none h then [] else sentence_iterator h)
      ++ yield_reversed sentence_iterator pr
      ++ sentence_iterator s
      ++ [sent]
  | ECoordination _ cs _ _ _ _ => cs ++ [sent]
  | _ => [sent]
  end.

(** The members of every slot of an element. *)
Definition slots_of (e : Element) : list Element :=
  match e with
  | EVar _ v => [v]
  | ECoordination _ cs _ pr cm po => cs ++ pr ++ cm ++ po
  | EPhrase _ _ fr pr h cm po => fr ++ pr ++ [h] ++ cm ++ po
  | ENounPhrase _ s fr pr h cm po => [s] ++ fr ++ pr ++ [h] ++ cm ++ po
  | EClause _ fr pr s v cm po => fr ++ pr ++ [s] ++ [v] ++ cm ++ po
  | _ => []
  end.

(** The element and everything below it. *)
Fixpoint subelements (e : Element) : list Element :=
  e :: match e with
       | EVar _ v => subelements v
       | ECoordination _ cs _ pr cm po =>
           flat_map subelements cs ++ flat_map subelements pr
           ++ flat_map subelements cm ++ flat_map subelements po
       | EPhrase _ _ fr pr h cm po =>
           flat_map subelements fr ++ flat_map subelements pr
           ++ subelements h
           ++ flat_map subelements cm ++ flat_map subelements po
       | ENounPhrase _ s fr pr h cm po =>
           subelements s
           ++ flat_map subelements fr ++ flat_map subelements pr
           ++ subelements h
           ++ flat_map subelements cm ++ flat_map subelements po
       | EClause _ fr pr s v cm po =>
           flat_map subelements fr ++ flat_map subelements pr
           ++ subelements s ++ subelements v
           ++ flat_map subelements cm ++ flat_map subelements po
       | _ => []
       end.

(** ** More of reg.py *)

(** Every character of a string is a digit. *)
Definition all_digits (s : string) : bool :=
  forallb is_digit (list_ascii_of_string s).

(** A word with the part of speech [pos]. *)
Definition is_word_of (pos : string) (e : Element) : bool :=
  match e with
  | EWord _ _ p _ => String.eqb p pos
  | _ => false
  end.

(** ** The [replace] methods (structures.py) *)

(** The loop over a list slot in [Coordination.replace] and
    [Phrase.replace]:
    [for i, o in enumerate(l):] if [o == one], the member is overwritten
    with [another] or deleted, and the answer is [True]; else if
    [o.replace(one, another)] answers [True], so does the loop.  [keep]
    tells whether [another] is written: [another is not None] for a
    phrase, [bool(another)] for a coordination.  Returns the answer and
    the list as the loop leaves it; [None] has no method [replace]. *)
Fixpoint replace_in (keep : Element -> bool)
    (rec : Element -> Py (bool * Element)) (one another : Element)
    (l : list Element) : Py (bool * list Element) :=
  match l with
  | [] => mret (false, [])
  | o :: t =>
      if py_eq o one
      then mret (true, if keep another then another :: t else t)
      else if is_none o then raise AttributeError
      else
        '(found, o') ← rec o;
        if found : bool then mret (true, o' :: t)
        else
          '(found', t') ← replace_in keep rec one another t;
          mret (found', o' :: t')
  end.

(** [x.replace(one, another)] for what sits in a slot for one element,
    under the guard [x is not None]. *)
Definition replace_below (rec : Element -> Py (bool * Element))
    (x : Element) : Py (bool * Element) :=
  if is_none x then mret (false, x) else rec x.

(** The branch of [Phrase.replace] for [self.head == one]: the features
    that came from the head are deleted; a phrase of the same type gives
    its specifier, modifiers, head and complements to [self], anything
    else becomes the head; then the features of [another] are added.
    [None] has no features, neither as the head nor as [another].  (For a
    phrase that is no noun phrase [spec] is no slot, and what the code may
    assign to it is left out.  An exception returns no object: when
    [another.features] raises for [None], the call has deleted the shared
    features and put [None] in the place of the head, which the result
    does not show.) *)
Definition replace_matched_head (another : Element)
    (mk : Meta -> Element -> list Element -> list Element -> Element ->
          list Element -> list Element -> Element)
    (self_type : Z) (is_np : bool)
    (m : Meta) (s : Element) (fr pr : list Element) (h : Element)
    (cm po : list Element) : Py Element :=
  if is_none h then raise AttributeError
  else
    let m1 := set_features (features m ∖ features_of h) m in
    let update m' := set_features (features_of another ∪ features m') m' in
    if opt_Z_eq (Some self_type) (_type another) then
      let s' := if is_np then spec_of another else s in
      fr' ← add_to_list (oid m) fr (front_modifiers_of another) (Some 0%nat);
      pr' ← add_to_list (oid m) pr (pre_modifiers_of another) (Some 0%nat);
      cm' ← add_to_list (oid m) cm (complements_of another) None;
      po' ← add_to_list (oid m) po (post_modifiers_of another) None;
      mret (mk (update m1) s' fr' pr' (head_of another) cm' po')
    else if is_none another then raise AttributeError
    else mret (mk (update m1) s fr pr another cm po).

(** [Phrase.replace], on the slots of [self]: the front modifiers, the
    pre-modifiers, the head, the complements and the post-modifiers, each
    list from its first member on. *)
Definition Phrase_replace (rec : Element -> Py (bool * Element))
    (one another : Element)
    (mk : Meta -> Element -> list Element -> list Element -> Element ->
          list Element -> list Element -> Element)
    (self_type : Z) (is_np : bool)
    (m : Meta) (s : Element) (fr pr : list Element) (h : Element)
    (cm po : list Element) : Py (bool * Element) :=
  let in_list := replace_in (fun a => negb (is_none a)) rec one another in
  '(found, fr') ← in_list fr;
  if found : bool then mret (true, mk m s fr' pr h cm po)
  else
    '(found, pr') ← in_list pr;
    if found : bool then mret (true, mk m s fr' pr' h cm po)
    else if py_eq h one then
      self' ← replace_matched_head another mk self_type is_np
                m s fr' pr' h cm po;
      mret (true, self')
    else
      '(found, h') ← replace_below rec h;
      if found : bool then mret (true, mk m s fr' pr' h' cm po)
      else
        '(found, cm') ← in_list cm;
        if found : bool then mret (true, mk m s fr' pr' h' cm' po)
        else
          '(found, po') ← in_list po;
          mret (found, mk m s fr' pr' h' cm' po').

(** [self.replace(one, another)], by the class of [self]: the answer and
    [self] as the call leaves it.  [Element.replace], which [String],
    [Word] and [Var] inherit, does nothing; [Clause.replace] ends in it
    after the subject and the predicate. *)
Fixpoint replace (self one another : Element) {struct self}
  : Py (bool * Element) :=
  let rec := fun o => replace o one another in
  match self with
  | PyNone => raise AttributeError
  | EElement _ | EString _ _ | EWord _ _ _ _ | EVar _ _ =>
      mret (false, self)
  | ECoordination m cs cj pr cm po =>
      '(found, cs') ← replace_in py_bool rec one another cs;
      mret (found, ECoordination m cs' cj pr cm po)
  | EPhrase c m fr pr h cm po =>
      Phrase_replace rec one another
        (fun m _ fr pr h cm po => EPhrase c m fr pr h cm po)
        (phrase_type c) false m PyNone fr pr h cm po
  | ENounPhrase m s fr pr h cm po =>
      if py_eq s one
      then mret (true, ENounPhrase m another fr pr h cm po)
      else
        '(found, s') ← replace_below rec s;
        if found : bool then mret (true, ENounPhrase m s' fr pr h cm po)
        else
          Phrase_replace rec one another ENounPhrase NOUN_PHRASE true
            m s' fr pr h cm po
  | EClause m fr pr subj vp cm po =>
      if py_eq subj one then
        s ← raise_to_np another;
        s' ← assign_parent (oid m) s;
        mret (true, EClause m fr pr s' vp cm po)
      else
        '(found, subj') ← replace_below rec subj;
        if found : bool then mret (true, EClause m fr pr subj' vp cm po)
        else if py_eq vp one then
          v ← raise_to_vp another;
          v' ← assign_parent (oid m) v;
          mret (true, EClause m fr pr subj' v' cm po)
        else
          '(found, vp') ← replace_below rec vp;
          mret (found, EClause m fr pr subj' vp' cm po)
  end.

(** [o.replace(one, another)] finds nothing in [o], which is not [None]
    and does not equal [one]. *)
Definition silent (one another : Element) (o : Element) : Prop :=
  py_eq o one = false /\ is_none o = false
  /\ forall n, replace o one another n = (Ok (false, o), n).

(** The same for what sits in a slot for one element, which may be
    [None]. *)
Definition silent_below (one another : Element) (x : Element) : Prop :=
  py_eq x one = false
  /\ (is_none x = false ->
      forall n, replace x one another n = (Ok (false, x), n)).

(** The list [l'] is [l] with its first member that equals [one]
    overwritten with [another], or deleted when [another] is [None], the
    search finding nothing in the members before it. *)
Definition spliced_at_first (one another : Element) (l l' : list Element)
  : Prop :=
  exists l1 b l2,
    l = l1 ++ b :: l2 /\ py_eq b one = true
    /\ Forall (silent one another) l1
    /\ l' = l1 ++ put_or_delete another l2.

(** What [self.replace(one, another)] answers for a [Phrase] of any of
    the five classes, slot after slot: the front modifiers, from the first
    one; when the search finds nothing there, the pre-modifiers, from the
    first one; then the head, which is compared and then searched; then
    the complements and the post-modifiers.  [res] is the result of the
    call at the counter [n]. *)
Definition scans_slots_forward (one another : Element) (c : PhraseClass)
    (m : Meta) (fr pr : list Element) (h : Element) (cm po : list Element)
    (n : nat) (res : Res (bool * Element) * nat) : Prop :=
  let quiet := Forall (silent one another) in
  (forall fr', spliced_at_first one another fr fr' ->
     res = (Ok (true, EPhrase c m fr' pr h cm po), n))
  /\ (quiet fr ->
      forall pr', spliced_at_first one another pr pr' ->
        res = (Ok (true, EPhrase c m fr pr' h cm po), n))
  /\ (quiet fr -> quiet pr -> silent_below one another h ->
      forall cm', spliced_at_first one another cm cm' ->
        res = (Ok (true, EPhrase c m fr pr h cm' po), n))
  /\ (quiet fr -> quiet pr -> silent_below one another h -> quiet cm ->
      forall po', spliced_at_first one another po po' ->
        res = (Ok (true, EPhrase c m fr pr h cm po'), n))
  /\ (quiet fr -> quiet pr -> silent_below one another h -> quiet cm ->
      quiet po ->
      res = (Ok (false, EPhrase c m fr pr h cm po), n)).

(** The same for a [NounPhrase], whose method [replace] looks at the
    specifier first: a specifier that equals [one] is overwritten with
    [another]; when the search finds nothing in the specifier, the slots
    of the phrase follow as above. *)
Definition scans_noun_phrase_forward (one another : Element)
    (m : Meta) (s : Element) (fr pr : list Element) (h : Element)
    (cm po : list Element) (n : nat) (res : Res (bool * Element) * nat)
  : Prop :=
  let quiet := Forall (silent one another) in
  (py_eq s one = true ->
   res = (Ok (true, ENounPhrase m another fr pr h cm po), n))
  /\ (silent_below one another s ->
      (forall fr', spliced_at_first one another fr fr' ->
         res = (Ok (true, ENounPhrase m s fr' pr h cm po), n))
      /\ (quiet fr ->
          forall pr', spliced_at_first one another pr pr' ->
            res = (Ok (true, ENounPhrase m s fr pr' h cm po), n))
      /\ (quiet fr -> quiet pr -> silent_below one another h ->
          forall cm', spliced_at_first one another cm cm' ->
            res = (Ok (true, ENounPhrase m s fr pr h cm' po), n))
      /\ (quiet fr -> quiet pr -> silent_below one another h -> quiet cm ->
          forall po', spliced_at_first one another po po' ->
            res = (Ok (true, ENounPhrase m s fr pr h cm po'), n))
      /\ (quiet fr -> quiet pr -> silent_below one another h -> quiet cm ->
          quiet po ->
          res = (Ok (false, ENounPhrase m s fr pr h cm po), n))).

(** What [self.replace(one, another)] answers for a phrase of any class,
    [res] being the result of the call at the counter [n]. *)
Definition scans_forward (one another self : Element) (n : nat)
    (res : Res (bool * Element) * nat) : Prop :=
  match self with
  | EPhrase c m fr pr h cm po =>
      scans_slots_forward one another c m fr pr h cm po n res
  | ENounPhrase m s fr pr h cm po =>
      scans_noun_phrase_forward one another m s fr pr h cm po n res
  | _ => True
  end.

(** "big big red": [AdjectivePhrase(Word('red', 'ADJECTIVE'))] to which
    [add_pre_modifier(Word('big', 'ADJECTIVE'))] is applied twice, with
    two words that are equal, [first] before [second]. *)
Definition big_big_red_py : Py (Element * Element * Element) :=
  red ← new_Word "red" "ADJECTIVE" ∅ None None;
  adjp ← new_HeadPhrase AdjectivePhrase red ∅ None;
  first ← new_Word "big" "ADJECTIVE" ∅ None None;
  adjp1 ← Phrase_add_pre_modifier adjp [first];
  second ← new_Word "big" "ADJECTIVE" ∅ None None;
  adjp2 ← Phrase_add_pre_modifier adjp1 [second];
  mret (adjp2, first, second).

Definition big_big_red : Element :=
  match run big_big_red_py with
  | Some (e, _, _) => e
  | None => PyNone
  end.

(** The word attached second to [big_big_red]. *)
Definition second_big_of_red : Element :=
  match run big_big_red_py with
  | Some (_, _, w) => w
  | None => PyNone
  end.

(** ** Modifier lists (structures.py) *)

(** [lst.remove(p)] under the guard [p in lst]: the first member that is
    [p] or equals it goes; nothing happens when there is none. *)
Fixpoint list_remove (p : Element) (lst : list Element) : list Element :=
  match lst with
  | [] => []
  | o :: t =>
      if (py_id o =? py_id p)%nat || py_eq o p then t
      else o :: list_remove p t
  end.

(** [Element._del_from_list(lst, *mods)]. *)
Definition del_from_list (lst mods : list Element) : list Element :=
  foldl (fun l p => list_remove p l) lst mods.

(** [Phrase.del_front_modifier], [Phrase.del_pre_modifier],
    [Phrase.del_complement] and [Phrase.del_post_modifier], which the
    other phrase classes inherit. *)
Definition Phrase_del_front_modifier (e : Element) (mods : list Element)
  : Element :=
  match e with
  | EPhrase c m fr pr h cm po =>
      EPhrase c m (del_from_list fr mods) pr h cm po
  | ENounPhrase m s fr pr h cm po =>
      ENounPhrase m s (del_from_list fr mods) pr h cm po
  | _ => e
  end.

Definition Phrase_del_pre_modifier (e : Element) (mods : list Element)
  : Element :=
  match e with
  | EPhrase c m fr pr h cm po =>
      EPhrase c m fr (del_from_list pr mods) h cm po
  | ENounPhrase m s fr pr h cm po =>
      ENounPhrase m s fr (del_from_list pr mods) h cm po
  | _ => e
  end.

Definition Phrase_del_complement (e : Element) (mods : list Element)
  : Element :=
  match e with
  | EPhrase c m fr pr h cm po =>
      EPhrase c m fr pr h (del_from_list cm mods) po
  | ENounPhrase m s fr pr h cm po =>
      ENounPhrase m s fr pr h (del_from_list cm mods) po
  | _ => e
  end.

Definition Phrase_del_post_modifier (e : Element) (mods : list Element)
  : Element :=
  match e with
  | EPhrase c m fr pr h cm po =>
      EPhrase c m fr pr h cm (del_from_list po mods)
  | ENounPhrase m s fr pr h cm po =>
      ENounPhrase m s fr pr h cm (del_from_list po mods)
  | _ => e
  end.

(** A phrase: an object of class [Phrase] or of one of its subclasses. *)
Definition is_phrase (e : Element) : bool :=
  is_plain_phrase e || is_noun_phrase e.

(** The object [x] with [p] for its parent. *)
Definition child_of (p : nat) (x : Element) : Element :=
  with_meta (set_parent (Some p)) x.

(** [x] is [p], or equals it. *)
Definition same_or_equal (p x : Element) : bool :=
  (py_id x =? py_id p)%nat || py_eq x p.

(** ** Raising to phrases (structures.py) *)

(** Neither a [String] nor a [Word], nor a coordination of any. *)
Fixpoint is_raised (e : Element) : bool :=
  match e with
  | EString _ _ | EWord _ _ _ _ => false
  | ECoordination _ cs _ _ _ _ => forallb is_raised cs
  | _ => true
  end.

(** ** Determiners (reg.py) *)

(** The property [string]: the value of a [String], the word of a [Word],
    the string of the value of a [Var] that has one, the string of the
    first coordinate of a [Coordination], and [None] for the other
    classes. *)
Fixpoint string_of (e : Element) : Res (option string) :=
  match e with
  | PyNone => Raise AttributeError
  | EString _ v => Ok (Some v)
  | EWord _ w _ _ => Ok (Some w)
  | EVar _ v => if py_bool v then string_of v else Ok None
  | ECoordination _ cs _ _ _ _ =>
      match cs with
      | [] => Raise IndexError
      | c :: _ => string_of c
      end
  | _ => Ok None
  end.

(** [c in "aeiouy"] for a character [c]. *)
Definition is_vowel (c : ascii) : bool :=
  existsb (Ascii.eqb c) (list_ascii_of_string "aeiouy").

(** [s and s[0] in "aeiouy"] for [s = phrase.head.string]. *)
Definition starts_with_vowel (s : option string) : bool :=
  match s with
  | Some (String c _) => is_vowel c
  | _ => false
  end.

(** [x in l[-1:]]: the last member of [l] is [x] or equals it. *)
Definition is_last_of (l : list Element) (x : Element) : bool :=
  match last l with
  | Some y => (py_id y =? py_id x)%nat || py_eq y x
  | None => false
  end.

Section Lexicon.

(** Modelled from the spec: the phrase-number guess of the lexicon
    collaborator, as the test
    [lexicon.guess_phrase_number(phrase) == Number.plural]; the module
    [lexicon] is absent. *)
Variable guessed_plural : Element -> Res bool.

(** [optimise_determiner(phrase, np_phrases)]: the phrase as the call
    leaves it, which is what it returns.  The distractors are the members
    of [np_phrases] with a head equal to that of the phrase.  (A member
    without a slot [head] can count as one only for a phrase whose head is
    [None], through the feature fallback of [__getattr__]; for such a
    phrase the list is not looked at.)  The calls of the logger, which
    format the phrases for the log, are not part of the model, here as in
    [generate_ref_exp]. *)
Definition optimise_determiner (phrase : Element) (np_phrases : list Element)
  : Py Element :=
  match phrase with
  | ENounPhrase m s fr pr h cm po =>
      let distractors :=
        List.filter (fun x => is_phrase x && py_eq h (head_of x))
          np_phrases in
      if has_feature "PROPER" "true" phrase
         || has_feature "cat" "PRONOUN" phrase then
        if py_bool s then mret phrase
        else e ← new_Element ∅ None; mret (assign_spec e phrase)
      else if is_none h then raise AttributeError
      else if negb (has_feature "cat" "PRONOUN" h)
              && is_last_of distractors phrase
              && (List.length distractors =? 1)%nat then
        the ← new_Word "the" "DETERMINER" ∅ None None;
        mret (assign_spec the phrase)
      else
        plural ← lift (guessed_plural phrase);
        if negb plural && negb (has_feature "cat" "PRONOUN" h) then
          str ← lift (string_of h);
          a ← new_Word (if starts_with_vowel str then "an" else "a")
                "DETERMINER" ∅ None None;
          mret (assign_spec a phrase)
        else mret phrase
  | _ => mret phrase
  end.

End Lexicon.

(** The distractors of a noun phrase among [np_phrases]. *)
Definition distractors_of (phrase : Element) (np_phrases : list Element)
  : list Element :=
  List.filter (fun x => is_phrase x && py_eq (head_of phrase) (head_of x))
    np_phrases.

(** The phrase is the only distractor and the last one. *)
Definition sole_distractor (phrase : Element) (np_phrases : list Element)
  : bool :=
  is_last_of (distractors_of phrase np_phrases) phrase
  && (List.length (distractors_of phrase np_phrases) =? 1)%nat.

(** The phrase is a proper name or a pronoun by its features. *)
Definition proper_or_pronoun (phrase : Element) : bool :=
  has_feature "PROPER" "true" phrase || has_feature "cat" "PRONOUN" phrase.

(** [NounPhrase(Word('apple', 'NOUN'))]. *)
Definition apple : Element :=
  default PyNone
    (run (noun ← new_Word "apple" "NOUN" ∅ None None;
          new_NounPhrase noun PyNone ∅ None)).

(** ** Modifiers of a coordination (structures.py) *)

(** [is_phrase_t(o)].  The set the type tag is looked up in holds the tags
    [PHRASE], [ADJECTIVE_PHRASE] and [ADVERB_PHRASE] and, in place of
    three more tags, the classes [NounPhrase], [VerbPhrase] and
    [PrepositionalPhrase], which no tag equals. *)
Fixpoint is_phrase_t (o : Element) : bool :=
  match o with
  | EPhrase c _ _ _ _ _ _ =>
      match c with
      | Phrase | AdjectivePhrase | AdverbPhrase => true
      | VerbPhrase | PrepositionalPhrase => false
      end
  | ECoordination _ cs _ _ _ _ =>
      match cs with
      | [] => true
      | c :: _ => is_phrase_t c
      end
  | _ => false
  end.

(** [Coordination.add_pre_modifier]: the first coordinate, turned
    into the head of a new [NounPhrase] unless [is_phrase_t] holds for it,
    gets the modifiers, by the method of its class.  Without coordinates
    [self.coords[0]] raises [IndexError]. *)
Fixpoint Coordination_add_pre_modifier (self : Element)
    (mods : list Element) : Py Element :=
  match self with
  | ECoordination m cs cj pr cm po =>
      match cs with
      | [] => raise IndexError
      | c :: t =>
          c' ← (if is_phrase_t c then
                  match c with
                  | ECoordination _ _ _ _ _ _ =>
                      Coordination_add_pre_modifier c mods
                  | _ => Phrase_add_pre_modifier c mods
                  end
                else
                  np ← new_NounPhrase c PyNone ∅ None;
                  Phrase_add_pre_modifier np mods);
          mret (ECoordination m (c' :: t) cj pr cm po)
      end
  | _ => mret self
  end.

(** [Coordination(np1, np2)] for two noun phrases, "Mary" and "John", the
    word [Word('old', 'ADJECTIVE')], and the counter after them. *)
Definition mary_and_john_py : Py (Element * Element) :=
  m ← new_Word "Mary" "NOUN" ∅ None None;
  np1 ← new_NounPhrase m PyNone ∅ None;
  j ← new_Word "John" "NOUN" ∅ None None;
  np2 ← new_NounPhrase j PyNone ∅ None;
  cc ← new_Coordination [np1; np2] "and" ∅ None;
  old ← new_Word "old" "ADJECTIVE" ∅ None None;
  mret (cc, old).

Definition mary_and_john : Element :=
  match run mary_and_john_py with
  | Some (cc, _) => cc
  | None => PyNone
  end.

Definition old : Element :=
  match run mary_and_john_py with
  | Some (_, w) => w
  | None => PyNone
  end.

(** [e.coords]. *)
Definition coords_of (e : Element) : list Element :=
  match e with
  | ECoordination _ cs _ _ _ _ => cs
  | _ => []
  end.

(** ** Arguments that may be a [str] (structures.py) *)

(** What a caller passes where an element is expected: a [str], or an
    object, which is an element or [None]. *)
Inductive PyArg :=
| AStr (s : string)
| AElt (e : Element).

(** [String(x) if isinstance(x, str) else x]: a [str] becomes a new
    [String]. *)
Definition promote (x : PyArg) : Py Element :=
  match x with
  | AStr s => new_String s ∅ None
  | AElt e => mret e
  end.

(** [str_to_elt], on the list of its parameters. *)
Definition str_to_elt (params : list PyArg) : Py (list Element) :=
  mapM promote params.

(** The [str]s among the arguments. *)
Definition strs (l : list PyArg) : nat :=
  List.length (List.filter (fun a => match a with AStr _ => true
                                             | AElt _ => false end) l).

(** [x] is what [promote] makes of the argument [a]: the object passed,
    or a new [String] of the value passed, without features and without
    parent. *)
Definition promoted (a : PyArg) (x : Element) : Prop :=
  match a with
  | AStr s => exists i, x = EString (mkMeta i (IdInt 0) ∅ (-1) None) s
  | AElt e => x = e
  end.

(** [Phrase.add_front_modifier], [Phrase.add_pre_modifier],
    [Phrase.add_complement] and [Phrase.add_post_modifier] as they are
    called, on the list of the modifiers: the modifiers go through
    [str_to_elt], and what comes out goes to [_add_to_list]. *)
Definition Phrase_add_front_modifier_args (self : Element)
    (mods : list PyArg) : Py Element :=
  ms ← str_to_elt mods; Phrase_add_front_modifier self ms.

Definition Phrase_add_pre_modifier_args (self : Element)
    (mods : list PyArg) : Py Element :=
  ms ← str_to_elt mods; Phrase_add_pre_modifier self ms.

Definition Phrase_add_complement_args (self : Element)
    (mods : list PyArg) : Py Element :=
  ms ← str_to_elt mods; Phrase_add_complement self ms.

Definition Phrase_add_post_modifier_args (self : Element)
    (mods : list PyArg) : Py Element :=
  ms ← str_to_elt mods; Phrase_add_post_modifier self ms.

(** [Phrase.set_head(elt)] for an argument that may be a [str]:
    [None] becomes a new [Element], a [str] a new [String]. *)
Definition set_head_args (m : Meta) (elt : PyArg) : Py (Meta * Element) :=
  e ← promote elt; set_head m e.

(** [NounPhrase(head, spec, features=features, parent=parent)] for
    arguments that may be [str]s: [set_spec] comes before [set_head]. *)
Definition new_NounPhrase_args (head spec : PyArg)
    (feats : gmap string string) (par : option nat) : Py Element :=
  '(m, _) ← Phrase_init feats par;
  s0 ← promote spec;
  s ← (if is_none s0 then new_Element ∅ None else mret s0);
  '(m', h) ← set_head_args m head;
  mret (ENounPhrase m' s [] [] h [] []).

(** [VerbPhrase(head, features=features, parent=parent)] and the like for
    the other classes with a head. *)
Definition new_HeadPhrase_args (c : PhraseClass) (head : PyArg)
    (feats : gmap string string) (par : option nat) : Py Element :=
  '(m, _) ← Phrase_init feats par;
  '(m', h) ← set_head_args m head;
  mret (EPhrase c m' [] [] h [] []).

(** What [set_subj(raise_to_np(subj))] takes for the subject, and
    [set_vp(raise_to_vp(vp))] for the predicate.  [raise_to_np] and
    [raise_to_vp] return a [str] as it is, and [set_subj] and [set_vp]
    make a [String] of it, whatever its truth value; a subject that is no
    [str] and is false as a truth value gives way to a new [Element]. *)
Definition Clause_subject (subj : PyArg) : Py Element :=
  match subj with
  | AStr x => new_String x ∅ None
  | AElt e =>
      np ← raise_to_np e;
      if py_bool np then mret np else new_Element ∅ None
  end.

Definition Clause_predicate (vp : PyArg) : Py Element :=
  match vp with
  | AStr x => new_String x ∅ None
  | AElt e => raise_to_vp e
  end.

(** [Clause(subj, vp, features=features, parent=parent)] for arguments
    that may be [str]s. *)
Definition new_Clause_args (subj vp : PyArg) (feats : gmap string string)
    (par : option nat) : Py Element :=
  m ← new_meta feats par;
  s ← Clause_subject subj;
  s' ← assign_parent (oid m) s;
  v ← Clause_predicate vp;
  v' ← assign_parent (oid m) v;
  mret (EClause m [] [] s' v' [] []).

(** The argument is [None]. *)
Definition is_none_arg (a : PyArg) : bool :=
  match a with
  | AStr _ => false
  | AElt e => is_none e
  end.

(** The subject of a clause built from [subj]: a [String] of the value
    for a [str]; else what [raise_to_np] returns at the counter [k], or a
    bare [Element] created at the counter it leaves when that is false as
    a truth value. *)
Definition subject_from (subj : PyArg) (k : nat) (s : Element) : Prop :=
  match subj with
  | AStr x => s = EString (mkMeta k (IdInt 0) ∅ (-1) None) x
  | AElt e =>
      is_raised s = true
      /\ forall np k', raise_to_np e k = (Ok np, k') ->
           s = if py_bool np then np
               else EElement (mkMeta k' (IdInt 0) ∅ (-1) None)
  end.

(** The predicate of a clause built from [vp]: a [String] of the value for
    a [str]; else what [raise_to_vp] returns. *)
Definition predicate_from (vp : PyArg) (v : Element) : Prop :=
  match vp with
  | AStr x => exists i, v = EString (mkMeta i (IdInt 0) ∅ (-1) None) x
  | AElt e =>
      is_raised v = true /\ exists k k', raise_to_vp e k = (Ok v, k')
  end.

(** The head of a phrase built from [head] with the features [feats],
    and the features of the phrase: a [str] gives a new [String] of that
    value, [None] a new bare [Element], and the phrase has the features
    passed; an element is the head itself, and its features come before
    the ones passed.  The head has the phrase, [n], for its parent. *)
Definition head_from (head : PyArg) (feats : gmap string string) (n : nat)
    (p : Element) : Prop :=
  match head with
  | AStr x =>
      (exists i, head_of p = EString (mkMeta i (IdInt 0) ∅ (-1) (Some n)) x)
      /\ features_of p = feats
  | AElt e =>
      if is_none e
      then (exists i, head_of p = EElement (mkMeta i (IdInt 0) ∅ (-1) (Some n)))
           /\ features_of p = feats
      else head_of p = child_of n e
           /\ forall k, features_of p !! k
                        = match features_of e !! k with
                          | Some v => Some v
                          | None => feats !! k
                          end
  end.

(** * Properties *)

(** ** Hashing *)

Section HashingFacts.

Variable hash_str : string -> Z.
Variable hash_tuple : list Z -> Z.
Variable hash_none : Z.

Let hash_of := py_hash hash_str hash_tuple hash_none.

(** [Element], [String] and [Word] always hash. *)
Lemma py_hash_Element m : is_ok (hash_of (EElement m)).2 = true.
Proof. simpl. unfold Element_hash. by destruct (hash m =? -1). Qed.

Lemma py_hash_String m v : is_ok (hash_of (EString m v)).2 = true.
Proof. simpl. unfold Element_hash. by destruct (hash m =? -1). Qed.

Lemma py_hash_Word m w p b : is_ok (hash_of (EWord m w p b)).2 = true.
Proof. simpl. unfold Element_hash. by destruct (hash m =? -1). Qed.

(** A [Var] hashes when its cache is filled or its value hashes. *)
Lemma py_hash_Var m v :
  is_ok (hash_of (EVar m v)).2 = true <->
  hash m <> -1 \/ is_ok (hash_of v).2 = true.
Proof.
  simpl. unfold Element_hash.
  destruct (Z.eqb_spec (hash m) (-1)) as [E|E]; simpl.
  - destruct (hash_of v) as [v' [hv|x]]; simpl; intuition congruence.
  - intuition.
Qed.

(** C8: hashing a [Coordination] fails with the assertion error of
    [Coordination.__hash__], whatever its coordinates, conjunction,
    features and other attributes are, and leaves the object as it is. *)
Theorem Coordination_hash_fails m coords conj pre compl post :
  hash_of (ECoordination m coords conj pre compl post)
  = (ECoordination m coords conj pre compl post, Raise AssertionError).
Proof. reflexivity. Qed.

(** C10: hashing fails for every composite element: a [Phrase] of any of
    the five phrase classes asserts, a [NounPhrase] and a [Clause] are
    unhashable; an element whose hash is computed is an [Element],
    [String], [Word] or [Var], and the first three always hash. *)
Theorem composite_hash_fails :
  (forall c m fr pr h cm po,
      (hash_of (EPhrase c m fr pr h cm po)).2 = Raise AssertionError)
  /\ (forall m s fr pr h cm po,
      (hash_of (ENounPhrase m s fr pr h cm po)).2 = Raise TypeError)
  /\ (forall m fr pr s v cm po,
      (hash_of (EClause m fr pr s v cm po)).2 = Raise TypeError)
  /\ (forall m cs cj pr cm po,
      (hash_of (ECoordination m cs cj pr cm po)).2 = Raise AssertionError)
  /\ (forall e, is_none e = false ->
      is_ok (hash_of e).2 = true -> is_leaf e = true)
  /\ (forall m, is_ok (hash_of (EElement m)).2 = true)
  /\ (forall m v, is_ok (hash_of (EString m v)).2 = true)
  /\ (forall m w p b, is_ok (hash_of (EWord m w p b)).2 = true).
Proof.
  repeat split; try reflexivity;
    auto using py_hash_Element, py_hash_String, py_hash_Word.
  intros e Hn Hok. destruct e; simpl in *; congruence.
Qed.

End HashingFacts.

(** ** First occurrences *)

Section FirstOccurrences.

Implicit Types (s l : list nat).

Lemma first_occurrences_seen s s' l :
  (forall x, x ∈ s <-> x ∈ s') ->
  first_occurrences s l = first_occurrences s' l.
Proof.
  revert s s'. induction l as [|x t IH]; intros s s' Hs; simpl; [done|].
  rewrite (bool_decide_ext (x ∈ s) (x ∈ s')) by apply Hs.
  case_bool_decide.
  - by apply IH.
  - f_equal. apply IH. intros y. rewrite !elem_of_cons. by rewrite Hs.
Qed.

Lemma first_occurrences_app s l1 l2 :
  first_occurrences s (l1 ++ l2)
  = first_occurrences s l1 ++ first_occurrences (l1 ++ s) l2.
Proof.
  revert s. induction l1 as [|x t IH]; intros s; simpl; [done|].
  case_bool_decide as Hx.
  - rewrite IH. f_equal. apply first_occurrences_seen.
    intros y. set_solver.
  - rewrite IH. simpl. do 2 f_equal. apply first_occurrences_seen.
    intros y. set_solver.
Qed.

Lemma first_occurrences_all_seen s l :
  (forall x, x ∈ l -> x ∈ s) -> first_occurrences s l = [].
Proof.
  induction l as [|x t IH]; intros H; simpl; [done|].
  rewrite bool_decide_true by (apply H; left).
  apply IH. intros y Hy. apply H. by right.
Qed.

Lemma first_occurrences_elem s l x :
  x ∈ first_occurrences s l <-> x ∈ l /\ x ∉ s.
Proof.
  revert s. induction l as [|y t IH]; intros s; simpl.
  - rewrite elem_of_nil. tauto.
  - case_bool_decide as Hy.
    + rewrite IH. set_solver.
    + rewrite elem_of_cons, IH.
      destruct (decide (x = y)) as [->|]; set_solver.
Qed.

Lemma same_first_occurrences_refl l : same_first_occurrences l l.
Proof. by intros s. Qed.

Lemma same_first_occurrences_elem l l' x :
  same_first_occurrences l l' -> x ∈ l <-> x ∈ l'.
Proof.
  intros H. pose proof (first_occurrences_elem [] l x) as H1.
  pose proof (first_occurrences_elem [] l' x) as H2.
  rewrite (H []) in H1. rewrite H1 in H2.
  pose proof (not_elem_of_nil x). tauto.
Qed.

Lemma same_first_occurrences_app a a' b b' :
  same_first_occurrences a a' -> same_first_occurrences b b' ->
  same_first_occurrences (a ++ b) (a' ++ b').
Proof.
  intros Ha Hb s. rewrite !first_occurrences_app, Ha, Hb. f_equal.
  apply first_occurrences_seen. intros x. rewrite !elem_of_app.
  by rewrite (same_first_occurrences_elem a a' x Ha).
Qed.

Lemma same_first_occurrences_cons x a a' :
  same_first_occurrences a a' ->
  same_first_occurrences (x :: a) (x :: a').
Proof.
  intros. apply (same_first_occurrences_app [x] [x]); [|done].
  apply same_first_occurrences_refl.
Qed.

(** Repeating what the sequence already holds adds no first occurrence. *)
Lemma same_first_occurrences_repeat l l' :
  (forall x, x ∈ l' -> x ∈ l) -> same_first_occurrences (l ++ l') l.
Proof.
  intros H s. rewrite first_occurrences_app.
  rewrite (first_occurrences_all_seen (l ++ s) l'), app_nil_r; [done|].
  intros x Hx. apply elem_of_app. left. by apply H.
Qed.

Lemma same_first_occurrences_trans a b c :
  same_first_occurrences a b -> same_first_occurrences b c ->
  same_first_occurrences a c.
Proof. intros H1 H2 s. by rewrite H1. Qed.

Lemma first_occurrences_NoDup l :
  NoDup l -> first_occurrences [] l = l.
Proof.
  intros H. assert (G : forall s, (forall x, x ∈ l -> x ∉ s) ->
                                  first_occurrences s l = l).
  { induction H as [|x t Hx Ht IH]; intros s Hs; simpl; [done|].
    rewrite bool_decide_false by (apply Hs; left).
    f_equal. apply IH. intros y Hy. rewrite elem_of_cons.
    intros [->|?]; [done|]. eapply Hs; [by right|done]. }
  apply G. intros x _. apply not_elem_of_nil.
Qed.

End FirstOccurrences.


(** ** Traversal *)

Lemma elem_of_flat_map {A B} (f : A -> list B) (l : list A) (y : B) :
  y ∈ flat_map f l <-> exists x, x ∈ l /\ y ∈ f x.
Proof.
  rewrite list_elem_of_In, in_flat_map.
  split; intros (x & H1 & H2); exists x; by rewrite ?list_elem_of_In in *.
Qed.

Lemma elem_of_map {A B} (f : A -> B) (l : list A) (y : B) :
  y ∈ map f l <-> exists x, x ∈ l /\ y = f x.
Proof.
  rewrite list_elem_of_In, in_map_iff.
  split; intros (x & H1 & H2); exists x; by rewrite ?list_elem_of_In in *.
Qed.

Lemma list_max_ge (l : list nat) (x : nat) : x ∈ l -> (x <= list_max l)%nat.
Proof.
  induction l as [|y t IH]; [by intros ?%elem_of_nil|].
  intros [->|H]%elem_of_cons; simpl; [lia|]. specialize (IH H). lia.
Qed.

Lemma forallb_elem_of {A} (f : A -> bool) (l : list A) (x : A) :
  forallb f l = true -> x ∈ l -> f x = true.
Proof. rewrite forallb_forall, list_elem_of_In. auto. Qed.

Lemma height_children e o : o ∈ children e -> (height o < height e)%nat.
Proof.
  destruct e; cbn [children height]; try by intros ?%elem_of_nil.
  all: intros H; apply Nat.lt_succ_r, list_max_ge.
  all: repeat (rewrite ?elem_of_app, ?elem_of_cons, ?elem_of_nil in H);
       rewrite ?elem_of_cons, ?elem_of_app, ?elem_of_map.
  all: intuition (subst; eauto 8).
Qed.

Lemma no_none_children e o :
  no_none e = true -> o ∈ children e -> is_none o = true \/ no_none o = true.
Proof.
  destruct e; simpl; try by intros _ ?%elem_of_nil.
  all: intros Hn H;
    repeat (rewrite ?elem_of_app, ?elem_of_cons, ?elem_of_nil in H);
    repeat (apply andb_prop in Hn as [Hn ?]);
    repeat match goal with
           | G : _ || _ = true |- _ => apply orb_prop in G
           end.
  all: intuition (subst; eauto using forallb_elem_of).
Qed.

Lemma preorder_children e :
  preorder e = match e with
               | PyNone | EElement _ => []
               | _ => e :: flat_map preorder (children e)
               end.
Proof.
  destruct e; cbn [preorder children]; try done;
    repeat (rewrite ?flat_map_app; cbn [flat_map app]);
    rewrite ?app_nil_r, <- ?app_assoc; done.
Qed.

Lemma preorder_self e x : x ∈ preorder e -> x ∈ preorder x.
Proof.
  remember (height e) as n eqn:Hn. revert e x Hn.
  induction (lt_wf n) as [n _ IH]; intros e x -> Hx.
  rewrite preorder_children in Hx. destruct e;
    try (by apply elem_of_nil in Hx);
    apply elem_of_cons in Hx as [->|Hx];
    try (rewrite preorder_children; by left);
    apply elem_of_flat_map in Hx as (o & Ho & Hx);
    eapply (IH (height o)); eauto using height_children.
Qed.

(** What the traversal reaches from a constituent it reaches from the
    element, and no constituent is higher than the element. *)
Lemma preorder_closed e x :
  x ∈ preorder e ->
  (height x <= height e)%nat
  /\ (no_none e = true -> no_none x = true)
  /\ (forall y, y ∈ preorder x -> y ∈ preorder e).
Proof.
  remember (height e) as n eqn:Hn. revert e x Hn.
  induction (lt_wf n) as [n _ IH]; intros e x -> Hx.
  pose proof (preorder_children e) as He.
  destruct e; rewrite He in Hx;
    try (by apply elem_of_nil in Hx);
    apply elem_of_cons in Hx as [->|Hx]; try done;
    apply elem_of_flat_map in Hx as (o & Ho & Hx);
    pose proof (height_children _ _ Ho) as Hlt;
    destruct (IH (height o) Hlt o x eq_refl Hx) as (H1 & H2 & H3);
    (split; [lia|split]);
    try (intros Hnn; destruct (no_none_children _ _ Hnn Ho) as [Hz|Hz];
         [destruct o; try discriminate; by apply elem_of_nil in Hx
         |by apply H2]);
    intros y Hy; rewrite He; right; apply elem_of_flat_map; eauto.
Qed.

Lemma ids_app l1 l2 : ids (l1 ++ l2) = ids l1 ++ ids l2.
Proof. apply map_app. Qed.

Lemma elem_of_ids x l : x ∈ l -> py_id x ∈ ids l.
Proof. intros. apply elem_of_map. eauto. Qed.

Lemma yields_nil : yields ([], None) [].
Proof. repeat split; auto. Qed.

Lemma yields_single e : yields ([e], None) [e].
Proof. repeat split; auto. Qed.

Lemma yields_app g1 g2 r1 r2 :
  yields g1 r1 -> yields g2 r2 -> yields (gen_app g1 g2) (r1 ++ r2).
Proof.
  intros (E1 & M1 & F1) (E2 & M2 & F2). unfold yields, gen_app. rewrite E1.
  cbn [fst snd]. split; [done|split].
  - intros x. specialize (M1 x). specialize (M2 x).
    rewrite !elem_of_app. tauto.
  - rewrite !ids_app. by apply same_first_occurrences_app.
Qed.

Lemma yields_cons g e r :
  yields g r -> yields (gen_app ([e], None) g) (e :: r).
Proof. intros. apply (yields_app _ _ [e] r); [apply yields_single|done]. Qed.

Lemma yields_for f ref l :
  (forall o, o ∈ l -> yields (f o) (ref o)) ->
  yields (gen_for l f) (flat_map ref l).
Proof.
  induction l as [|o t IH]; intros H; simpl; [apply yields_nil|].
  apply yields_app; [apply H; by left|].
  apply IH. intros. apply H. by right.
Qed.

(** The sequence of an element is empty or starts with the element. *)
Lemma constituents_at_head d e :
  (constituents_at d e).1 = [] \/
  exists t, (constituents_at d e).1 = e :: t.
Proof.
  destruct d; [by left|]. destruct e; simpl; eauto.
Qed.

(** The doubled loop [for x in o.constituents(): yield from
    x.constituents()] reaches what [o.constituents()] reaches, in the same
    order of first occurrences. *)
Lemma yields_twice (c : Element -> Gen) o :
  yields (c o) (preorder o) ->
  ((c o).1 = [] \/ exists t, (c o).1 = o :: t) ->
  (forall x, x ∈ preorder o -> yields (c x) (preorder x)) ->
  yields (gen_bind (c o) c) (preorder o).
Proof.
  intros (E & M & F) Hhd Hall.
  assert (G : forall l, (forall x, x ∈ l -> x ∈ preorder o) ->
            (gen_for l c).2 = None /\
            forall y, y ∈ (gen_for l c).1 -> y ∈ preorder o).
  { induction l as [|x t IH]; intros Hl; simpl.
    - split; [done|]. by intros y ?%elem_of_nil.
    - destruct (Hall x) as (Ex & Mx & _); [apply Hl; by left|].
      destruct IH as [Et Mt]; [intros; apply Hl; by right|].
      unfold gen_app. rewrite Ex. cbn [fst snd]. split; [done|].
      intros y [Hy|Hy]%elem_of_app; [|by apply Mt].
      apply Mx in Hy. eapply preorder_closed; [|done]. apply Hl. by left. }
  unfold gen_bind. destruct Hhd as [Hnil|[t Ht]].
  - rewrite Hnil, E. unfold yields. cbn [gen_for gen_app fst snd app].
    rewrite <- Hnil. done.
  - rewrite Ht. cbn [gen_for].
    destruct (G t) as [Et Mt].
    { intros z Hz. apply M. rewrite Ht. by right. }
    unfold yields, gen_app. rewrite !E. cbn [fst snd]. rewrite !Et.
    cbn [fst snd]. rewrite ?E.
    rewrite app_nil_r. split; [done|split].
    + intros z. rewrite elem_of_app. specialize (M z). specialize (Mt z).
      tauto.
    + rewrite ids_app. eapply same_first_occurrences_trans; [|exact F].
      apply same_first_occurrences_repeat.
      intros n (y & Hy & ->)%elem_of_map.
      apply elem_of_ids, M, Mt, Hy.
Qed.

Section ConstituentsAt.

Variable d : nat.

(** The induction hypothesis on the depth. *)
Hypothesis IHd : forall e,
    (height e < d)%nat -> no_none e = true ->
    yields (constituents_at d e) (preorder e).

Lemma yields_twice_at o :
  (height o < d)%nat -> no_none o = true ->
  yields (gen_bind (constituents_at d o) (constituents_at d)) (preorder o).
Proof.
  intros Hh Hn. apply yields_twice; [by apply IHd|apply constituents_at_head|].
  intros x Hx. destruct (preorder_closed o x Hx) as (H1 & H2 & _).
  apply IHd; [lia|by apply H2].
Qed.

Lemma yields_modifiers_at l :
  (forall o, o ∈ l -> (height o < d)%nat) -> forallb no_none l = true ->
  yields (yield_modifiers (constituents_at d) l) (flat_map preorder l).
Proof.
  intros Hh Hn. apply yields_for. intros o Ho.
  apply yields_twice_at; [by apply Hh|by eapply forallb_elem_of].
Qed.

Lemma yields_head_at h :
  (height h < d)%nat -> is_none h || no_none h = true ->
  yields (yield_head (constituents_at d) h) (preorder h).
Proof.
  intros Hh Hn. unfold yield_head. destruct (is_none h) eqn:E.
  - destruct h; try discriminate. apply yields_nil.
  - by apply yields_twice_at.
Qed.

Lemma yields_coords_at l :
  (forall o, o ∈ l -> (height o < d)%nat) -> forallb no_none l = true ->
  yields (gen_for l (fun c => if is_none c then ([c], None)
                              else constituents_at d c))
         (flat_map preorder l).
Proof.
  intros Hh Hn. apply yields_for. intros o Ho.
  pose proof (forallb_elem_of _ _ _ Hn Ho) as Hno.
  destruct o; try discriminate; cbn [is_none]; by apply IHd; auto.
Qed.

End ConstituentsAt.

(** With a recursion depth above the height of the tree, [constituents]
    runs to its end and yields the elements of the traversal order of the
    specification, first met in that order. *)
Lemma constituents_at_yields d e :
  (height e < d)%nat -> no_none e = true ->
  yields (constituents_at d e) (preorder e).
Proof.
  revert e. induction d as [|d IH]; intros e Hh Hn; [lia|].
  assert (Hc : forall o, o ∈ children e -> (height o < d)%nat).
  { intros o Ho. apply height_children in Ho. lia. }
  destruct e; try discriminate;
    cbn [constituents_at preorder no_none children] in *;
    try apply yields_nil; try apply yields_single;
    repeat (apply andb_prop in Hn as [Hn ?]);
    apply yields_cons;
    repeat match goal with
           | |- yields (gen_app _ _) (_ ++ _) => apply yields_app
           | |- yields (yield_modifiers _ _) _ => apply yields_modifiers_at
           | |- yields (yield_head _ _) _ => apply yields_head_at
           | |- yields (gen_for _ _) _ => apply yields_coords_at
           | |- yields (constituents_at _ _) _ => apply IH
           end;
    try done;
    try (intros; apply Hc);
    try apply Hc;
    rewrite ?elem_of_app, ?elem_of_cons; auto 10.
Qed.

(** *** The recursion depth *)

Lemma gen_app_elem g1 g2 x :
  x ∈ (gen_app g1 g2).1 -> x ∈ g1.1 \/ x ∈ g2.1.
Proof.
  unfold gen_app. destruct (g1.2); cbn [fst]; [auto|].
  rewrite elem_of_app. auto.
Qed.

Lemma gen_for_elem l f x :
  x ∈ (gen_for l f).1 -> exists o, o ∈ l /\ x ∈ (f o).1.
Proof.
  induction l as [|o t IH]; cbn [gen_for fst]; [by intros ?%elem_of_nil|].
  intros [H|H]%gen_app_elem.
  - exists o. split; [by left|done].
  - destruct (IH H) as (o' & ? & ?). exists o'. split; [by right|done].
Qed.

Lemma gen_bind_elem g f x :
  x ∈ (gen_bind g f).1 -> exists y, y ∈ g.1 /\ x ∈ (f y).1.
Proof.
  unfold gen_bind. intros [H|H]%gen_app_elem.
  - by apply gen_for_elem.
  - by apply elem_of_nil in H.
Qed.

Lemma gen_for_ext l f f' :
  (forall o, o ∈ l -> f o = f' o) -> gen_for l f = gen_for l f'.
Proof.
  induction l as [|o t IH]; intros H; cbn [gen_for]; [done|].
  rewrite (H o) by (by left). rewrite IH; [done|].
  intros. apply H. by right.
Qed.

Lemma gen_bind_ext g f f' :
  (forall x, x ∈ g.1 -> f x = f' x) -> gen_bind g f = gen_bind g f'.
Proof. intros H. unfold gen_bind. by rewrite (gen_for_ext _ f f'). Qed.

(** A generator yields nothing higher than its element. *)
Lemma constituents_at_height d e x :
  x ∈ (constituents_at d e).1 -> (height x <= height e)%nat.
Proof.
  revert e x. induction d as [|d IH]; intros e x;
    [by intros ?%elem_of_nil|].
  assert (Htwice : forall o, x ∈ (gen_bind (constituents_at d o)
                                     (constituents_at d)).1 ->
                             (height x <= height o)%nat).
  { intros o (y & Hy & Hx)%gen_bind_elem.
    apply IH in Hy. apply IH in Hx. lia. }
  assert (Hmods : forall l, x ∈ (yield_modifiers (constituents_at d) l).1 ->
                            exists o, o ∈ l /\ (height x <= height o)%nat).
  { intros l (o & Ho & Hx)%gen_for_elem. eauto. }
  assert (Hhead : forall h, x ∈ (yield_head (constituents_at d) h).1 ->
                            (height x <= height h)%nat).
  { intros h. unfold yield_head. destruct (is_none h); [|by auto].
    by intros ?%elem_of_nil. }
  assert (Hc : forall o, o ∈ children e -> (height x <= height o)%nat ->
                         (height x <= height e)%nat).
  { intros o Ho ?. apply height_children in Ho. lia. }
  destruct e; cbn [constituents_at fst children] in *;
    try (by intros ?%elem_of_nil);
    try (by intros ->%list_elem_of_singleton);
    intros H;
    repeat match type of H with
           | _ ∈ (gen_app _ _).1 => apply gen_app_elem in H as [H|H]
           end;
    try (apply list_elem_of_singleton in H as ->; done);
    try (apply Hmods in H as (o & Ho & Hx); apply (Hc o);
         [rewrite ?elem_of_app, ?elem_of_cons; auto 10|done]);
    try (apply Hhead in H; eapply Hc; [|exact H];
         rewrite ?elem_of_app, ?elem_of_cons; auto 10);
    try (apply IH in H; eapply Hc; [|exact H];
         rewrite ?elem_of_app, ?elem_of_cons; auto 10).
  apply gen_for_elem in H as (o & Ho & Hx). apply (Hc o Ho).
  destruct (is_none o); [apply list_elem_of_singleton in Hx as ->; done|].
  by apply IH.
Qed.

(** A deeper recursion changes nothing once the depth is above the height
    of the tree. *)
Lemma constituents_at_more d e :
  (height e < d)%nat -> constituents_at (S d) e = constituents_at d e.
Proof.
  revert e. induction d as [|d IH]; intros e Hh; [lia|].
  assert (Hc : forall o, o ∈ children e -> (height o < d)%nat).
  { intros o Ho. apply height_children in Ho. lia. }
  assert (Htwice : forall o, (height o < d)%nat ->
            gen_bind (constituents_at (S d) o) (constituents_at (S d))
            = gen_bind (constituents_at d o) (constituents_at d)).
  { intros o Ho. rewrite (IH o Ho). apply gen_bind_ext.
    intros x Hx%constituents_at_height. apply IH. lia. }
  assert (Hmods : forall l, (forall o, o ∈ l -> o ∈ children e) ->
            yield_modifiers (constituents_at (S d)) l
            = yield_modifiers (constituents_at d) l).
  { intros l Hl. apply gen_for_ext. intros o Ho. apply Htwice, Hc, Hl, Ho. }
  assert (Hhead : forall h, h ∈ children e ->
            yield_head (constituents_at (S d)) h
            = yield_head (constituents_at d) h).
  { intros h Hin. unfold yield_head. destruct (is_none h); [done|].
    apply Htwice, Hc, Hin. }
  destruct e; try done;
    cbn [constituents_at children] in *; fold (constituents_at (S d));
    fold (constituents_at d).
  - f_equal. apply gen_for_ext. intros o Ho.
    destruct (is_none o); [done|]. apply IH, Hc, Ho.
  - rewrite !Hmods, Hhead; [done|..]; intros;
      rewrite ?elem_of_app, ?elem_of_cons; auto 10.
  - rewrite !Hmods, !Hhead; [done|..]; intros;
      rewrite ?elem_of_app, ?elem_of_cons; auto 10.
  - rewrite !Hmods, !IH; [done|..]; try apply Hc; intros;
      rewrite ?elem_of_app, ?elem_of_cons; auto 10.
Qed.

(** Every depth above the height of the tree gives the sequence of
    [constituents]. *)
Lemma constituents_depth_enough d e :
  (height e < d)%nat -> constituents_at d e = constituents e.
Proof.
  unfold constituents. intros H.
  replace d with (S (height e) + (d - S (height e)))%nat by lia.
  induction (d - S (height e))%nat as [|k IH]; [by rewrite Nat.add_0_r|].
  rewrite Nat.add_succ_r, constituents_at_more; [done|lia].
Qed.

(** *** The order of the constituents *)

(** What [constituents()] does deliver.  For every element without a stray
    [None] it runs to its end and yields the element first and then nodes
    of its subtree: the nodes it yields are those of the fixed order of
    the class (specifier for a noun phrase, front modifiers,
    pre-modifiers, head, complements, post-modifiers; for a clause
    pre-modifiers, subject, predicate, complements, post-modifiers; each
    list left to right and recursively expanded, bare [Element]s left
    out), and they are first met in that order. *)
Theorem constituents_fixed_order e :
  no_none e = true ->
  (constituents e).2 = None
  /\ (forall x, x ∈ (constituents e).1 <-> x ∈ preorder e)
  /\ first_occurrences [] (ids (constituents e).1)
     = first_occurrences [] (ids (preorder e))
  /\ (NoDup (ids (preorder e)) ->
      first_occurrences [] (ids (constituents e).1) = ids (preorder e)).
Proof.
  intros Hn.
  destruct (constituents_at_yields (S (height e)) e) as (E & M & F);
    [lia|done|].
  fold (constituents e) in E, M, F.
  repeat split; auto; try apply M.
  intros Hnd. rewrite (F []). by apply first_occurrences_NoDup.
Qed.

Lemma constituents_fixed_order_witness :
  no_none red_block = true
  /\ first_occurrences [] (ids (constituents red_block).1)
     = ids (preorder red_block).
Proof.
  split; [reflexivity|].
  apply (constituents_fixed_order red_block); [reflexivity|].
  vm_compute. repeat constructor; set_solver.
Defined.

(** C6 fails on "red block", a noun phrase with an adjective phrase for
    its pre-modifier: [constituents()] yields the word under the adjective
    phrase twice.  The loop of [yield_pre_modifiers] goes through the
    constituents of the modifier and yields, for each of them, its
    constituents once more, so that the word comes as a constituent of the
    adjective phrase and again as a constituent of itself. *)
Theorem constituents_not_exactly_once :
  let g := constituents red_block in
  g.2 = None
  /\ ids g.1 = [5; 2; 1; 1; 4]%nat
  /\ ids (preorder red_block) = [5; 2; 1; 4]%nat
  /\ ~ NoDup (ids g.1).
Proof.
  cbv zeta. repeat split; try reflexivity.
  intros H. vm_compute in H.
  apply NoDup_cons in H as [_ H]. apply NoDup_cons in H as [_ H].
  apply NoDup_cons in H as [H _]. apply H. by left.
Qed.

(** ** Message specifications *)

(** C9: for a non-negative integer index, [value_for] raises
    [SignatureError] when the index is at or beyond the number of stored
    arguments and returns the argument at the index otherwise; the message
    is left as it was in both cases. *)
Theorem value_for_index {V} (int_of_str : string -> option Z)
    (msg : PredicateMsg V) (i : Z) :
  0 <= i ->
  (Z.of_nat (List.length (args msg)) <= i ->
   value_for int_of_str msg (KeyInt i) = (msg, Raise SignatureError))
  /\ (i < Z.of_nat (List.length (args msg)) ->
      exists v, args msg !! Z.to_nat i = Some v
                /\ value_for int_of_str msg (KeyInt i) = (msg, Ok v)).
Proof.
  intros Hi. unfold value_for. split; intros H.
  - by rewrite (proj2 (Z.leb_le _ _) H).
  - rewrite (proj2 (Z.leb_gt _ _) H). unfold py_index.
    rewrite (proj2 (Z.ltb_ge _ _) Hi).
    destruct (lookup_lt_is_Some_2 (args msg) (Z.to_nat i)) as [v Hv]; [lia|].
    exists v. by rewrite (proj2 (Z.ltb_ge _ _) Hi), Hv.
Qed.

Lemma value_for_index_witness :
  let msg := mkPredicateMsg "on" "on" ["a"; "b"] ∅ (fun _ => None) in
  0 <= 1
  /\ value_for (fun _ => None) msg (KeyInt 1) = (msg, Ok "b")
  /\ value_for (fun _ => None) msg (KeyInt 2) = (msg, Raise SignatureError).
Proof.
  cbv zeta. split; [lia|]. split.
  - destruct (value_for_index (fun _ => None)
                (mkPredicateMsg "on" "on" ["a"; "b"] ∅ (fun _ => None)) 1)
      as [_ H]; [lia|].
    destruct H as (v & Hv & ->); [simpl; lia|].
    simpl in Hv. by injection Hv as <-.
  - apply (value_for_index (fun _ => None)
             (mkPredicateMsg "on" "on" ["a"; "b"] ∅ (fun _ => None)) 2);
      simpl; lia.
Defined.

(** ** Deep copy *)

(** [NounPhrase.__deepcopy__] copies the head and the specifier only: the
    copy of a noun phrase has no modifiers and no complements. *)
Lemma deepcopy_NounPhrase_slots m s fr pr h cm po n c n' :
  deepcopy (ENounPhrase m s fr pr h cm po) n = (Ok c, n') ->
  exists m' s' h', c = ENounPhrase m' s' [] [] h' [] [].
Proof.
  cbn [deepcopy]. unfold mbind, Py_bind, mret, Py_ret.
  destruct (deepcopy h n) as [[h'|x] n1]; [|discriminate].
  destruct (deepcopy s n1) as [[s'|x] n2]; [|discriminate].
  unfold new_NounPhrase, Phrase_init, new_meta, new_Element, set_head,
    assign_parent, fresh, mbind, Py_bind, mret, Py_ret.
  cbn [new_meta fst snd].
  destruct (is_none s'), (is_none h') eqn:Eh; cbn [is_none];
    try rewrite Eh; cbn; intros [= <- <-]; eauto.
Qed.

(** C3 fails on "red block": the deep copy is a new object with the
    cached hash of the original, but it has lost the pre-modifier and is
    not equal to the original. *)
Theorem deepcopy_drops_modifiers :
  is_ok (deepcopy red_block 8%nat).1 = true
  /\ is_noun_phrase red_block_copy = true
  /\ py_id red_block_copy <> py_id red_block
  /\ (hash <$> meta red_block_copy) = (hash <$> meta red_block)
  /\ ids (pre_modifiers_of red_block) = [2%nat]
  /\ pre_modifiers_of red_block_copy = []
  /\ py_eq red_block_copy red_block = false
  /\ py_eq red_block red_block_copy = false.
Proof. repeat split; vm_compute; congruence. Qed.

(** ** Referring expressions *)

Lemma dict_get_set_str {B} (d : list (RefKey * B)) s v :
  dict_get (dict_set d (KStr s) v) (KStr s) = Some v.
Proof.
  induction d as [|[k w] t IH]; simpl.
  - by rewrite String.eqb_refl.
  - destruct (key_eq k (KStr s)) eqn:E; simpl; by rewrite E.
Qed.

(** The test [count == 0 or (count == 1 and distractors[0] == referent)]. *)
Lemma unique_test (ds : list string) (referent : string) :
  (List.length ds =? 0)%nat
  || ((List.length ds =? 1)%nat && bool_decide (head ds = Some referent))
  = true
  <-> ds = [] \/ ds = [referent].
Proof.
  destruct ds as [|x [|y r]]; cbn; split; auto; try done;
    try (intros [|]; done).
  - intros H%bool_decide_eq_true. injection H as ->. by right.
  - intros [|[= ->]]; [done|]. by apply bool_decide_eq_true.
Qed.

Ltac run_py :=
  unfold new_Word, new_NounPhrase, new_String, Phrase_init, new_meta,
    new_Element, set_head, assign_parent, wrap_referent, add_to_list,
    Phrase_add_complement, fresh, lift, mbind, mret, Py_bind, Py_ret;
  cbn [is_none set_feature with_meta copy_id copy_hash assign_spec mapM
       deepcopy].

(** A first mention that misses the registry runs the initial
    reference. *)
Lemma generate_ref_exp_initial target ctx :
  is_Some (surface target) ->
  dict_contains (referents ctx) (KElt target) = false ->
  generate_ref_exp target ctx = _do_initial_reference target ctx.
Proof.
  intros [s Hs] Hnew.
  destruct target; try discriminate; unfold generate_ref_exp; by rewrite Hnew.
Qed.

(** C1, as the code has it: for a [String] or [Word] referent that is not
    yet in the registry, whose surface text does not start with an
    upper-case letter and whose type the ontology resolves, the first call
    of [generate_ref_exp] returns a noun phrase headed by the type name.
    When the type has no known instance, or one, the referent itself, the
    phrase has the determiner "the", and the registry holds, under the
    surface text, the flag [True] and a copy of the phrase without a
    determiner.  Otherwise the phrase has no determiner, and the registry
    holds it with the flag [False]. *)
Theorem initial_reference_determiner target ctx onto c rest t xs n :
  surface target = Some (String c rest) ->
  isupper c = false ->
  dict_contains (referents ctx) (KElt target) = false ->
  ontology ctx = Some onto ->
  best_entity_type onto (":" ++ String c rest) = Ok t ->
  entities_of_type onto (":" ++ rpartition_tail ":"%char t) = Ok xs ->
  let referent := String c rest in
  let ds := remove_dups (map (rpartition_tail ":"%char) xs) in
  exists result ctx' n',
    generate_ref_exp target ctx n = (Ok (result, ctx'), n')
    /\ is_noun_phrase result = true
    /\ surface (head_of result) = Some (rpartition_tail ":"%char t)
    /\ (ds = [] \/ ds = [referent] ->
        has_determiner "the" result = true
        /\ exists cached,
            dict_get (referents ctx') (KStr referent) = Some (true, cached)
            /\ is_noun_phrase cached = true
            /\ no_determiner cached = true
            /\ surface (head_of cached) = Some (rpartition_tail ":"%char t))
    /\ (ds <> [] -> ds <> [referent] ->
        no_determiner result = true
        /\ dict_get (referents ctx') (KStr referent) = Some (false, result)).
Proof.
  intros Hs Hup Hnew Honto Ht Hxs referent ds.
  rewrite generate_ref_exp_initial by (rewrite ?Hs; eauto).
  unfold _do_initial_reference, try_except.
  rewrite Hs. cbn [default from_option id]. rewrite Hup, Honto.
  unfold mbind, mret, Py_bind, Py_ret, lift. rewrite Ht.
  run_py. rewrite Hxs. fold ds. fold referent.
  pose proof (unique_test ds referent) as Hu.
  destruct ((List.length ds =? 0)%nat || _) eqn:Hc.
  - run_py. do 3 eexists. split; [reflexivity|].
    split; [reflexivity|]. split; [reflexivity|]. split.
    + intros _. split; [reflexivity|]. eexists.
      split; [apply dict_get_set_str|]. by repeat split.
    + intros H1 H2. destruct (proj1 Hu eq_refl); contradiction.
  - assert (Hno : ~ (ds = [] \/ ds = [referent])).
    { intros H. apply Hu in H. discriminate. }
    unfold distinguish_by_number.
    destruct (numeral_suffix referent) as [number|]; run_py;
      do 3 eexists; (split; [reflexivity|]);
      (split; [reflexivity|]); (split; [reflexivity|]);
      (split; [intros; contradiction|]);
      intros _ _; (split; [reflexivity|apply dict_get_set_str]).
Qed.

Lemma initial_reference_determiner_witness :
  exists result ctx' n',
    generate_ref_exp (referent_named "table") (mkContext (Some one_table) [])
      2%nat = (Ok (result, ctx'), n')
    /\ has_determiner "the" result = true.
Proof.
  destruct (initial_reference_determiner (referent_named "table")
              (mkContext (Some one_table) []) one_table "t" "able" ":table"
              [":table"] 2%nat eq_refl eq_refl eq_refl eq_refl eq_refl
              eq_refl)
    as (result & ctx' & n' & Hrun & _ & _ & Hthe & _).
  exists result, ctx', n'. split; [exact Hrun|].
  apply Hthe. right. reflexivity.
Defined.

(** C1 as stated fails on "b1", one of two blocks the ontology knows: the
    first expression for it has no determiner at all, no indefinite one.
    Its specifier is still the bare [Element], and the registry holds it
    with the flag [False]. *)
Lemma first_mention_without_determiner :
  let '(e, c, _) := first_mention two_blocks "b1" in
  is_noun_phrase e = true
  /\ no_determiner e = true
  /\ has_determiner "a" e = false
  /\ has_determiner "an" e = false
  /\ key_strings c = [(Some "b1", false)].
Proof. vm_compute. repeat split. Qed.

(** No element key equals a [str] key. *)
Lemma dict_get_str_keys {B} (d : list (RefKey * B)) e :
  Forall (fun kv => exists s, kv.1 = KStr s) d ->
  dict_get d (KElt e) = None.
Proof.
  induction 1 as [|[k v] t [s Hs] _ IH]; [done|].
  simpl in *. by rewrite Hs.
Qed.

(** C2 fails on the second mention of "table": the first mention stored
    its expression under the [str] "table", the lookup with the element
    misses it, and [generate_ref_exp] runs the initial reference once
    more. *)
Theorem second_mention_misses_registry :
  let r := referent_named "table" in
  let '(e1, c1, n1) := first_mention one_table "table" in
  let '(e2, c2, _) := second_mention one_table "table" in
  key_strings c1 = [(Some "table", true)]
  /\ dict_contains (referents c1) (KElt r) = false
  /\ generate_ref_exp r c1 n1 = _do_initial_reference r c1 n1
  /\ has_determiner "the" e1 = true
  /\ has_determiner "the" e2 = true
  /\ key_strings c2 = [(Some "table", true)].
Proof.
  cbv zeta.
  destruct (first_mention one_table "table") as [[e1 c1] n1] eqn:E1.
  destruct (second_mention one_table "table") as [[e2 c2] n2] eqn:E2.
  assert (H1 : (first_mention one_table "table").1.2 = c1) by by rewrite E1.
  assert (Hk : key_strings c1 = [(Some "table", true)]).
  { rewrite <- H1. by vm_compute. }
  assert (Hd : dict_contains (referents c1) (KElt (referent_named "table"))
               = false).
  { rewrite <- H1. by vm_compute. }
  repeat split; try done.
  - by rewrite generate_ref_exp_initial by (simpl; eauto).
  - assert (H : (first_mention one_table "table").1.1 = e1) by by rewrite E1.
    rewrite <- H. by vm_compute.
  - assert (H : (second_mention one_table "table").1.1 = e2) by by rewrite E2.
    rewrite <- H. by vm_compute.
  - assert (H : (second_mention one_table "table").1.2 = c2) by by rewrite E2.
    rewrite <- H. by vm_compute.
Qed.

(** Where the lookup does find a unique referent, the repeated reference
    is a copy of the cached noun phrase with the determiner "the". *)
Lemma repeated_reference_definite referent ctx m s fr pr h cm po n c n1 :
  dict_get (referents ctx) (KElt referent)
  = Some (true, ENounPhrase m s fr pr h cm po) ->
  deepcopy (ENounPhrase m s fr pr h cm po) n = (Ok c, n1) ->
  exists r,
    _do_repeated_reference referent ctx n = (Ok (r, ctx), S n1)
    /\ has_determiner "the" r = true.
Proof.
  intros Hget Hcopy. unfold _do_repeated_reference. rewrite Hget.
  destruct (deepcopy_NounPhrase_slots _ _ _ _ _ _ _ _ _ _ Hcopy)
    as (m' & s' & h' & ->).
  unfold mbind, Py_bind. rewrite Hcopy. run_py.
  eexists. split; reflexivity.
Qed.

(** *** [optimise_ref_exp] *)

(** [copy] raises for every object of a class of structures.py. *)
Lemma py_copy_raises x n :
  is_none x = false -> py_copy x n = (Raise Exception, S n).
Proof. by destruct x. Qed.

(** C7 fails for every clause.  The first statement of
    [optimise_ref_exp], [result = copy(phrase)], raises
    [Exception('flag!')] for every phrase that is an object of a class of
    structures.py, whatever the function does after it: no noun phrase is
    looked at, and no pronoun and no case is chosen. *)
Theorem optimise_ref_exp_raises rest phrase n :
  is_none phrase = false ->
  optimise_ref_exp rest phrase n = (Raise Exception, S n).
Proof.
  intros H. unfold optimise_ref_exp, mbind, Py_bind.
  by rewrite py_copy_raises.
Qed.

Lemma optimise_ref_exp_raises_witness :
  is_clause john_sees_john = true
  /\ optimise_ref_exp (fun _ result => mret result) john_sees_john 10%nat
     = (Raise Exception, 11%nat).
Proof.
  split; [reflexivity|].
  by apply (optimise_ref_exp_raises _ john_sees_john 10%nat).
Defined.

(** ** Search and splice *)

Lemma find_app {A} (f : A -> bool) (l1 l2 : list A) :
  find f (l1 ++ l2)
  = match find f l1 with Some x => Some x | None => find f l2 end.
Proof.
  induction l1 as [|x t IH]; simpl; [done|]. by destruct (f x).
Qed.

Lemma find_map {A B} (f : B -> bool) (g : A -> B) (l : list A) :
  find f (map g l) = g <$> find (fun x => f (g x)) l.
Proof.
  induction l as [|x t IH]; simpl; [done|]. by destruct (f (g x)).
Qed.

Lemma find_ext_in {A} (f g : A -> bool) (l : list A) :
  (forall x, x ∈ l -> f x = g x) -> find f l = find g l.
Proof.
  induction l as [|x t IH]; intros H; simpl; [done|].
  rewrite (H x) by (by left). destruct (g x); [done|].
  apply IH. intros. apply H. by right.
Qed.

Lemma find_hit {A} (f : A -> bool) (l : list A) x :
  find f l = Some x -> f x = true.
Proof. intros H. by apply find_some in H as [_ ?]. Qed.

(** The indices of a scan start at the index of the first member. *)
Lemma scan_backward_indices s scan i l p :
  p ∈ scan_backward s scan i l ->
  exists j p', p = (s, j) :: p' /\ (i <= j)%nat.
Proof.
  revert i. induction l as [|o t IH]; intros i; simpl;
    [by intros ?%elem_of_nil|].
  rewrite elem_of_app, elem_of_cons, elem_of_map.
  intros [H|[->|(p' & _ & ->)]]; eauto.
  destruct (IH _ H) as (j & p' & -> & ?). exists j, p'. split; [done|lia].
Qed.

Lemma scan_forward_indices s scan i l p :
  p ∈ scan_forward s scan i l ->
  exists j p', p = (s, j) :: p' /\ (i <= j)%nat.
Proof.
  revert i. induction l as [|o t IH]; intros i; simpl;
    [by intros ?%elem_of_nil|].
  rewrite elem_of_cons, elem_of_app, elem_of_map.
  intros [->|[(p' & _ & ->)|H]]; eauto.
  destruct (IH _ H) as (j & p' & -> & ?). exists j, p'. split; [done|lia].
Qed.

Section ListLoops.

Variable test : Element -> bool.
Variable search : Element -> bool * Element.
Variable scan : Element -> list Path.
Variable written : Slot -> Element.
Variable replacement : Element.
Variable s : Slot.

Let search_ok := search_spec test search scan written replacement.
Let hit_from := hit_in test.

Lemma hit_in_here i0 o t :
  hit_from i0 (o :: t) [(s, i0)] = test o.
Proof. unfold hit_from, hit_in. simpl. by rewrite Nat.sub_diag. Qed.

Lemma hit_in_member i0 o t p :
  hit_from i0 (o :: t) ((s, i0) :: p) = hit test o p.
Proof. unfold hit_from, hit_in, hit. simpl. by rewrite Nat.sub_diag. Qed.

Lemma hit_in_later i0 o t j p :
  (S i0 <= j)%nat ->
  hit_from i0 (o :: t) ((s, j) :: p) = hit_from (S i0) t ((s, j) :: p).
Proof.
  intros H. unfold hit_from, hit_in. simpl.
  replace (j - i0)%nat with (S (j - S i0)) by lia. done.
Qed.

Lemma splice_in_later i0 o t j p :
  (S i0 <= j)%nat ->
  splice_in written replacement i0 (o :: t) ((s, j) :: p)
  = o :: splice_in written replacement (S i0) t ((s, j) :: p).
Proof.
  intros H. unfold splice_in.
  replace (j - i0)%nat with (S (j - S i0)) by lia.
  by destruct p.
Qed.

Lemma splice_in_member i0 o t p :
  p <> [] ->
  splice_in written replacement i0 (o :: t) ((s, i0) :: p)
  = splice_at written replacement o p :: t.
Proof.
  intros H. unfold splice_in. rewrite Nat.sub_diag. by destruct p.
Qed.

Lemma splice_in_here i0 o t :
  splice_in written replacement i0 (o :: t) [(s, i0)]
  = put_or_delete replacement t.
Proof. unfold splice_in. by rewrite Nat.sub_diag. Qed.

(** The backward loop splices the first position of its scan order whose
    node passes the test. *)
Lemma splice_backward_spec i0 l :
  Forall search_ok l ->
  splice_backward test search replacement l
  = match find (hit_from i0 l) (scan_backward s scan i0 l) with
    | Some p => (true, splice_in written replacement i0 l p)
    | None => (false, l)
    end.
Proof.
  intros H. revert i0. induction H as [|o t Ho Ht IH]; intros i0; [done|].
  cbn [splice_backward scan_backward]. rewrite (IH (S i0)), find_app.
  rewrite (find_ext_in (hit_from i0 (o :: t)) (hit_from (S i0) t)).
  2:{ intros p (j & p' & -> & Hj)%scan_backward_indices.
      by apply hit_in_later. }
  destruct (find (hit_from (S i0) t) _) as [p|] eqn:Ef.
  - apply find_some in Ef as [Hin _].
    apply list_elem_of_In, scan_backward_indices in Hin
      as (j & p' & -> & Hj).
    by rewrite splice_in_later.
  - cbn [find]. rewrite hit_in_here. destruct (test o) eqn:Et.
    + by rewrite splice_in_here.
    + rewrite find_map.
      rewrite (find_ext_in _ (hit test o))
        by (intros; apply hit_in_member).
      rewrite (Ho Et). destruct (find (hit test o) (scan o)) as [p|] eqn:Eo;
        [|done].
      cbn [fmap option_fmap option_map]. rewrite splice_in_member; [done|].
      intros ->. apply find_hit in Eo. unfold hit in Eo. simpl in Eo.
      congruence.
Qed.

(** The forward loop likewise. *)
Lemma splice_forward_spec i0 l :
  Forall search_ok l ->
  splice_forward test search replacement l
  = match find (hit_from i0 l) (scan_forward s scan i0 l) with
    | Some p => (true, splice_in written replacement i0 l p)
    | None => (false, l)
    end.
Proof.
  intros H. revert i0. induction H as [|o t Ho Ht IH]; intros i0; [done|].
  cbn [splice_forward scan_forward app find]. rewrite hit_in_here.
  destruct (test o) eqn:Et; [by rewrite splice_in_here|].
  rewrite find_app, find_map.
  rewrite (find_ext_in _ (hit test o)) by (intros; apply hit_in_member).
  rewrite (Ho Et). destruct (find (hit test o) (scan o)) as [p|] eqn:Eo.
  - cbn [fmap option_fmap option_map]. rewrite splice_in_member; [done|].
    intros ->. apply find_hit in Eo. unfold hit in Eo. simpl in Eo.
    congruence.
  - cbn [fmap option_fmap option_map]. rewrite (IH (S i0)).
    rewrite (find_ext_in (hit_from i0 (o :: t)) (hit_from (S i0) t)).
    2:{ intros p (j & p' & -> & Hj)%scan_forward_indices.
        by apply hit_in_later. }
    destruct (find (hit_from (S i0) t) _) as [p|] eqn:Ef; [|done].
    apply find_some in Ef as [Hin _].
    apply list_elem_of_In, scan_forward_indices in Hin
      as (j & p' & -> & Hj).
    by rewrite splice_in_later.
Qed.

End ListLoops.

Section Slots.

Variable test : Element -> bool.
Variable scan : Element -> list Path.
Variable written : Slot -> Element.
Variable replacement : Element.

(** In a list slot of an element the positions are those in the list. *)
Lemma find_in_slot_backward s e :
  find (hit test e) (scan_backward s scan 0 (slot s e))
  = find (hit_in test 0 (slot s e)) (scan_backward s scan 0 (slot s e)).
Proof.
  apply find_ext_in. intros p (j & p' & -> & _)%scan_backward_indices.
  unfold hit, hit_in. cbn [node_at node_in]. by rewrite Nat.sub_0_r.
Qed.

Lemma find_in_slot_forward s e :
  find (hit test e) (scan_forward s scan 0 (slot s e))
  = find (hit_in test 0 (slot s e)) (scan_forward s scan 0 (slot s e)).
Proof.
  apply find_ext_in. intros p (j & p' & -> & _)%scan_forward_indices.
  unfold hit, hit_in. cbn [node_at node_in]. by rewrite Nat.sub_0_r.
Qed.

Lemma splice_at_slot s e j p :
  single s = false ->
  splice_at written replacement e ((s, j) :: p)
  = set_slot s (splice_in written replacement 0 (slot s e) ((s, j) :: p)) e.
Proof.
  intros Hs. unfold splice_in. cbn [splice_at]. rewrite Hs, Nat.sub_0_r.
  by destruct p.
Qed.

(** A slot for one element: its position comes first, then the positions
    in the element. *)
Lemma find_in_single s e x inner :
  slot s e = [x] ->
  find (hit test e) (scan_single s inner)
  = if test x then Some [(s, 0%nat)]
    else cons (s, 0%nat) <$> find (hit test x) inner.
Proof.
  intros Hx. unfold scan_single. cbn [find]. unfold hit at 1.
  cbn [node_at]. rewrite Hx. cbn [lookup list_lookup].
  destruct (test x); [done|]. rewrite find_map. f_equal.
  apply find_ext_in. intros p _. unfold hit. cbn [node_at]. by rewrite Hx.
Qed.

Lemma splice_at_single s e :
  single s = true ->
  splice_at written replacement e [(s, 0%nat)]
  = set_slot s [written s] e.
Proof. intros Hs. cbn [splice_at]. by rewrite Hs. Qed.

Lemma splice_at_inside s e x p :
  slot s e = [x] -> p <> [] ->
  splice_at written replacement e ((s, 0%nat) :: p)
  = set_slot s [splice_at written replacement x p] e.
Proof. intros Hx Hp. cbn [splice_at]. rewrite Hx. by destruct p. Qed.

End Slots.

Lemma refines_search_spec test search scan written replacement o :
  search o = splice_first test (scan o) written replacement o ->
  search_spec test search scan written replacement o.
Proof. intros H Ht. rewrite H. unfold splice_first. by rewrite Ht. Qed.

Lemma hit_nonempty test o scan p :
  test o = false -> find (hit test o) scan = Some p -> p <> [].
Proof.
  intros Ht Hf ->. apply find_hit in Hf. unfold hit in Hf. simpl in Hf.
  congruence.
Qed.

Ltac found_in_list E :=
  let Hin := fresh "Hin" in
  apply find_some in E as [Hin _];
  apply list_elem_of_In in Hin;
  first [apply scan_backward_indices in Hin
        |apply scan_forward_indices in Hin];
  destruct Hin as (? & ? & -> & _);
  by rewrite splice_at_slot.

Ltac list_slot test scan sl e :=
  let H := fresh "H" in
  first [pose proof (find_in_slot_backward test scan sl e) as H;
         cbn [slot] in H; rewrite H; clear H
        |pose proof (find_in_slot_forward test scan sl e) as H;
         cbn [slot] in H; rewrite H; clear H].

Ltac single_slot test sl e x inner :=
  let H := fresh "H" in
  pose proof (find_in_single test sl e x inner eq_refl) as H;
  rewrite H; clear H.

Ltac next_list :=
  match goal with
  | |- context [find (hit_in ?t 0 ?l) ?o] =>
      let E := fresh "E" in
      destruct (find (hit_in t 0 l) o) eqn:E; [found_in_list E|]
  end.

Ltac inside_single IH :=
  rewrite IH; unfold splice_first;
  match goal with
  | Et : ?t ?y = false |- context [find (hit ?t ?y) ?o] =>
      let E := fresh "E" in
      try rewrite Et;
      destruct (find (hit t y) o) eqn:E;
      [cbn [fmap option_fmap option_map];
       rewrite (splice_at_inside _ _ _ _ y)
         by (done || exact (hit_nonempty _ _ _ _ Et E)); done
      |cbn [fmap option_fmap option_map]]
  end.

(** [replace_element] is the search and splice of the specification, run
    on its scan order with structural equality for the test. *)
Lemma replace_element_refines sent elt r :
  replace_element sent elt r
  = splice_first (fun o => py_eq o elt) (scan_order sent) (fun _ => r) r
      sent.
Proof.
  induction sent as
    [ | m | m v | m w p b | m v IHv
      | m cs cj pr cm po IHcs IHpr IHcm IHpo
      | c m fr pr h cm po IHfr IHpr IHh IHcm IHpo
      | m s fr pr h cm po IHs IHfr IHpr IHh IHcm IHpo
      | m fr pr s v cm po IHfr IHpr IHs IHv IHcm IHpo ]
    using Element_ind_nested;
    unfold splice_first; cbn [replace_element scan_order];
    destruct (py_eq _ elt) eqn:Eroot; try done;
    set (test := fun o => py_eq o elt) in *;
    set (search := fun o => replace_element o elt r) in *;
    assert (Hs : forall l,
      Forall (fun o => replace_element o elt r
                = splice_first test (scan_order o) (fun _ => r) r o) l ->
      Forall (search_spec test search scan_order (fun _ => r) r) l)
    by (intros l H; eapply Forall_impl; [exact H|];
        intros o Ho; by apply refines_search_spec).
  - rewrite (splice_forward_spec test search scan_order (fun _ => r) r
               in_coords 0 cs) by auto.
    list_slot test scan_order in_coords (ECoordination m cs cj pr cm po). by next_list.
  - rewrite (splice_backward_spec test search scan_order (fun _ => r) r
               in_post 0 po) by auto.
    rewrite (splice_backward_spec test search scan_order (fun _ => r) r
               in_complements 0 cm) by auto.
    rewrite (splice_backward_spec test search scan_order (fun _ => r) r
               in_pre 0 pr) by auto.
    rewrite !find_app.
    list_slot test scan_order in_post (EPhrase c m fr pr h cm po).
    list_slot test scan_order in_complements (EPhrase c m fr pr h cm po).
    list_slot test scan_order in_pre (EPhrase c m fr pr h cm po).
    single_slot test in_head (EPhrase c m fr pr h cm po) h (@nil Path).
    next_list. next_list. fold (test h). destruct (test h) eqn:Eh;
      [by rewrite splice_at_single|].
    cbn [find fmap option_fmap option_map]. by next_list.
  - rewrite (splice_backward_spec test search scan_order (fun _ => r) r
               in_post 0 po) by auto.
    rewrite (splice_backward_spec test search scan_order (fun _ => r) r
               in_complements 0 cm) by auto.
    rewrite (splice_backward_spec test search scan_order (fun _ => r) r
               in_pre 0 pr) by auto.
    rewrite !find_app.
    list_slot test scan_order in_post (ENounPhrase m s fr pr h cm po).
    list_slot test scan_order in_complements (ENounPhrase m s fr pr h cm po).
    list_slot test scan_order in_pre (ENounPhrase m s fr pr h cm po).
    single_slot test in_head (ENounPhrase m s fr pr h cm po) h (@nil Path).
    single_slot test in_spec (ENounPhrase m s fr pr h cm po) s (@nil Path).
    next_list. next_list. fold (test h). destruct (test h) eqn:Eh;
      [by rewrite splice_at_single|].
    cbn [find fmap option_fmap option_map]. next_list.
    fold (test s). destruct (test s) eqn:Es;
      [by rewrite splice_at_single|done].
  - rewrite !find_app.
    single_slot test in_subj (EClause m fr pr s v cm po) s (scan_order s).
    single_slot test in_vp (EClause m fr pr s v cm po) v (scan_order v).
    fold (test s). destruct (test s) eqn:Es;
      [by rewrite splice_at_single|].
    inside_single IHs.
    fold (test v). destruct (test v) eqn:Ev;
      [by rewrite splice_at_single|].
    inside_single IHv. done.
Qed.

(** [replace_element_with_id] is the search and splice of the
    specification, run on its own scan order with identity for the
    test. *)
Lemma replace_element_with_id_refines next sent elt_id r :
  replace_element_with_id next sent elt_id r
  = splice_first (fun o => (py_id o =? elt_id)%nat) (scan_order_id sent)
      (written_with_id next r) r sent.
Proof.
  induction sent as
    [ | m | m v | m w p b | m v IHv
      | m cs cj pr cm po IHcs IHpr IHcm IHpo
      | c m fr pr h cm po IHfr IHpr IHh IHcm IHpo
      | m s fr pr h cm po IHs IHfr IHpr IHh IHcm IHpo
      | m fr pr s v cm po IHfr IHpr IHs IHv IHcm IHpo ]
    using Element_ind_nested;
    unfold splice_first; cbn [replace_element_with_id scan_order_id];
    destruct (py_id _ =? elt_id)%nat eqn:Eroot; try done;
    set (test := fun o => (py_id o =? elt_id)%nat) in *;
    set (search := fun o => replace_element_with_id next o elt_id r) in *;
    set (wr := written_with_id next r) in *;
    assert (Hs : forall l,
      Forall (fun o => replace_element_with_id next o elt_id r
                = splice_first test (scan_order_id o) wr r o) l ->
      Forall (search_spec test search scan_order_id wr r) l)
    by (intros l H; eapply Forall_impl; [exact H|];
        intros o Ho; by apply refines_search_spec).
  - rewrite (splice_forward_spec test search scan_order_id wr r
               in_coords 0 cs) by auto.
    list_slot test scan_order_id in_coords (ECoordination m cs cj pr cm po).
    by next_list.
  - rewrite (splice_backward_spec test search scan_order_id wr r
               in_post 0 po) by auto.
    rewrite (splice_backward_spec test search scan_order_id wr r
               in_complements 0 cm) by auto.
    rewrite (splice_backward_spec test search scan_order_id wr r
               in_pre 0 pr) by auto.
    rewrite !find_app.
    list_slot test scan_order_id in_post (EPhrase c m fr pr h cm po).
    list_slot test scan_order_id in_complements (EPhrase c m fr pr h cm po).
    list_slot test scan_order_id in_pre (EPhrase c m fr pr h cm po).
    single_slot test in_head (EPhrase c m fr pr h cm po) h (@nil Path).
    next_list. next_list.
    change (py_id h =? elt_id)%nat with (test h). destruct (test h) eqn:Eh;
      [by rewrite splice_at_single|].
    cbn [find fmap option_fmap option_map]. by next_list.
  - rewrite (splice_backward_spec test search scan_order_id wr r
               in_post 0 po) by auto.
    rewrite (splice_backward_spec test search scan_order_id wr r
               in_complements 0 cm) by auto.
    rewrite (splice_backward_spec test search scan_order_id wr r
               in_pre 0 pr) by auto.
    rewrite !find_app.
    list_slot test scan_order_id in_post (ENounPhrase m s fr pr h cm po).
    list_slot test scan_order_id in_complements
      (ENounPhrase m s fr pr h cm po).
    list_slot test scan_order_id in_pre (ENounPhrase m s fr pr h cm po).
    single_slot test in_head (ENounPhrase m s fr pr h cm po) h (@nil Path).
    next_list. next_list.
    change (py_id h =? elt_id)%nat with (test h). destruct (test h) eqn:Eh;
      [by rewrite splice_at_single|].
    cbn [find fmap option_fmap option_map]. unfold eq_int. by next_list.
  - rewrite (splice_backward_spec test search scan_order_id wr r
               in_post 0 po) by auto.
    rewrite (splice_backward_spec test search scan_order_id wr r
               in_complements 0 cm) by auto.
    rewrite (splice_backward_spec test search scan_order_id wr r
               in_pre 0 pr) by auto.
    rewrite !find_app.
    list_slot test scan_order_id in_post (EClause m fr pr s v cm po).
    list_slot test scan_order_id in_complements (EClause m fr pr s v cm po).
    list_slot test scan_order_id in_pre (EClause m fr pr s v cm po).
    single_slot test in_subj (EClause m fr pr s v cm po) s (scan_order_id s).
    single_slot test in_vp (EClause m fr pr s v cm po) v (scan_order_id v).
    next_list.
    change (py_id s =? elt_id)%nat with (test s).
    destruct (test s) eqn:Es; [by rewrite splice_at_single|].
    inside_single IHs.
    change (py_id v =? elt_id)%nat with (test v).
    destruct (test v) eqn:Ev; [by rewrite splice_at_single|].
    inside_single IHv.
    next_list. by next_list.
Qed.

(** *** First match in scan order *)

Lemma find_none_iff {A} (f : A -> bool) (l : list A) :
  find f l = None <-> forall x, x ∈ l -> f x = false.
Proof.
  induction l as [|x t IH]; simpl.
  - split; [by intros _ y ?%elem_of_nil|done].
  - destruct (f x) eqn:E.
    + split; [done|]. intros H. specialize (H x). rewrite E in H.
      discriminate H. by left.
    + rewrite IH. split.
      * intros H y [->|?]%elem_of_cons; auto.
      * intros H y ?. apply H. by right.
Qed.

Lemma find_first {A} (f : A -> bool) (before after : list A) x :
  f x = true -> (forall y, y ∈ before -> f y = false) ->
  find f (before ++ x :: after) = Some x.
Proof.
  intros Hx Hb. rewrite find_app.
  rewrite (proj2 (find_none_iff f before) Hb). simpl. by rewrite Hx.
Qed.

Lemma splice_first_replaces_first test order written r sent :
  replaces_first test order written r sent
    (splice_first test order written r sent).
Proof.
  unfold replaces_first, splice_first.
  destruct (test sent) eqn:Et.
  - split; [done|]. split; [done|]. split; [done|].
    split; [|done]. cbn [fst]. split; [done|]. by intros [? _].
  - split; [done|]. split.
    { intros _ H. by rewrite (proj2 (find_none_iff _ _) H). }
    split.
    { intros _ before p after -> Hp Hb. by rewrite find_first. }
    destruct (find (hit test sent) order) eqn:E; cbn [fst snd].
    + split; [|done]. split; [done|]. intros [_ H].
      apply find_some in E as [Hin Hhit].
      rewrite (H p) in Hhit; [done|]. by apply list_elem_of_In.
    + split; [|done]. split; [|done]. intros _. split; [done|].
      by apply find_none_iff.
Qed.

(** C4, as the code has it, for [replace_element].  The function goes
    through its scan order with [==] for the test and raises no
    exception.  The answer is [True] and the tree is left as it is when
    the root itself equals the target.  Else the answer is [False], with
    the tree left as it is, if and only if no node at a position of the
    scan order equals the target; and otherwise the first position of the
    scan order whose node equals the target, and only that one, is
    spliced, with the answer [True]. *)
Theorem replace_first_match sent elt r :
  replaces_first (fun o => py_eq o elt) (scan_order sent) (fun _ => r) r
    sent (replace_element sent elt r).
Proof.
  rewrite replace_element_refines. apply splice_first_replaces_first.
Qed.

Lemma replace_first_match_witness :
  replace_element cats_and_dogs (head_of cats_and_dogs) mice
  = (true, set_slot in_head [mice] cats_and_dogs).
Proof.
  destruct (replace_first_match cats_and_dogs (head_of cats_and_dogs) mice)
    as (_ & _ & H & _).
  apply (H ltac:(reflexivity) [] [(in_head, 0%nat)] [[(in_spec, 0%nat)]]).
  - reflexivity.
  - reflexivity.
  - by intros q ?%elem_of_nil.
Defined.

(** C4 as stated fails on "cats and dogs", a noun phrase with a
    coordination for its head.  The word "cats" is a node of the tree, the
    first coordinate of the head, and equals the target, itself; yet
    [replace_element] answers [False] and leaves the tree as it is, for
    it compares the head and does not search in it.  And for a target
    equal to the root the answer is [True] with nothing replaced. *)
Lemma replace_misses_below_head :
  node_at cats_and_dogs [(in_head, 0%nat); (in_coords, 0%nat)] = Some cats
  /\ surface cats = Some "cats"
  /\ py_eq cats cats = true
  /\ replace_element cats_and_dogs cats mice = (false, cats_and_dogs)
  /\ py_eq cats_and_dogs cats_and_dogs = true
  /\ replace_element cats_and_dogs cats_and_dogs mice
     = (true, cats_and_dogs).
Proof. repeat split; by vm_compute. Qed.

(** *** Slot after slot *)

Section BackwardLoop.

Variable test : Element -> bool.
Variable search : Element -> bool * Element.
Variable r : Element.

Let silent (o : Element) : Prop := test o = false /\ search o = (false, o).

Lemma splice_backward_quiet l :
  Forall silent l -> splice_backward test search r l = (false, l).
Proof.
  induction 1 as [|o t [Ht Hs] _ IH]; [done|].
  simpl. by rewrite IH, Ht, Hs.
Qed.

Lemma splice_backward_last l1 b l2 :
  test b = true -> Forall silent l2 ->
  splice_backward test search r (l1 ++ b :: l2)
  = (true, l1 ++ put_or_delete r l2).
Proof.
  intros Hb Hq. induction l1 as [|o t IH]; simpl.
  - by rewrite (splice_backward_quiet _ Hq), Hb.
  - by rewrite IH.
Qed.

End BackwardLoop.

Lemma unmatched_replace_element elt r o :
  unmatched (fun x => py_eq x elt) scan_order o ->
  py_eq o elt = false /\ replace_element o elt r = (false, o).
Proof.
  intros [Ht Hq]. split; [done|].
  rewrite replace_element_refines. unfold splice_first.
  by rewrite Ht, (proj2 (find_none_iff _ _) Hq).
Qed.

Lemma unmatched_replace_element_with_id next elt_id r o :
  unmatched (fun x => (py_id x =? elt_id)%nat) scan_order_id o ->
  (py_id o =? elt_id)%nat = false
  /\ replace_element_with_id next o elt_id r = (false, o).
Proof.
  intros [Ht Hq]. split; [done|].
  rewrite replace_element_with_id_refines. unfold splice_first.
  by rewrite Ht, (proj2 (find_none_iff _ _) Hq).
Qed.

Lemma quiet_replace_element elt r l :
  quiet (fun x => py_eq x elt) scan_order l ->
  splice_backward (fun x => py_eq x elt)
    (fun o => replace_element o elt r) r l = (false, l).
Proof.
  intros H. apply splice_backward_quiet.
  eapply Forall_impl; [exact H|]. apply unmatched_replace_element.
Qed.

Lemma last_replace_element elt r l l' :
  spliced_at_last (fun x => py_eq x elt) scan_order r l l' ->
  splice_backward (fun x => py_eq x elt)
    (fun o => replace_element o elt r) r l = (true, l').
Proof.
  intros (l1 & b & l2 & -> & Hb & Hq & ->).
  apply splice_backward_last; [done|].
  eapply Forall_impl; [exact Hq|]. apply unmatched_replace_element.
Qed.

Lemma quiet_replace_element_with_id next elt_id r l :
  quiet (fun x => (py_id x =? elt_id)%nat) scan_order_id l ->
  splice_backward (fun x => (py_id x =? elt_id)%nat)
    (fun o => replace_element_with_id next o elt_id r) r l = (false, l).
Proof.
  intros H. apply splice_backward_quiet.
  eapply Forall_impl; [exact H|]. apply unmatched_replace_element_with_id.
Qed.

Lemma last_replace_element_with_id next elt_id r l l' :
  spliced_at_last (fun x => (py_id x =? elt_id)%nat) scan_order_id r l l' ->
  splice_backward (fun x => (py_id x =? elt_id)%nat)
    (fun o => replace_element_with_id next o elt_id r) r l = (true, l').
Proof.
  intros (l1 & b & l2 & -> & Hb & Hq & ->).
  apply splice_backward_last; [done|].
  eapply Forall_impl; [exact Hq|]. apply unmatched_replace_element_with_id.
Qed.

Lemma replace_element_slots sent elt r :
  is_plain_phrase sent || is_noun_phrase sent = true ->
  py_eq sent elt = false ->
  scans_phrase_slots (fun o => py_eq o elt) scan_order true r sent
    (replace_element sent elt r).
Proof.
  intros Hp Ht. unfold scans_phrase_slots.
  destruct sent as [| | | | | |c m fr pr h cm po|m s fr pr h cm po|];
    try discriminate Hp; clear Hp.
  all: cbn [slot set_slot head_of spec_of is_noun_phrase andb head default].
  all: cbn [replace_element]; rewrite Ht.
  all: repeat split.
  all: repeat match goal with
         | |- forall _, _ => intro
         end.
  all: repeat match goal with
         | H : quiet _ _ _ |- _ =>
             rewrite (quiet_replace_element _ r _ H); clear H
         | H : spliced_at_last _ _ _ _ _ |- _ =>
             rewrite (last_replace_element _ _ _ _ H); clear H
         | H : py_eq _ _ = _ |- _ => rewrite H
         end; try done.
Qed.

Lemma replace_element_with_id_slots next sent elt_id r :
  is_plain_phrase sent || is_noun_phrase sent = true ->
  (py_id sent =? elt_id)%nat = false ->
  scans_phrase_slots (fun o => (py_id o =? elt_id)%nat) scan_order_id false
    r sent (replace_element_with_id next sent elt_id r).
Proof.
  intros Hp Ht. unfold scans_phrase_slots.
  destruct sent as [| | | | | |c m fr pr h cm po|m s fr pr h cm po|];
    try discriminate Hp; clear Hp.
  all: cbn [slot set_slot head_of spec_of is_noun_phrase andb head default].
  all: cbn [replace_element_with_id]; rewrite Ht.
  all: repeat split.
  all: repeat match goal with
         | |- forall _, _ => intro
         end.
  all: repeat match goal with
         | H : quiet _ _ _ |- _ =>
             rewrite (quiet_replace_element_with_id next _ r _ H); clear H
         | H : spliced_at_last _ _ _ _ _ |- _ =>
             rewrite (last_replace_element_with_id next _ _ _ _ H); clear H
         | H : (_ =? _)%nat = _ |- _ => rewrite H
         end; try done.
Qed.

(** * Further properties *)

(** ** Equality is an equivalence *)

Lemma pyid_eq_true a b : pyid_eq a b = true <-> a = b.
Proof.
  destruct a, b; simpl; try (split; [discriminate|congruence]).
  - rewrite Z.eqb_eq. split; congruence.
  - rewrite String.eqb_eq. split; congruence.
  - done.
Qed.

Lemma opt_Z_eq_true a b : opt_Z_eq a b = true <-> a = b.
Proof.
  destruct a, b; simpl; try (split; [discriminate|congruence]).
  - rewrite Z.eqb_eq. split; congruence.
  - done.
Qed.

Lemma features_eq_true a b : features_eq a b = true <-> a = b.
Proof. unfold features_eq. by rewrite bool_decide_eq_true. Qed.

(** [Element.__eq__] holds when both are elements with the same type tag,
    [id] and features. *)
Lemma Element_eq_true a b :
  Element_eq a b = true <->
  exists ma mb, meta a = Some ma /\ meta b = Some mb
    /\ _type a = _type b /\ eid ma = eid mb /\ features ma = features mb.
Proof.
  unfold Element_eq.
  destruct (meta a) as [ma|], (meta b) as [mb|].
  - rewrite !andb_true_iff, opt_Z_eq_true, pyid_eq_true, features_eq_true.
    split.
    + intros [[? ?] ?]. by exists ma, mb.
    + intros (? & ? & [= <-] & [= <-] & ? & ? & ?). done.
  - split; [done|]. by intros (? & ? & _ & ? & _).
  - split; [done|]. by intros (? & ? & ? & _).
  - split; [done|]. by intros (? & ? & ? & _).
Qed.

Lemma Element_eq_refl a : is_none a = false -> Element_eq a a = true.
Proof.
  intros H. apply Element_eq_true.
  destruct (meta a) as [m|] eqn:E; [by exists m, m|by destruct a].
Qed.

Lemma Element_eq_sym a b : Element_eq a b = true -> Element_eq b a = true.
Proof.
  rewrite !Element_eq_true. intros (ma & mb & ? & ? & ? & ? & ?).
  by exists mb, ma.
Qed.

Lemma Element_eq_trans a b c :
  Element_eq a b = true -> Element_eq b c = true -> Element_eq a c = true.
Proof.
  rewrite !Element_eq_true.
  intros (ma & mb & ? & ? & ? & ? & ?) (mb' & mc & ? & ? & ? & ? & ?).
  exists ma, mc. simplify_eq. repeat split; congruence.
Qed.

Section ListEq.

Context {A : Type} (eq : A -> A -> bool).

Lemma list_eq_refl l :
  Forall (fun x => eq x x = true) l -> list_eq eq l l = true.
Proof. induction 1 as [|x t Hx _ IH]; simpl; [done|]. by rewrite Hx, IH. Qed.

Lemma list_eq_sym l :
  Forall (fun x => forall y, eq x y = true -> eq y x = true) l ->
  forall l', list_eq eq l l' = true -> list_eq eq l' l = true.
Proof.
  induction 1 as [|x t Hx _ IH]; intros [|y t']; simpl; try done.
  rewrite !andb_true_iff. intros [? ?]. split; auto.
Qed.

Lemma list_eq_trans l :
  Forall (fun x => forall y z, eq x y = true -> eq y z = true ->
                               eq x z = true) l ->
  forall l' l'', list_eq eq l l' = true -> list_eq eq l' l'' = true ->
                 list_eq eq l l'' = true.
Proof.
  induction 1 as [|x t Hx _ IH]; intros [|y t'] [|z t'']; simpl; try done.
  rewrite !andb_true_iff. intros [? ?] [? ?]. split; eauto.
Qed.

End ListEq.

Ltac split_andb :=
  repeat match goal with
    | H : _ && _ = true |- _ => apply andb_true_iff in H as [? ?]
    | |- _ && _ = true => apply andb_true_iff; split
    end.

Lemma py_eq_refl e : py_eq e e = true.
Proof.
  element_induction e; cbn [py_eq]; try done.
  all: rewrite ?String.eqb_refl, ?Element_eq_refl by done.
  all: rewrite ?(proj2 (pyid_eq_true _ _) eq_refl),
         ?(proj2 (opt_Z_eq_true _ _) eq_refl).
  all: rewrite ?list_eq_refl by done.
  all: try match goal with H : py_eq _ _ = true |- _ => rewrite ?H end.
  all: rewrite ?IHe, ?IHe1, ?IHe2; try done.
Qed.

Lemma phrase_is_no_noun_phrase c :
  opt_Z_eq (Some (phrase_type c)) (Some NOUN_PHRASE) = false.
Proof. by destruct c. Qed.

Lemma noun_phrase_is_no_phrase c :
  opt_Z_eq (Some NOUN_PHRASE) (Some (phrase_type c)) = false.
Proof. by destruct c. Qed.

Lemma opt_Z_eq_sym a b : opt_Z_eq a b = true -> opt_Z_eq b a = true.
Proof. rewrite !opt_Z_eq_true. congruence. Qed.

Lemma pyid_eq_sym a b : pyid_eq a b = true -> pyid_eq b a = true.
Proof. rewrite !pyid_eq_true. congruence. Qed.

Lemma string_eqb_sym a b : String.eqb a b = true -> String.eqb b a = true.
Proof. rewrite !String.eqb_eq. congruence. Qed.

Lemma opt_Z_eq_trans a b c :
  opt_Z_eq a b = true -> opt_Z_eq b c = true -> opt_Z_eq a c = true.
Proof. rewrite !opt_Z_eq_true. congruence. Qed.

Lemma pyid_eq_trans a b c :
  pyid_eq a b = true -> pyid_eq b c = true -> pyid_eq a c = true.
Proof. rewrite !pyid_eq_true. congruence. Qed.

Lemma string_eqb_trans a b c :
  String.eqb a b = true -> String.eqb b c = true -> String.eqb a c = true.
Proof. rewrite !String.eqb_eq. congruence. Qed.

Ltac eq_absurd :=
  match goal with
  | H : Element_eq (EElement _) (EPhrase ?c _ _ _ _ _ _) = true |- _ =>
      by destruct c
  | H : Element_eq (EPhrase ?c _ _ _ _ _ _) (EElement _) = true |- _ =>
      by destruct c
  | H : opt_Z_eq (_type (EPhrase _ _ _ _ _ _ _))
          (_type (ENounPhrase _ _ _ _ _ _ _)) = true |- _ =>
      cbn [_type] in H; by rewrite phrase_is_no_noun_phrase in H
  | H : opt_Z_eq (_type (ENounPhrase _ _ _ _ _ _ _))
          (_type (EPhrase _ _ _ _ _ _ _)) = true |- _ =>
      cbn [_type] in H; by rewrite noun_phrase_is_no_phrase in H
  end.

Lemma py_eq_sym_imp a : forall b, py_eq a b = true -> py_eq b a = true.
Proof.
  element_induction a; intros o; destruct o; cbn [py_eq];
    try discriminate; try done.
  all: try by (intros; eq_absurd).
  all: try by apply Element_eq_sym.
  all: intros; split_andb; try eq_absurd.
  all: try by apply Element_eq_sym.
  all: try by apply opt_Z_eq_sym.
  all: try by apply pyid_eq_sym.
  all: try by apply string_eqb_sym.
  all: try by (eapply list_eq_sym; [|eassumption]).
  all: auto.
Qed.

Lemma py_eq_trans_imp a :
  forall b c, py_eq a b = true -> py_eq b c = true -> py_eq a c = true.
Proof.
  element_induction a; intros o o'; destruct o; cbn [py_eq];
    try discriminate; try done.
  all: destruct o'; cbn [py_eq]; try discriminate; try done.
  all: try by (intros; eq_absurd).
  all: try by apply Element_eq_trans.
  all: intros; split_andb; try eq_absurd.
  all: try by (eapply Element_eq_trans; eassumption).
  all: try by (eapply opt_Z_eq_trans; eassumption).
  all: try by (eapply pyid_eq_trans; eassumption).
  all: try by (eapply string_eqb_trans; eassumption).
  all: try by (eapply list_eq_trans; [|eassumption|eassumption]).
  all: eauto.
Qed.

(** X1.  [==] on elements (the [__eq__] methods) is an equivalence: every
    element, and [None], equals itself; [a == b] and [b == a] agree; and
    [a == b] with [b == c] gives [a == c]. *)
Theorem py_eq_equivalence :
  (forall a, py_eq a a = true)
  /\ (forall a b, py_eq a b = py_eq b a)
  /\ (forall a b c, py_eq a b = true -> py_eq b c = true -> py_eq a c = true).
Proof.
  split; [exact py_eq_refl|]. split; [|exact py_eq_trans_imp].
  intros a b.
  destruct (py_eq a b) eqn:Hab, (py_eq b a) eqn:Hba; try done.
  - by rewrite (py_eq_sym_imp _ _ Hab) in Hba.
  - by rewrite (py_eq_sym_imp _ _ Hba) in Hab.
Qed.

(** ** What equality does not look at *)

Lemma Element_eq_with_meta f a b :
  (forall m, eid (f m) = eid m /\ features (f m) = features m) ->
  Element_eq (with_meta f a) b = Element_eq a b.
Proof.
  intros Hf. unfold Element_eq.
  destruct a; cbn [with_meta meta _type]; try done.
  all: destruct (meta b); try done.
  all: by destruct (Hf m) as [-> ->].
Qed.

Lemma py_eq_with_meta f a b :
  (forall m, eid (f m) = eid m /\ features (f m) = features m) ->
  py_eq (with_meta f a) b = py_eq a b.
Proof.
  intros Hf. pose proof (Element_eq_with_meta f a b Hf) as HE.
  destruct a; cbn [with_meta py_eq] in *; try done.
  all: destruct b; try done.
  all: rewrite ?HE; try done.
  by destruct (Hf m) as [-> _].
Qed.

(** X2.  What [==] does not look at: the identity of an object, its cached
    hash and its parent; the [base] of a [Word]; the front modifiers of a
    [Clause]; and the pre-modifiers, complements and post-modifiers of a
    [Coordination]. *)
Theorem py_eq_ignores :
  (forall e n h p, py_eq (relocated n h p e) e = true)
  /\ (forall m w p b b', py_eq (EWord m w p b) (EWord m w p b') = true)
  /\ (forall m fr fr' pr s v cm po,
      py_eq (EClause m fr pr s v cm po) (EClause m fr' pr s v cm po) = true)
  /\ (forall m cs cj pr cm po pr' cm' po',
      py_eq (ECoordination m cs cj pr cm po)
        (ECoordination m cs cj pr' cm' po') = true).
Proof.
  split; [|split; [|split]].
  - intros e n h p. unfold relocated.
    rewrite py_eq_with_meta by done. apply py_eq_refl.
  - intros m w p b b'.
    pose proof (py_eq_refl (EWord m w p b)) as H. cbn [py_eq] in *.
    split_andb; try done; by apply Element_eq_refl.
  - intros m fr fr' pr s v cm po.
    pose proof (py_eq_refl (EClause m fr pr s v cm po)) as H.
    cbn [py_eq] in *. split_andb; try done; by apply Element_eq_refl.
  - intros m cs cj pr cm po pr' cm' po'.
    pose proof (py_eq_refl (ECoordination m cs cj pr cm po)) as H.
    cbn [py_eq] in *. split_andb; try done; by apply Element_eq_refl.
Qed.

(** ** Hashing and equality *)

Section HashingMore.

Variable hash_str : string -> Z.
Variable hash_tuple : list Z -> Z.
Variable hash_none : Z.

Let hash_of := py_hash hash_str hash_tuple hash_none.

Lemma Element_hash_fresh m m' :
  hash m = -1 -> hash m' = -1 ->
  eid m = eid m' -> features m = features m' ->
  (Element_hash hash_str hash_tuple hash_none m).2
  = (Element_hash hash_str hash_tuple hash_none m').2.
Proof.
  intros H H' Hi Hf. unfold Element_hash. by rewrite H, H', Hi, Hf.
Qed.

(** X3.  Equal elements hash alike when neither hash was computed before:
    for an [Element], a [String] or a [Word] [a] and any [b] with
    [a == b], both with an empty hash cache, [hash(a)] and [hash(b)] are
    the same integer. *)
Theorem equal_leaves_hash_alike a b :
  is_plain_leaf a = true ->
  cached_hash a = -1 -> cached_hash b = -1 ->
  py_eq a b = true ->
  (hash_of a).2 = (hash_of b).2.
Proof.
  intros Hl Ha Hb Heq.
  destruct a; try discriminate Hl; destruct b; cbn [py_eq] in Heq;
    try discriminate Heq.
  all: try (exfalso; revert Heq; unfold Element_eq; cbn;
            match goal with c : PhraseClass |- _ => by destruct c end).
  all: cbn [cached_hash meta] in Ha, Hb.
  all: split_andb.
  all: repeat match goal with
         | H : String.eqb _ _ = true |- _ => apply String.eqb_eq in H as ->
         | H : Element_eq _ _ = true |- _ =>
             apply Element_eq_true in H
               as (? & ? & [= <-] & [= <-] & _ & Hi & Hf)
         end.
  all: try match goal with
         | H : Element_eq _ _ = true |- _ => idtac
         end.
  all: cbn [hash_of py_hash]; rewrite ?Ha, ?Hb; cbn [Z.eqb Pos.eqb].
  all: pose proof (Element_hash_fresh _ _ Ha Hb Hi Hf) as HE.
  all: destruct (Element_hash _ _ _ _) as [? ?],
         (Element_hash _ _ _ _) as [? ?]; cbn [snd] in *; by subst.
Qed.

End HashingMore.

Lemma equal_leaves_hash_alike_witness :
  (py_hash (fun _ => 5) (fun _ => 3) 0 (referent_named "a")).2
  = (py_hash (fun _ => 5) (fun _ => 3) 0
       (relocated 2 (-1) (Some 7%nat) (referent_named "a"))).2.
Proof. apply equal_leaves_hash_alike; reflexivity. Defined.

Section HashCache.

Variable hash_str : string -> Z.
Variable hash_tuple : list Z -> Z.
Variable hash_none : Z.

Let hash_of := py_hash hash_str hash_tuple hash_none.

Lemma features_eq_insert (f : gmap string string) k v :
  f !! k <> Some v -> features_eq (<[k := v]> f) f = false.
Proof.
  intros H. unfold features_eq. apply bool_decide_eq_false.
  intros E. apply H. rewrite <- E. apply lookup_insert_eq.
Qed.

(** X4.  A hash is computed once.  For an [Element], [String], [Word] or
    [Var] whose hash cache is filled, [set_feature] leaves [hash(e)] as it
    was, while the element with the new feature value no longer equals
    the element as it was. *)
Theorem hash_is_cached e k v :
  is_leaf e = true ->
  cached_hash e <> -1 ->
  (hash_of (set_feature k v e)).2 = (hash_of e).2
  /\ (hash_of e).2 = Ok (slot_hash (cached_hash e))
  /\ (features_of e !! k <> Some v -> py_eq (set_feature k v e) e = false).
Proof.
  intros Hl Hc.
  destruct e; try discriminate Hl; cbn [cached_hash meta] in Hc.
  all: apply Z.eqb_neq in Hc.
  all: cbn [set_feature with_meta hash_of py_hash set_features hash
            Element_hash cached_hash meta].
  all: unfold Element_hash; cbn [hash set_features]; rewrite ?Hc.
  all: split; [reflexivity|]; split; [reflexivity|].
  all: cbn [features_of meta]; intros Hk.
  all: cbn [py_eq]; unfold Element_eq; cbn [meta features set_features].
  all: rewrite (features_eq_insert _ _ _ Hk).
  all: by rewrite ?andb_false_r.
Qed.

End HashCache.

Lemma hash_is_cached_witness :
  (py_hash (fun _ => 5) (fun _ => 3) 0 (set_feature "x" "y" hashed_a)).2
  = Ok 42
  /\ py_eq (set_feature "x" "y" hashed_a) hashed_a = false.
Proof.
  destruct (hash_is_cached (fun _ => 5) (fun _ => 3) 0 hashed_a "x" "y")
    as (H1 & H2 & H3); [reflexivity|cbn; lia|].
  split; [by rewrite H1, H2|]. apply H3. by vm_compute.
Defined.

(** ** Deep copies *)

Lemma mapM_Py_length {A B} (f : A -> Py B) l n l' n' :
  mapM f l n = (Ok l', n') -> List.length l' = List.length l.
Proof.
  revert n l'. induction l as [|x t IH]; intros n l'; cbn [mapM].
  - by intros [= <- _].
  - unfold mbind, Py_bind at 1.
    destruct (f x n) as [[y|e] n1]; [|discriminate].
    unfold mbind, Py_bind at 1.
    destruct (mapM f t n1) as [[k|e] n2] eqn:E; [|discriminate].
    intros [= <- <-]. simpl. f_equal. by eapply IH.
Qed.

(** X5.  [deepcopy] of an [Element], a [String] or a [Var] with a value
    gives a new object, with the next identity token, that differs from
    the original in its identity only (so it equals the original and has
    its cached hash); the copy of a [Var] holds the value object of the
    original, not a copy of it.  The copy of a [Word] is a new object as
    well, and it equals the original if and only if the feature [cat] of
    the original still is its part of speech. *)
Theorem deepcopy_leaf n :
  (forall e, copied_by_attributes e = true ->
     deepcopy e n
     = (Ok (relocated n (cached_hash e) (parent_of e) e), S n))
  /\ (forall m w p b, exists c,
       deepcopy (EWord m w p b) n = (Ok c, S n)
       /\ py_id c = n
       /\ cached_hash c = hash m
       /\ (py_eq c (EWord m w p b) = true <-> features m !! "cat" = Some p)).
Proof.
  split.
  - intros e He. destruct e; try discriminate He; try reflexivity.
    cbn [copied_by_attributes] in He. cbn [deepcopy].
    unfold new_Var, new_meta, fresh, mbind, Py_bind, mret, Py_ret.
    apply negb_true_iff in He. by rewrite He.
  - intros m w p b. eexists. split; [reflexivity|].
    split; [reflexivity|]. split; [reflexivity|].
    cbn [copy_hash copy_id set_feature with_meta py_eq].
    rewrite !String.eqb_refl. cbn [andb].
    unfold Element_eq. cbn.
    rewrite (proj2 (pyid_eq_true _ _) eq_refl). cbn [andb].
    rewrite features_eq_true. split.
    + intros E. rewrite <- E. apply lookup_insert_eq.
    + intros E. by apply insert_id.
Qed.

Lemma new_HeadPhrase_run c head feats par n :
  exists m' h' n',
    new_HeadPhrase c head feats par n = (Ok (EPhrase c m' [] [] h' [] []), n').
Proof. destruct head; cbn; eauto. Qed.

(** X6.  [deepcopy] of a [VerbPhrase], [PrepositionalPhrase],
    [AdverbPhrase] or [AdjectivePhrase] copies the head and the
    complements only: the copy has as many complements as the original and
    no front modifiers, pre-modifiers or post-modifiers, and it is not
    equal to an original that has some. *)
Theorem deepcopy_head_phrase c m fr pr h cm po n e n' :
  c <> Phrase ->
  deepcopy (EPhrase c m fr pr h cm po) n = (Ok e, n') ->
  front_modifiers_of e = [] /\ pre_modifiers_of e = []
  /\ post_modifiers_of e = []
  /\ List.length (complements_of e) = List.length cm
  /\ (fr ++ pr ++ po <> [] -> py_eq e (EPhrase c m fr pr h cm po) = false).
Proof.
  intros Hc.
  assert (deepcopy (EPhrase c m fr pr h cm po) n = (Ok e, n') ->
          exists m' h' cm', e = EPhrase c m' [] [] h' cm' []
                            /\ List.length cm' = List.length cm) as Hshape.
  { destruct c; try done; cbn [deepcopy].
    all: unfold mbind, Py_bind at 1.
    all: destruct (deepcopy h n) as [[h'|x] n1]; [|discriminate].
    all: unfold mbind, Py_bind at 1.
    all: match goal with
         | |- context [new_HeadPhrase ?k ?a ?f ?p ?q] =>
             destruct (new_HeadPhrase_run k a f p q)
               as (m' & hh & n2 & ->)
         end.
    all: unfold mbind, Py_bind at 1.
    all: destruct (mapM deepcopy cm n2) as [[cm'|x] n3] eqn:Ecm;
           [|discriminate].
    all: apply mapM_Py_length in Ecm.
    all: cbn; intros [= <- <-]; eauto. }
  intros H. destruct (Hshape H) as (m' & h' & cm' & -> & Hlen).
  cbn. repeat split; try done.
  intros Hne. destruct fr, pr, po; try done; cbn [list_eq];
    by rewrite ?andb_false_r.
Qed.

Lemma deepcopy_head_phrase_witness :
  List.length (pre_modifiers_of very_red) = 1%nat
  /\ pre_modifiers_of very_red_copy = []
  /\ py_eq very_red_copy very_red = false.
Proof.
  split; [reflexivity|].
  destruct (deepcopy_head_phrase AdjectivePhrase _ _ _ _ _ _ 5%nat
              very_red_copy 8%nat ltac:(congruence)
              (eq_refl : deepcopy very_red 5%nat = (Ok very_red_copy, 8%nat)))
    as (_ & Hpre & _ & _ & Hne).
  split; [exact Hpre|]. apply Hne. by vm_compute.
Defined.

(** ** Features *)

(** X7.  Setting and reading a feature.  After [set_feature(k, v)] the
    feature is there with the value [v], for [get_feature], [feature] and
    [has_feature] alike, and the other features are as they were; a
    feature that is not there makes [get_feature] raise [KeyError], while
    [feature] gives [None] and [has_feature] answers [False]. *)
Theorem set_feature_get_feature e k v :
  is_none e = false ->
  get_feature k (set_feature k v e) = Ok v
  /\ feature k (set_feature k v e) = Some v
  /\ Element_has_feature k None (set_feature k v e) = true
  /\ Element_has_feature k (Some v) (set_feature k v e) = true
  /\ (forall k', k' <> k ->
        feature k' (set_feature k v e) = feature k' e)
  /\ (feature k e = None ->
        get_feature k e = Raise KeyError
        /\ forall value, Element_has_feature k value e = false).
Proof.
  intros He.
  assert (features_of (set_feature k v e) = <[k := v]> (features_of e)) as E
    by (by destruct e).
  unfold get_feature, feature, Element_has_feature. rewrite E.
  rewrite lookup_insert_eq, String.eqb_refl.
  do 4 (split; [done|]). split.
  - intros k' Hk. by rewrite lookup_insert_ne.
  - by intros ->.
Qed.

Lemma set_feature_get_feature_witness :
  get_feature "x" (set_feature "x" "y" hashed_a) = Ok "y".
Proof.
  by destruct (set_feature_get_feature hashed_a "x" "y") as (H & _);
    [reflexivity|].
Defined.

(** X8.  Deleting a feature whose value is a string.  [del_feature(k)],
    without a value, deletes nothing: the element stays as it is, whatever
    string is stored under [k].
    [del_feature(k, v)] deletes the feature [k] whatever value it has,
    equal to [v] or not, and leaves the other features; so does
    [__delitem__], which raises nothing for a feature that is not
    there. *)
Theorem del_feature_deletes e k :
  del_feature k None e = e
  /\ (forall v, feature k (del_feature k (Some v) e) = None
        /\ forall k', k' <> k ->
             feature k' (del_feature k (Some v) e) = feature k' e)
  /\ feature k (delitem k e) = None
  /\ (feature k e = None -> delitem k e = e).
Proof.
  unfold del_feature, delitem, feature.
  destruct (features_of e !! k) as [x|] eqn:Ek.
  - repeat split; try done.
    all: destruct e; try done; cbn [features_of meta with_meta set_features
                                     features] in *.
    all: try by rewrite lookup_delete_eq.
    all: intros; by rewrite lookup_delete_ne.
  - repeat split; done.
Qed.

(** ** The object of a verb phrase *)

Lemma remove_object_in_filter cm :
  forallb (fun c => negb (is_none c)) cm = true ->
  remove_object_in cm
  = Ok (List.filter (fun c => negb (object_complement c)) cm).
Proof.
  induction cm as [|c t IH]; [done|]. cbn [forallb].
  rewrite andb_true_iff, negb_true_iff. intros [Hc Ht].
  cbn [remove_object_in List.filter]. unfold is_object. rewrite Hc.
  cbn [mbind Res_bind]. rewrite (IH Ht). cbn [mbind Res_bind].
  unfold object_complement. by destruct (has_feature _ _ c).
Qed.

Lemma get_object_in_none cm :
  forallb (fun c => negb (is_none c)) cm = true ->
  get_object_in (List.filter (fun c => negb (object_complement c)) cm)
  = Ok PyNone.
Proof.
  induction cm as [|c t IH]; [done|]. cbn [forallb].
  rewrite andb_true_iff, negb_true_iff. intros [Hc Ht].
  cbn [List.filter]. unfold object_complement at 1.
  destruct (has_feature _ _ c) eqn:E; cbn [negb]; [by apply IH|].
  cbn [get_object_in]. unfold is_object. rewrite Hc.
  cbn [mbind Res_bind]. rewrite E. by apply IH.
Qed.

Lemma object_complement_set obj :
  is_none obj = false ->
  object_complement (set_feature "discourseFunction" "OBJECT" obj) = true.
Proof.
  intros H. unfold object_complement, has_feature.
  replace (features_of (set_feature "discourseFunction" "OBJECT" obj))
    with (<["discourseFunction" := "OBJECT"]> (features_of obj))
    by (by destruct obj).
  by rewrite lookup_insert_eq.
Qed.

Lemma filter_filter_negb {A} (f : A -> bool) l :
  List.filter f (List.filter (fun x => negb (f x)) l) = [].
Proof.
  induction l as [|x t IH]; [done|]. cbn [List.filter].
  destruct (f x) eqn:E; cbn [negb List.filter]; by rewrite ?E.
Qed.

(** X9.  The object of a verb phrase can be set and read back.  For a
    verb phrase without [None] among its complements and an object that
    is not [None], [set_object(obj)] succeeds; afterwards [get_object()]
    returns [obj], now tagged with the discourse function [OBJECT]; it is
    the first complement and the only one that is an object, and the
    complements that were no objects follow it in their order. *)
Theorem set_object_get_object vp obj :
  is_verb_phrase vp = true ->
  complements_set vp = true ->
  is_none obj = false ->
  let obj' := set_feature "discourseFunction" "OBJECT" obj in
  exists vp',
    set_object obj vp = Ok vp'
    /\ get_object vp' = Ok obj'
    /\ complements_of vp'
       = obj' :: List.filter (fun c => negb (object_complement c))
                   (complements_of vp)
    /\ List.filter object_complement (complements_of vp') = [obj'].
Proof.
  intros Hvp Hcm Hobj obj'.
  destruct vp as [| | | | | |[] m fr pr h cm po| |]; try discriminate Hvp.
  unfold complements_set in Hcm. cbn [complements_of] in *.
  assert (is_none obj' = false) as Hn by (by destruct obj).
  pose proof (object_complement_set obj Hobj) as Ho. fold obj' in Ho.
  unfold set_object, remove_object.
  rewrite (remove_object_in_filter _ Hcm). cbn [mbind Res_bind].
  rewrite Hobj. fold obj'. clearbody obj'.
  eexists. split; [reflexivity|].
  cbn [get_object get_object_in complements_of].
  unfold is_object. rewrite Hn. cbn [mbind Res_bind].
  unfold object_complement in Ho. rewrite Ho.
  split; [done|]. split; [done|].
  cbn [List.filter]. unfold object_complement at 1. rewrite Ho.
  by rewrite filter_filter_negb.
Qed.

(** X10.  Removing the object of a verb phrase.  For a verb phrase
    without [None] among its complements, [remove_object()] and
    [set_object(None)] both leave exactly the complements that were no
    objects, in their order, and [get_object()] then returns [None]. *)
Theorem remove_object_get_object vp :
  is_verb_phrase vp = true ->
  complements_set vp = true ->
  exists vp',
    remove_object vp = Ok vp'
    /\ set_object PyNone vp = Ok vp'
    /\ get_object vp' = Ok PyNone
    /\ complements_of vp'
       = List.filter (fun c => negb (object_complement c))
           (complements_of vp).
Proof.
  intros Hvp Hcm.
  destruct vp as [| | | | | |[] m fr pr h cm po| |]; try discriminate Hvp.
  unfold complements_set in Hcm. cbn [complements_of] in *.
  unfold set_object, remove_object.
  rewrite (remove_object_in_filter _ Hcm). cbn [mbind Res_bind is_none].
  eexists. split; [reflexivity|]. split; [reflexivity|].
  cbn [get_object complements_of]. split; [|done].
  by apply get_object_in_none.
Qed.

Lemma set_object_get_object_witness :
  exists vp',
    set_object (referent_named "it") (vp_of john_sees_mary) = Ok vp'
    /\ get_object vp'
       = Ok (set_feature "discourseFunction" "OBJECT" (referent_named "it")).
Proof.
  destruct (set_object_get_object (vp_of john_sees_mary)
              (referent_named "it")) as (vp' & H1 & H2 & _);
    [reflexivity..|].
  exists vp'. by split.
Defined.

Lemma remove_object_get_object_witness :
  exists vp',
    remove_object (vp_of john_sees_mary) = Ok vp'
    /\ get_object vp' = Ok PyNone.
Proof.
  destruct (remove_object_get_object (vp_of john_sees_mary))
    as (vp' & H1 & _ & H2 & _); [reflexivity..|].
  exists vp'. by split.
Defined.

(** ** Message specifications *)

(** X11.  A negative index counts from the end of the arguments:
    [value_for(i)] with [-len(args) <= i < 0] returns the argument at
    [len(args) + i], and below that it raises [IndexError], not
    [SignatureError]; the message is left as it was. *)
Theorem value_for_negative_index {V} (int_of_str : string -> option Z)
    (msg : PredicateMsg V) (i : Z) :
  i < 0 ->
  (- Z.of_nat (List.length (args msg)) <= i ->
   exists v,
     args msg !! Z.to_nat (Z.of_nat (List.length (args msg)) + i) = Some v
     /\ value_for int_of_str msg (KeyInt i) = (msg, Ok v))
  /\ (i < - Z.of_nat (List.length (args msg)) ->
      value_for int_of_str msg (KeyInt i) = (msg, Raise IndexError)).
Proof.
  intros Hi. unfold value_for.
  rewrite (proj2 (Z.leb_gt (Z.of_nat (List.length (args msg))) i))
    by lia.
  unfold py_index. rewrite (proj2 (Z.ltb_lt i 0) Hi).
  split; intros H.
  - rewrite (proj2 (Z.ltb_ge _ 0)) by lia.
    destruct (lookup_lt_is_Some_2 (args msg)
                (Z.to_nat (i + Z.of_nat (List.length (args msg)))))
      as [v Hv]; [lia|].
    exists v. rewrite Hv. split; [|done].
    by rewrite Z.add_comm.
  - by rewrite (proj2 (Z.ltb_lt _ 0)) by lia.
Qed.

Lemma value_for_negative_index_witness :
  let msg := mkPredicateMsg "on" "on" ["a"; "b"] ∅ (fun _ => None) in
  value_for (fun _ => None) msg (KeyInt (-1)) = (msg, Ok "b")
  /\ value_for (fun _ => None) msg (KeyInt (-3)) = (msg, Raise IndexError).
Proof.
  cbv zeta.
  destruct (value_for_negative_index (fun _ => None)
              (mkPredicateMsg "on" "on" ["a"; "b"] ∅ (fun _ => None)) (-1))
    as [H _]; [lia|].
  destruct H as (v & Hv & ->); [simpl; lia|].
  simpl in Hv. injection Hv as <-. split; [done|].
  apply (value_for_negative_index (fun _ => None)
           (mkPredicateMsg "on" "on" ["a"; "b"] ∅ (fun _ => None)) (-3));
    simpl; lia.
Defined.

(** A [str] key.  A key that [int] converts is the index it stands
    for; any other key names an attribute of the message: [value_for]
    raises [ValueError] when there is no such attribute or it cannot be
    called, and returns what the call returns otherwise.  The message is
    left as it was. *)
Theorem value_for_named {V} (int_of_str : string -> option Z)
    (msg : PredicateMsg V) (s : string) :
  (forall z, int_of_str s = Some z ->
     value_for int_of_str msg (KeyStr s)
     = value_for int_of_str msg (KeyInt z))
  /\ (int_of_str s = None ->
      (value_for int_of_str msg (KeyStr s)).1 = msg
      /\ (attrs V msg s = None \/ attrs V msg s = Some None ->
          (value_for int_of_str msg (KeyStr s)).2 = Raise ValueError)
      /\ (forall r, attrs V msg s = Some (Some r) ->
          (value_for int_of_str msg (KeyStr s)).2 = r)).
Proof.
  unfold value_for, MsgSpec_value_for. split.
  - by intros z ->.
  - intros ->. cbn [fst snd]. split; [done|]. split.
    + by intros [-> | ->].
    + by intros r ->.
Qed.

(** ** Printing visitors *)

Lemma length_removelast {A} (l : list A) :
  List.length (removelast l) = pred (List.length l).
Proof.
  induction l as [|x [|y t] IH]; try done.
  change (removelast (x :: y :: t)) with (x :: removelast (y :: t)).
  cbn [List.length] in *. by rewrite IH.
Qed.

Lemma exit_enter tag v : exit (enter tag v) = Some v.
Proof.
  unfold exit, enter. cbn [ancestors depth indent sep].
  rewrite length_app, removelast_last. cbn [List.length].
  replace (List.length (ancestors v) + 1 =? 0)%nat with false
    by (symmetry; apply Nat.eqb_neq; lia).
  destruct v as [a d i s]. cbn. f_equal. f_equal. lia.
Qed.

Lemma calls_succeed cs : forall v,
  is_Some (calls cs v) <->
  forall k, 0 <= Z.of_nat (List.length (ancestors v)) + entered (take k cs).
Proof.
  induction cs as [|[tag|] t IH]; intros v; cbn [calls].
  - split; [|by eauto]. intros _ k. rewrite take_nil. cbn. lia.
  - rewrite IH. cbn [enter ancestors]. rewrite length_app. cbn [List.length].
    split; intros H k.
    + destruct k as [|k]; cbn [take entered]; [lia|].
      specialize (H k). lia.
    + specialize (H (S k)). cbn [take entered] in H. lia.
  - unfold exit.
    destruct (Nat.eqb_spec (List.length (ancestors v)) 0) as [E|E].
    + split; [by intros [? [=]]|]. intros H. specialize (H 1%nat).
      cbn [take entered] in H. rewrite take_0 in H. cbn in H. lia.
    + rewrite IH. cbn [ancestors]. rewrite length_removelast.
      split; intros H k.
      * destruct k as [|k]; cbn [take entered]; [lia|].
        specialize (H k). lia.
      * specialize (H (S k)). cbn [take entered] in H. lia.
Qed.

Lemma calls_invariant cs : forall v v',
  calls cs v = Some v' ->
  Z.of_nat (List.length (ancestors v'))
  = Z.of_nat (List.length (ancestors v)) + entered cs
  /\ depth v' = depth v + entered cs
  /\ indent v' = indent v /\ sep v' = sep v.
Proof.
  induction cs as [|[tag|] t IH]; intros v v'; cbn [calls entered].
  - intros [= <-]. repeat split; lia.
  - intros H. apply IH in H as (H1 & H2 & H3 & H4).
    cbn [enter ancestors depth indent sep] in *.
    rewrite length_app in H1. cbn [List.length] in H1.
    repeat split; try done; lia.
  - unfold exit.
    destruct (Nat.eqb_spec (List.length (ancestors v)) 0) as [E|E];
      [done|].
    intros H. apply IH in H as (H1 & H2 & H3 & H4).
    cbn [ancestors depth indent sep] in *.
    rewrite length_removelast in H1. repeat split; try done; lia.
Qed.

(** X12.  The bracketing of a printing visitor.  [exit] after [enter]
    gives the visitor back.  A sequence of calls of [enter] and [exit]
    runs without the exception of [exit] if and only if no part of it from
    the start has more exits than there were ancestors and enters before;
    then the number of ancestors and the depth have both moved by the
    enters less the exits, and the indentation unit and the separator are
    as they were.  So the depth of a [PrintVisitor] never falls below the
    depth it was created with, while an [XmlVisitor], created with the
    ancestor ['child'], allows one [exit] more, down to one level below. *)
Theorem visitor_bracketing cs v :
  (forall tag, exit (enter tag v) = Some v)
  /\ (is_Some (calls cs v) <->
      forall k,
        0 <= Z.of_nat (List.length (ancestors v)) + entered (take k cs))
  /\ (forall v', calls cs v = Some v' ->
        Z.of_nat (List.length (ancestors v'))
        = Z.of_nat (List.length (ancestors v)) + entered cs
        /\ depth v' = depth v + entered cs
        /\ indent v' = indent v /\ sep v' = sep v)
  /\ (forall d i s v',
        calls cs (PrintVisitor_init d i s) = Some v' -> d <= depth v')
  /\ (forall d i s,
        calls [Exit] (XmlVisitor_init d i s)
        = Some (mkPrintVisitor [] (d - 1) i s)
        /\ calls [Exit; Exit] (XmlVisitor_init d i s) = None).
Proof.
  split; [intros; apply exit_enter|].
  split; [apply calls_succeed|].
  split; [apply calls_invariant|].
  split; [|done].
  intros d i s v' H. apply calls_invariant in H as (H1 & H2 & _).
  cbn in *. lia.
Qed.

Lemma string_app_empty s : (s ++ "")%string = s.
Proof.
  induction s as [|c s IH]; [reflexivity|].
  change (String c (s ++ "") = String c s). by f_equal.
Qed.

Lemma str_times_succ s n :
  0 <= n -> str_times s (n + 1) = (s ++ str_times s n)%string.
Proof.
  intros Hn. unfold str_times.
  replace (Z.to_nat (n + 1)) with (S (Z.to_nat n)) by lia.
  destruct (Z.to_nat n) as [|k]; cbn [repeat String.concat].
  - by rewrite string_app_empty.
  - done.
Qed.

(** The arguments a printing visitor formats with.  Without an
    ancestor [_get_args] raises [IndexError].  After [enter(tag)] it gives
    [tag] for the tag and the separator of the visitor, and, at a depth
    that is not negative, the inner indentation is the outer indentation
    with one more indentation unit. *)
Theorem get_args_indentation v :
  (ancestors v = [] -> _get_args v = Raise IndexError)
  /\ (forall tag, exists a,
        _get_args (enter tag v) = Ok a
        /\ arg_tag a = tag /\ arg_sep a = sep v
        /\ arg_outer a = str_times (indent v) (depth v + 1)
        /\ (0 <= depth v + 1 ->
            arg_inner a = (indent v ++ arg_outer a)%string)).
Proof.
  split.
  - unfold _get_args. by intros ->.
  - intros tag. unfold _get_args, enter. cbn [ancestors depth indent sep].
    rewrite last_snoc. eexists. split; [reflexivity|].
    cbn [arg_tag arg_sep arg_outer arg_inner].
    repeat split. intros H. by apply str_times_succ.
Qed.

(** ** Iterating over a sentence *)

Lemma subelements_self e : e ∈ subelements e.
Proof. destruct e; cbn [subelements]; by left. Qed.

Lemma subelements_member o l x :
  o ∈ l -> x ∈ subelements o -> x ∈ flat_map subelements l.
Proof. intros Ho Hx. apply elem_of_flat_map. eauto. Qed.

Lemma elem_of_yield_reversed f l x :
  x ∈ yield_reversed f l -> exists o, o ∈ l /\ x ∈ f o.
Proof.
  unfold yield_reversed. rewrite list_elem_of_In, in_concat.
  intros (ys & Hys & Hx). rewrite <- in_rev, in_map_iff in Hys.
  destruct Hys as (o & <- & Ho). exists o.
  by rewrite !list_elem_of_In.
Qed.

Lemma yield_reversed_sound l x :
  Forall (fun o => forall x, x ∈ sentence_iterator o -> x ∈ subelements o) l ->
  x ∈ yield_reversed sentence_iterator l ->
  x ∈ flat_map subelements l.
Proof.
  intros Hl (o & Ho & Hx)%elem_of_yield_reversed.
  rewrite Forall_forall in Hl. eapply subelements_member; eauto.
Qed.

Lemma sentence_iterator_sound e :
  forall x, x ∈ sentence_iterator e -> x ∈ subelements e.
Proof.
  element_induction e; intros x; cbn [sentence_iterator subelements].
  all: try (intros ->%list_elem_of_singleton; by left).
  - (* Coordination *)
    rewrite elem_of_app, list_elem_of_singleton. intros [Hx| ->]; [|by left].
    right. rewrite !elem_of_app. left.
    eapply subelements_member; [exact Hx|apply subelements_self].
  - (* Phrase *)
    rewrite !elem_of_app, list_elem_of_singleton.
    intros [Hx|[Hx|[Hx|[Hx| ->]]]]; [..|by left]; right;
      rewrite !elem_of_app.
    + do 4 right. by apply yield_reversed_sound.
    + do 3 right. left. by apply yield_reversed_sound.
    + do 2 right. left. destruct (is_none e); [by apply elem_of_nil in Hx|].
      by apply IHe.
    + right. left. by apply yield_reversed_sound.
  - (* NounPhrase *)
    rewrite !elem_of_app, list_elem_of_singleton.
    intros [Hx|[Hx|[Hx|[Hx|[Hx| ->]]]]]; [..|by left]; right;
      rewrite !elem_of_app.
    + do 5 right. by apply yield_reversed_sound.
    + do 4 right. left. by apply yield_reversed_sound.
    + do 3 right. left. destruct (is_none e2); [by apply elem_of_nil in Hx|].
      by apply IHe2.
    + do 2 right. left. by apply yield_reversed_sound.
    + left. by apply IHe1.
  - (* Clause *)
    rewrite elem_of_app. intros [Hx|Hx]; right; rewrite !elem_of_app.
    + do 3 right. left. by apply IHe2.
    + apply elem_of_cons in Hx as [->|Hx].
      * do 3 right. left. apply subelements_self.
      * apply list_elem_of_singleton in Hx as ->.
        do 2 right. left. apply subelements_self.
Qed.

Lemma sentence_iterator_last sent :
  is_clause sent = false -> last (sentence_iterator sent) = Some sent.
Proof.
  destruct sent; try discriminate; intros _; cbn [sentence_iterator];
    try done.
  all: rewrite ?app_assoc; apply last_snoc.
Qed.

(** X13.  [sentence_iterator] works from the bottom up, on the classes of
    structures.py.  Every element it yields is the sentence or lies below
    it.  For anything but a clause
    the element itself comes last.  A clause is not yielded: its sequence
    is that of the predicate, then the predicate, then the subject, so a
    predicate that is no clause comes twice in a row, and nothing from
    inside the subject is yielded. *)
Theorem sentence_iterator_bottom_up sent :
  (forall x, x ∈ sentence_iterator sent -> x ∈ subelements sent)
  /\ (is_clause sent = false -> last (sentence_iterator sent) = Some sent)
  /\ (forall m fr pr subj vp cm po,
        sent = EClause m fr pr subj vp cm po ->
        sentence_iterator sent = sentence_iterator vp ++ [vp; subj]
        /\ (is_clause vp = false ->
            exists l, sentence_iterator sent = l ++ [vp; vp; subj])).
Proof.
  split; [apply sentence_iterator_sound|].
  split; [apply sentence_iterator_last|].
  intros m fr pr subj vp cm po ->. split; [done|].
  intros Hvp. apply sentence_iterator_last in Hvp.
  apply last_Some in Hvp as [l Hl]. exists l.
  cbn [sentence_iterator]. rewrite Hl. by rewrite <- app_assoc.
Qed.

(** ** Referring expressions *)

Lemma list_ascii_of_string_app a b :
  list_ascii_of_string (a ++ b)
  = list_ascii_of_string a ++ list_ascii_of_string b.
Proof.
  induction a as [|c a IH]; [done|].
  change (String c a ++ b)%string with (String c (a ++ b)).
  cbn [list_ascii_of_string]. by rewrite IH.
Qed.

Lemma span_digits_all ds r :
  forallb is_digit ds = true ->
  match r with c :: _ => is_digit c = false | [] => True end ->
  span_digits (ds ++ r) = (ds, r).
Proof.
  intros Hds Hr. induction ds as [|d ds IH]; cbn [app span_digits].
  - destruct r as [|c r]; [done|]. cbn [span_digits]. by rewrite Hr.
  - cbn [forallb] in Hds. apply andb_true_iff in Hds as [Hd Hds].
    by rewrite Hd, (IH Hds).
Qed.

Lemma is_digit_no_newline c : is_digit c = true -> Ascii.eqb c "010" = false.
Proof.
  intros H. destruct (Ascii.eqb_spec c "010"%char) as [->|]; [|done].
  discriminate H.
Qed.

Lemma forallb_rev {A} (f : A -> bool) l :
  forallb f (rev l) = forallb f l.
Proof.
  induction l as [|x t IH]; [done|]. cbn [rev forallb].
  rewrite forallb_app, IH. cbn [forallb]. by rewrite andb_true_r, andb_comm.
Qed.

(** The digits a name ends in, after something that is no digit. *)
Lemma numeral_suffix_digits p c d :
  is_digit c = false -> d <> "" -> all_digits d = true ->
  numeral_suffix (p ++ String c d) = Some d.
Proof.
  intros Hc Hd Hall. unfold numeral_suffix, all_digits in *.
  rewrite list_ascii_of_string_app. cbn [list_ascii_of_string].
  rewrite rev_app_distr. cbn [rev]. rewrite <- app_assoc. cbn [app].
  set (ds := rev (list_ascii_of_string d)).
  assert (forallb is_digit ds = true) as Hds by (by unfold ds; rewrite forallb_rev).
  assert (ds <> []) as Hne.
  { unfold ds. destruct d as [|x d]; [done|]. cbn [list_ascii_of_string rev].
    by destruct (rev (list_ascii_of_string d)). }
  destruct ds as [|x ds'] eqn:E; [done|]. cbn [app].
  cbn [forallb] in Hds. apply andb_true_iff in Hds as [Hx Hds].
  rewrite (is_digit_no_newline _ Hx).
  change (x :: ds' ++ c :: rev (list_ascii_of_string p))
    with ((x :: ds') ++ c :: rev (list_ascii_of_string p)).
  rewrite span_digits_all; [|by cbn [forallb]; rewrite Hx, Hds|done].
  rewrite <- E. unfold ds. by rewrite rev_involutive, string_of_list_ascii_of_string.
Qed.

Lemma numeral_suffix_all_digits s :
  all_digits s = true -> numeral_suffix s = None.
Proof.
  unfold numeral_suffix, all_digits. intros H.
  rewrite <- forallb_rev in H.
  destruct (rev (list_ascii_of_string s)) as [|x r]; [done|].
  pose proof H as H'. cbn [forallb] in H'.
  apply andb_true_iff in H' as [Hx _].
  rewrite (is_digit_no_newline _ Hx).
  replace (x :: r) with ((x :: r) ++ []) by apply app_nil_r.
  by rewrite span_digits_all.
Qed.

Lemma numeral_suffix_no_digit p c :
  is_digit c = false -> Ascii.eqb c "010" = false ->
  numeral_suffix (p ++ String c "") = None.
Proof.
  intros Hc Hn. unfold numeral_suffix.
  rewrite list_ascii_of_string_app. cbn [list_ascii_of_string].
  rewrite rev_app_distr. cbn [rev app]. rewrite Hn.
  cbn [span_digits]. by rewrite Hc.
Qed.

(** X14.  The number in a referent's name, which
    [re.search(r"([^0-9]+)([0-9]+)$", referent)] finds in
    [_do_initial_reference]: a name that ends in digits after a character
    that is no digit gives all these digits; a name made of digits only,
    or empty, gives none, and neither does a name that ends in a
    character that is no digit and no newline. *)
Theorem numeral_suffix_spec :
  (forall p c d,
      is_digit c = false -> d <> "" -> all_digits d = true ->
      numeral_suffix (p ++ String c d) = Some d)
  /\ (forall s, all_digits s = true -> numeral_suffix s = None)
  /\ (forall p c,
        is_digit c = false -> Ascii.eqb c "010" = false ->
        numeral_suffix (p ++ String c "") = None).
Proof.
  split; [exact numeral_suffix_digits|].
  split; [exact numeral_suffix_all_digits|exact numeral_suffix_no_digit].
Qed.

(** X15.  The first reference to a referent that is not the only one of
    its type.  When its name ends in a number ([numeral_suffix]), the noun
    phrase returned has that number for its only complement, a [Word] with
    the part of speech ['ANY'], and is tagged [PROPER]; when it does not,
    the phrase has no complement and no [PROPER] tag.  Either way the
    registry holds this very phrase, complement and tag included, under
    the name, with the flag [False].  (The calls of the logger are not
    part of the model.) *)
Theorem numbered_reference target ctx onto c rest t xs n :
  surface target = Some (String c rest) ->
  isupper c = false ->
  dict_contains (referents ctx) (KElt target) = false ->
  ontology ctx = Some onto ->
  best_entity_type onto (":" ++ String c rest) = Ok t ->
  entities_of_type onto (":" ++ rpartition_tail ":"%char t) = Ok xs ->
  let referent := String c rest in
  let ds := remove_dups (map (rpartition_tail ":"%char) xs) in
  ds <> [] -> ds <> [referent] ->
  exists result ctx' n',
    generate_ref_exp target ctx n = (Ok (result, ctx'), n')
    /\ dict_get (referents ctx') (KStr referent) = Some (false, result)
    /\ match numeral_suffix referent with
       | Some number =>
           (exists w, complements_of result = [w]
                      /\ surface w = Some number
                      /\ is_word_of "ANY" w = true)
           /\ has_feature "PROPER" "true" result = true
       | None =>
           complements_of result = []
           /\ has_feature "PROPER" "true" result = false
       end.
Proof.
  intros Hs Hup Hnew Honto Ht Hxs referent ds Hne Hne'.
  rewrite generate_ref_exp_initial by (rewrite ?Hs; eauto).
  unfold _do_initial_reference, try_except.
  rewrite Hs. cbn [default from_option id]. rewrite Hup, Honto.
  unfold mbind, mret, Py_bind, Py_ret, lift. rewrite Ht.
  run_py. rewrite Hxs. fold ds. fold referent.
  pose proof (unique_test ds referent) as Hu.
  destruct ((List.length ds =? 0)%nat || _) eqn:Hc.
  { destruct (proj1 Hu eq_refl); contradiction. }
  unfold distinguish_by_number.
  destruct (numeral_suffix referent) as [number|]; run_py;
    do 3 eexists; (split; [reflexivity|]);
    (split; [apply dict_get_set_str|]).
  - split; [|by vm_compute]. eexists. by repeat split.
  - split; [done|]. unfold has_feature. cbn.
    rewrite lookup_union, lookup_empty, lookup_insert_ne by done.
    by rewrite lookup_empty.
Qed.

Lemma numbered_reference_witness :
  exists result ctx' n',
    generate_ref_exp (referent_named "b1") (mkContext (Some two_blocks) [])
      2%nat = (Ok (result, ctx'), n')
    /\ (exists w, complements_of result = [w] /\ surface w = Some "1")
    /\ has_feature "PROPER" "true" result = true.
Proof.
  destruct (numbered_reference (referent_named "b1")
              (mkContext (Some two_blocks) []) two_blocks "b" "1" ":block"
              [":b1"; ":b2"] 2%nat eq_refl eq_refl eq_refl eq_refl eq_refl
              eq_refl ltac:(by vm_compute) ltac:(by vm_compute))
    as (result & ctx' & n' & Hrun & _ & H).
  exists result, ctx', n'. split; [exact Hrun|].
  change (numeral_suffix "b1") with (Some "1") in H.
  destruct H as [(w & Hw & Hs & _) Hp]. eauto.
Defined.

(** ** The [replace] methods *)

Section ReplaceIn.

Variable keep : Element -> bool.
Variable rec : Element -> Py (bool * Element).
Variables one another : Element.

Let still (o : Element) : Prop :=
  py_eq o one = false /\ is_none o = false
  /\ forall n, rec o n = (Ok (false, o), n).

Lemma replace_in_quiet l n :
  Forall still l -> replace_in keep rec one another l n = (Ok (false, l), n).
Proof.
  induction 1 as [|o t (He & Hn & Hr) _ IH]; [done|].
  cbn [replace_in]. rewrite He, Hn.
  unfold mbind, Py_bind. rewrite Hr. fold (@mbind Py _).
  unfold mbind, Py_bind. by rewrite IH.
Qed.

Lemma replace_in_first l1 b l2 n :
  py_eq b one = true -> Forall still l1 ->
  replace_in keep rec one another (l1 ++ b :: l2) n
  = (Ok (true, l1 ++ (if keep another then another :: l2 else l2)), n).
Proof.
  intros Hb. induction 1 as [|o t (He & Hn & Hr) _ IH]; cbn [app replace_in].
  - by rewrite Hb.
  - rewrite He, Hn. unfold mbind, Py_bind. rewrite Hr.
    fold (@mbind Py _). unfold mbind, Py_bind. by rewrite IH.
Qed.

Lemma replace_in_false l :
  Forall (fun o => forall n o' n',
              rec o n = (Ok (false, o'), n') -> o' = o /\ n' = n) l ->
  forall n l' n',
    replace_in keep rec one another l n = (Ok (false, l'), n') ->
    l' = l /\ n' = n.
Proof.
  induction 1 as [|o t Ho _ IH]; intros n l' n'; cbn [replace_in].
  - by intros [= <- <-].
  - destruct (py_eq o one); [discriminate|].
    destruct (is_none o); [discriminate|].
    unfold mbind, Py_bind.
    destruct (rec o n) as [[[[] o']|x] n1] eqn:E; try discriminate.
    destruct (Ho _ _ _ E) as [-> ->].
    fold (@mbind Py _). unfold mbind, Py_bind.
    destruct (replace_in keep rec one another t n) as [[[f t']|x] n2] eqn:E';
      [|discriminate].
    unfold mret, Py_ret. intros [= -> <- <-].
    by destruct (IH _ _ _ E') as [-> ->].
Qed.

End ReplaceIn.

Lemma replace_below_false rec x :
  (forall n o' n', rec x n = (Ok (false, o'), n') -> o' = x /\ n' = n) ->
  forall n x' n',
    replace_below rec x n = (Ok (false, x'), n') -> x' = x /\ n' = n.
Proof.
  intros H n x' n'. unfold replace_below.
  destruct (is_none x); [by intros [= <- <-]|apply H].
Qed.

Lemma replace_below_silent one another x n :
  silent_below one another x ->
  replace_below (fun o => replace o one another) x n = (Ok (false, x), n).
Proof.
  intros [_ H]. unfold replace_below.
  destruct (is_none x); [done|by apply H].
Qed.

Lemma Phrase_replace_false rec one another mk ty np m s fr pr h cm po :
  let unchanged o :=
    forall n o' n', rec o n = (Ok (false, o'), n') -> o' = o /\ n' = n in
  Forall unchanged fr -> Forall unchanged pr -> unchanged h ->
  Forall unchanged cm -> Forall unchanged po ->
  forall n e' n',
    Phrase_replace rec one another mk ty np m s fr pr h cm po n
    = (Ok (false, e'), n') ->
    e' = mk m s fr pr h cm po /\ n' = n.
Proof.
  intros unchanged Hfr Hpr Hh Hcm Hpo n e' n'. unfold Phrase_replace.
  unfold mbind, Py_bind at 1.
  destruct (replace_in _ rec one another fr n) as [[[[] fr']|x] n1] eqn:E1;
    try discriminate.
  destruct (replace_in_false _ _ _ _ _ Hfr _ _ _ E1) as [-> ->].
  unfold mbind, Py_bind at 1.
  destruct (replace_in _ rec one another pr n) as [[[[] pr']|x] n2] eqn:E2;
    try discriminate.
  destruct (replace_in_false _ _ _ _ _ Hpr _ _ _ E2) as [-> ->].
  destruct (py_eq h one).
  { unfold mbind, Py_bind.
    by destruct (replace_matched_head _ _ _ _ _ _ _ _ _ _ _ _)
      as [[?|?] ?]. }
  unfold mbind, Py_bind at 1.
  destruct (replace_below rec h n) as [[[[] h']|x] n3] eqn:E3;
    try discriminate.
  destruct (replace_below_false _ _ Hh _ _ _ E3) as [-> ->].
  unfold mbind, Py_bind at 1.
  destruct (replace_in _ rec one another cm n) as [[[[] cm']|x] n4] eqn:E4;
    try discriminate.
  destruct (replace_in_false _ _ _ _ _ Hcm _ _ _ E4) as [-> ->].
  unfold mbind, Py_bind at 1.
  destruct (replace_in _ rec one another po n) as [[[[] po']|x] n5] eqn:E5;
    try discriminate.
  destruct (replace_in_false _ _ _ _ _ Hpo _ _ _ E5) as [-> ->].
  by intros [= <- <-].
Qed.

Lemma replace_false one another self :
  forall n self' n',
    replace self one another n = (Ok (false, self'), n') ->
    self' = self /\ n' = n.
Proof.
  element_induction self; intros n self' n'; cbn [replace];
    try (by intros [= <- <-]); try discriminate.
  - (* Coordination *)
    unfold mbind, Py_bind.
    destruct (replace_in _ _ one another cs n) as [[[[] cs']|x] n1] eqn:E;
      try discriminate.
    match goal with H : Forall _ cs |- _ =>
      destruct (replace_in_false _ _ _ _ _ H _ _ _ E) as [-> ->] end.
    by intros [= <- <-].
  - (* Phrase *)
    intros E. by eapply Phrase_replace_false in E.
  - (* NounPhrase *)
    destruct (py_eq self1 one); [discriminate|].
    unfold mbind, Py_bind at 1.
    destruct (replace_below _ self1 n) as [[[[] s']|x] n1] eqn:E1;
      try discriminate.
    destruct (replace_below_false (fun o => replace o one another) self1
                IHself1 _ _ _ E1) as [-> ->].
    intros E. by eapply Phrase_replace_false in E.
  - (* Clause *)
    destruct (py_eq self1 one).
    { unfold mbind, Py_bind.
      destruct (raise_to_np another n) as [[s|x] n1]; [|discriminate].
      by destruct (assign_parent _ s n1) as [[s'|x] n2]. }
    unfold mbind, Py_bind at 1.
    destruct (replace_below _ self1 n) as [[[[] s']|x] n1] eqn:E1;
      try discriminate.
    destruct (replace_below_false (fun o => replace o one another) self1
                IHself1 _ _ _ E1) as [-> ->].
    destruct (py_eq self2 one).
    { unfold mbind, Py_bind.
      destruct (raise_to_vp another n) as [[v|x] n1]; [|discriminate].
      by destruct (assign_parent _ v n1) as [[v'|x] n2]. }
    unfold mbind, Py_bind at 1.
    destruct (replace_below _ self2 n) as [[[[] v']|x] n2] eqn:E2;
      try discriminate.
    destruct (replace_below_false (fun o => replace o one another) self2
                IHself2 _ _ _ E2) as [-> ->].
    by intros [= <- <-].
Qed.

(** X16.  When a [replace] method answers [False] nothing was done: the
    element, with everything below it, is as it was, and no object was
    created. *)
Theorem replace_false_unchanged self one another n self' n' :
  replace self one another n = (Ok (false, self'), n') ->
  self' = self /\ n' = n.
Proof. apply replace_false. Qed.

Lemma replace_false_unchanged_witness :
  exists self' n',
    replace very_red second_big_of_red PyNone 7%nat = (Ok (false, self'), n')
    /\ self' = very_red /\ n' = 7%nat.
Proof.
  eexists _, _. split; [reflexivity|].
  apply (replace_false_unchanged very_red second_big_of_red PyNone 7%nat).
  reflexivity.
Defined.

Lemma silent_leaf one another o :
  is_leaf o = true -> py_eq o one = false -> silent one another o.
Proof. intros Hl He. by destruct o. Qed.

Lemma keep_put_or_delete another l :
  (if negb (is_none another) then another :: l else l)
  = put_or_delete another l.
Proof. unfold put_or_delete. by destruct (is_none another). Qed.

(** X17.  [Phrase.replace] searches forward.  In a [Phrase] of any of the
    five classes the method goes through the front modifiers, then the
    pre-modifiers, then the head, the complements and the post-modifiers,
    each list from its first member on: the first member that equals
    [one] is overwritten with [another], or deleted when [another] is
    [None], provided that the search finds nothing in the members before
    it and in the slots before; when it finds nothing anywhere the answer
    is [False].  A [NounPhrase] looks at its specifier before all that. *)
Theorem Phrase_replace_forward one another n :
  (forall c m fr pr h cm po,
      scans_slots_forward one another c m fr pr h cm po n
        (replace (EPhrase c m fr pr h cm po) one another n))
  /\ (forall m s fr pr h cm po,
      py_eq s one = true ->
      replace (ENounPhrase m s fr pr h cm po) one another n
      = (Ok (true, ENounPhrase m another fr pr h cm po), n)).
Proof.
  split; [|by intros m s fr pr h cm po Hs; cbn [replace]; rewrite Hs].
  intros c m fr pr h cm po. unfold scans_slots_forward.
  cbn [replace]. unfold Phrase_replace.
  repeat match goal with |- _ /\ _ => split end; intros.
  all: repeat match goal with
         | H : spliced_at_first _ _ _ _ |- _ =>
             destruct H as (l1 & b & l2 & -> & Hb & Hq & ->)
         end.
  all: unfold mbind, Py_bind.
  all: repeat first
         [ rewrite (replace_in_first _ (fun o => replace o one another))
             by done
         | rewrite (replace_in_quiet _ (fun o => replace o one another))
             by done
         | rewrite replace_below_silent by done
         | match goal with
           | H : silent_below _ _ _ |- _ =>
               rewrite (proj1 H)
           end ].
  all: by rewrite ?keep_put_or_delete.
Qed.

Lemma Phrase_replace_forward_witness :
  exists self',
    replace big_big_red second_big_of_red (referent_named "small") 7%nat
    = (Ok (true, self'), 7%nat)
    /\ pre_modifiers_of self'
       = referent_named "small" :: drop 1 (pre_modifiers_of big_big_red).
Proof.
  destruct (Phrase_replace_forward second_big_of_red (referent_named "small")
              7%nat) as [H _].
  pose proof (H _ _ _ _ _ _ _
              : scans_slots_forward _ _ _ _ _ _ _ _ _ _
                  (replace big_big_red second_big_of_red
                     (referent_named "small") 7%nat)) as (_ & Hpre & _).
  eexists. split.
  - apply Hpre; [constructor|].
    exists [], (default PyNone (pre_modifiers_of big_big_red !! 0%nat)),
      (drop 1 (pre_modifiers_of big_big_red)).
    split; [reflexivity|]. split; [reflexivity|].
    split; [constructor|reflexivity].
  - reflexivity.
Defined.

(** [Phrase.replace] on the slots of a [NounPhrase], after the
    specifier. *)
Lemma NounPhrase_replace_scans one another m s fr pr h cm po n :
  scans_noun_phrase_forward one another m s fr pr h cm po n
    (replace (ENounPhrase m s fr pr h cm po) one another n).
Proof.
  unfold scans_noun_phrase_forward. cbn [replace]. split.
  { by intros ->. }
  intros Hs. rewrite (proj1 Hs).
  unfold mbind, Py_bind at 1. rewrite replace_below_silent by done.
  unfold Phrase_replace.
  repeat match goal with |- _ /\ _ => split end; intros.
  all: repeat match goal with
         | H : spliced_at_first _ _ _ _ |- _ =>
             destruct H as (l1 & b & l2 & -> & Hb & Hq & ->)
         end.
  all: unfold mbind, Py_bind.
  all: repeat first
         [ rewrite (replace_in_first _ (fun o => replace o one another))
             by done
         | rewrite (replace_in_quiet _ (fun o => replace o one another))
             by done
         | rewrite replace_below_silent by done
         | match goal with
           | H : silent_below _ _ _ |- _ =>
               rewrite (proj1 H)
           end ].
  all: by rewrite ?keep_put_or_delete.
Qed.

(** [Phrase.replace] on the slots of a phrase of the other classes. *)
Lemma Phrase_replace_scans one another c m fr pr h cm po n :
  scans_slots_forward one another c m fr pr h cm po n
    (replace (EPhrase c m fr pr h cm po) one another n).
Proof.
  unfold scans_slots_forward. cbn [replace]. unfold Phrase_replace.
  repeat match goal with |- _ /\ _ => split end; intros.
  all: repeat match goal with
         | H : spliced_at_first _ _ _ _ |- _ =>
             destruct H as (l1 & b & l2 & -> & Hb & Hq & ->)
         end.
  all: unfold mbind, Py_bind.
  all: repeat first
         [ rewrite (replace_in_first _ (fun o => replace o one another))
             by done
         | rewrite (replace_in_quiet _ (fun o => replace o one another))
             by done
         | rewrite replace_below_silent by done
         | match goal with
           | H : silent_below _ _ _ |- _ =>
               rewrite (proj1 H)
           end ].
  all: by rewrite ?keep_put_or_delete.
Qed.

(** C5, as the code has it.  In a [Phrase] or a [NounPhrase] that does not
    itself equal the target, [replace_element] goes through the
    post-modifiers from the largest index down, then the complements from
    the largest index down, then the head, then the pre-modifiers from
    the largest index down and, for a [NounPhrase], last the specifier: a
    member of a list is replaced when the search finds nothing in the
    members of larger index and in the slots before.  The method
    [replace] of the phrase goes the other way: [NounPhrase.replace]
    looks at the specifier first, and [Phrase.replace] goes through the
    front modifiers, the pre-modifiers, the head, the complements and the
    post-modifiers, each list from its first member on, so that a member
    is replaced when the search finds nothing in the members of smaller
    index and in the slots before. *)
Theorem phrase_slots_scan_orders sent elt r :
  is_plain_phrase sent || is_noun_phrase sent = true ->
  (py_eq sent elt = false ->
   scans_phrase_slots (fun o => py_eq o elt) scan_order true r sent
     (replace_element sent elt r))
  /\ (forall n, scans_forward elt r sent n (replace sent elt r n)).
Proof.
  intros Hp. split.
  - intros Ht. by apply replace_element_slots.
  - intros n. destruct sent; try discriminate Hp; cbn [scans_forward].
    + apply Phrase_replace_scans.
    + apply NounPhrase_replace_scans.
Qed.

Lemma phrase_slots_scan_orders_witness :
  replace_element block_here_here here there
  = (true,
     set_slot in_post (take 1 (slot in_post block_here_here) ++ [there])
       block_here_here).
Proof.
  destruct (phrase_slots_scan_orders block_here_here here there)
    as (H & _); [reflexivity|].
  destruct (H ltac:(reflexivity)) as (Hpost & _).
  apply Hpost.
  exists (take 1 (slot in_post block_here_here)),
    (default PyNone (slot in_post block_here_here !! 1%nat)), [].
  split; [reflexivity|]. split; [reflexivity|].
  split; [constructor|reflexivity].
Defined.

(** C5 as stated fails for the method [replace] on "block here here".
    Both post-modifiers equal the target, and [add_post_modifier] has put
    the word attached second at the larger index.  [replace] overwrites
    the word at index 0, the one attached first: the member with the
    larger index, the most recently attached one, stays. *)
Lemma replace_keeps_most_recent :
  py_eq first_here here = true
  /\ py_eq second_here here = true
  /\ py_id first_here <> py_id second_here
  /\ ids (post_modifiers_of block_here_here)
     = [py_id first_here; py_id second_here]
  /\ exists self',
       replace block_here_here here there 20%nat = (Ok (true, self'), 20%nat)
       /\ ids (post_modifiers_of self') = [py_id there; py_id second_here].
Proof.
  repeat split; try (by vm_compute).
  eexists. split; by vm_compute.
Qed.

Lemma raise_to_np_leaf x n :
  is_Some (surface x) ->
  exists np,
    raise_to_np x n = (Ok np, S (S (S n)))
    /\ is_noun_phrase np = true /\ is_none np = false
    /\ py_id np = n
    /\ head_of np = with_meta (set_parent (Some n)) x.
Proof.
  intros [s Hs]. destruct x; try discriminate Hs; cbn -[union].
  all: eexists; split; [reflexivity|]; by repeat split.
Qed.

Lemma raise_to_vp_leaf x n :
  is_Some (surface x) ->
  exists vp,
    raise_to_vp x n = (Ok vp, S (S n))
    /\ is_verb_phrase vp = true /\ is_none vp = false
    /\ py_id vp = n
    /\ head_of vp = with_meta (set_parent (Some n)) x.
Proof.
  intros [s Hs]. destruct x; try discriminate Hs; cbn -[union].
  all: eexists; split; [reflexivity|]; by repeat split.
Qed.

(** X18.  [Clause.replace] looks at the subject and the predicate only.
    When the search finds nothing in them the answer is [False], whatever
    the front modifiers, pre-modifiers, complements and post-modifiers of
    the clause hold.  A subject that equals [one] is replaced: a [String]
    or [Word] given for it is wrapped in a new [NounPhrase], one given
    for the predicate in a new [VerbPhrase], and the new part gets the
    clause for its parent; with [None] for [another] the call raises
    [AttributeError]. *)
Theorem Clause_replace_scope m fr pr subj vp cm po one another n :
  let clause := EClause m fr pr subj vp cm po in
  (silent_below one another subj -> silent_below one another vp ->
   replace clause one another n = (Ok (false, clause), n))
  /\ (py_eq subj one = true -> is_Some (surface another) ->
      exists np,
        replace clause one another n
        = (Ok (true, EClause m fr pr np vp cm po), S (S (S n)))
        /\ is_noun_phrase np = true
        /\ head_of np = with_meta (set_parent (Some n)) another
        /\ parent_of np = Some (oid m))
  /\ (silent_below one another subj -> py_eq vp one = true ->
      is_Some (surface another) ->
      exists v,
        replace clause one another n
        = (Ok (true, EClause m fr pr subj v cm po), S (S n))
        /\ is_verb_phrase v = true
        /\ head_of v = with_meta (set_parent (Some n)) another
        /\ parent_of v = Some (oid m))
  /\ (py_eq subj one = true ->
      replace clause one PyNone n = (Raise AttributeError, n)).
Proof.
  intros clause. subst clause. cbn [replace].
  split; [|split; [|split]].
  - intros Hs Hv. rewrite (proj1 Hs). unfold mbind, Py_bind.
    rewrite replace_below_silent by done. rewrite (proj1 Hv).
    by rewrite replace_below_silent.
  - intros Hs Ha. rewrite Hs.
    destruct (raise_to_np_leaf another n Ha) as (np & Hr & Hnp & Hn & Hid & Hh).
    unfold mbind, Py_bind. rewrite Hr. unfold assign_parent. rewrite Hn.
    eexists. split; [reflexivity|].
    destruct np; try discriminate Hnp. by repeat split.
  - intros Hs Hv Ha. rewrite (proj1 Hs). unfold mbind, Py_bind.
    rewrite replace_below_silent by done. rewrite Hv.
    destruct (raise_to_vp_leaf another n Ha) as (v & Hr & Hvp & Hn & Hid & Hh).
    rewrite Hr. unfold assign_parent. rewrite Hn.
    eexists. split; [reflexivity|].
    destruct v as [| | | | | |[] ? ? ? ? ? ?| |]; try discriminate Hvp.
    by repeat split.
  - intros Hs. by rewrite Hs.
Qed.

Lemma silent_below_leaf one another x :
  is_leaf x = true -> py_eq x one = false -> silent_below one another x.
Proof. intros Hl He. split; [done|]. by destruct x. Qed.

(** X19.  Replacing by nothing in a coordination.  [Coordination.replace]
    deletes the first coordinate that equals [one], the search finding
    nothing in the coordinates before it, whenever [another] is false as a
    truth value, as [None], a bare [Element] and an empty [String] are,
    and overwrites it otherwise; the answer is [True] and no object is
    created. *)
Theorem replace_by_nothing one another n m l1 b l2 cj pr cm po :
  py_eq b one = true -> Forall (silent one another) l1 ->
  replace (ECoordination m (l1 ++ b :: l2) cj pr cm po) one another n
  = (Ok (true,
         ECoordination m
           (l1 ++ (if py_bool another then another :: l2 else l2))
           cj pr cm po), n).
Proof.
  intros Hb Hq. cbn [replace]. unfold mbind, Py_bind.
  by rewrite (replace_in_first _ (fun o => replace o one another)).
Qed.

Lemma replace_by_nothing_witness :
  exists self',
    replace mary_and_john (default PyNone (head (coords_of mary_and_john)))
      (EElement (mkMeta 50 (IdInt 0) ∅ (-1) None)) 60%nat
    = (Ok (true, self'), 60%nat)
    /\ coords_of self' = drop 1 (coords_of mary_and_john).
Proof.
  let t := eval vm_compute in mary_and_john in change mary_and_john with t.
  eexists. split.
  - apply (replace_by_nothing _ _ 60%nat _ []); [reflexivity|constructor].
  - reflexivity.
Defined.

(** With [None] for [another] and a head that equals [one],
    [Phrase.replace] ends in [AttributeError], for [None] has no features
    to take over.  (The call has changed the phrase by then; an exception
    returns no object.) *)
Lemma Phrase_replace_head_by_none one n c m fr pr h cm po :
  Forall (silent one PyNone) fr -> Forall (silent one PyNone) pr ->
  py_eq h one = true ->
  replace (EPhrase c m fr pr h cm po) one PyNone n
  = (Raise AttributeError, n).
Proof.
  intros Hfr Hpr Hh. cbn [replace].
  unfold Phrase_replace, mbind, Py_bind.
  rewrite !(replace_in_quiet _ (fun o => replace o one PyNone)) by done.
  rewrite Hh. unfold replace_matched_head.
  destruct (is_none h); [done|]. by destruct c.
Qed.

Section ReplaceAbsent.

Variables one another : Element.

Let absent (self : Element) : Prop :=
  no_none self = true ->
  (forall x, x ∈ subelements self -> py_eq x one = false) ->
  silent one another self.

Lemma absent_members l :
  Forall absent l -> forallb no_none l = true ->
  (forall x, x ∈ flat_map subelements l -> py_eq x one = false) ->
  Forall (silent one another) l.
Proof.
  induction 1 as [|o t Ho _ IH]; [constructor|].
  cbn [forallb flat_map]. rewrite andb_true_iff. intros [Hn Ht] Hall.
  constructor.
  - apply Ho; [done|]. intros x Hx. apply Hall, elem_of_app. by left.
  - apply IH; [done|]. intros x Hx. apply Hall, elem_of_app. by right.
Qed.

Lemma absent_below x :
  absent x -> is_none x || no_none x = true ->
  (forall y, y ∈ subelements x -> py_eq y one = false) ->
  silent_below one another x.
Proof.
  intros Hx Hn Hall. split; [apply Hall, subelements_self|].
  intros H. rewrite H in Hn. by apply Hx.
Qed.

Ltac below_slot Hall :=
  let y := fresh "y" in
  let Hy := fresh "Hy" in
  intros y Hy; apply Hall; cbn [subelements];
  rewrite ?elem_of_cons, ?elem_of_app; auto 12.

Lemma replace_absent_all self : absent self.
Proof.
  unfold absent.
  element_induction self; cbn [no_none]; intros Hn Hall.
  all: try discriminate Hn.
  all: try (apply silent_leaf; [done|apply Hall, subelements_self]).
  all: split; [apply Hall, subelements_self|]; split; [done|]; intros n.
  all: cbn [replace].
  - (* Coordination *)
    assert (Forall (silent one another) cs) as Hcs.
    { apply absent_members; [done..|]. below_slot Hall. }
    unfold mbind, Py_bind.
    by rewrite (replace_in_quiet _ (fun o => replace o one another)).
  - (* Phrase *)
    rewrite !andb_true_iff in Hn. destruct Hn as [[[[Hfr Hpr] Hh] Hcm] Hpo].
    assert (Forall (silent one another) fr) as Qfr
      by (apply absent_members; [done..|]; below_slot Hall).
    assert (Forall (silent one another) pr) as Qpr
      by (apply absent_members; [done..|]; below_slot Hall).
    assert (Forall (silent one another) cm) as Qcm
      by (apply absent_members; [done..|]; below_slot Hall).
    assert (Forall (silent one another) po) as Qpo
      by (apply absent_members; [done..|]; below_slot Hall).
    assert (silent_below one another self) as Qh
      by (apply absent_below; [done..|]; below_slot Hall).
    unfold Phrase_replace, mbind, Py_bind.
    rewrite !(replace_in_quiet _ (fun o => replace o one another)) by done.
    rewrite (proj1 Qh), replace_below_silent by done.
    by rewrite !(replace_in_quiet _ (fun o => replace o one another)) by done.
  - (* NounPhrase *)
    rewrite !andb_true_iff in Hn.
    destruct Hn as [[[[[Hs Hfr] Hpr] Hh] Hcm] Hpo].
    assert (Forall (silent one another) fr) as Qfr
      by (apply absent_members; [done..|]; below_slot Hall).
    assert (Forall (silent one another) pr) as Qpr
      by (apply absent_members; [done..|]; below_slot Hall).
    assert (Forall (silent one another) cm) as Qcm
      by (apply absent_members; [done..|]; below_slot Hall).
    assert (Forall (silent one another) po) as Qpo
      by (apply absent_members; [done..|]; below_slot Hall).
    assert (silent_below one another self1) as Qs
      by (apply absent_below; [done..|]; below_slot Hall).
    assert (silent_below one another self2) as Qh
      by (apply absent_below; [done..|]; below_slot Hall).
    rewrite (proj1 Qs). unfold mbind, Py_bind at 1.
    rewrite replace_below_silent by done.
    unfold Phrase_replace, mbind, Py_bind.
    rewrite !(replace_in_quiet _ (fun o => replace o one another)) by done.
    rewrite (proj1 Qh), replace_below_silent by done.
    by rewrite !(replace_in_quiet _ (fun o => replace o one another)) by done.
  - (* Clause *)
    rewrite !andb_true_iff in Hn. destruct Hn as [[[[Hpr Hs] Hv] Hcm] Hpo].
    assert (silent_below one another self1) as Qs.
    { apply absent_below; [done|by rewrite Hs, orb_true_r|].
      below_slot Hall. }
    assert (silent_below one another self2) as Qv.
    { apply absent_below; [done|by rewrite Hv, orb_true_r|].
      below_slot Hall. }
    rewrite (proj1 Qs). unfold mbind, Py_bind.
    rewrite replace_below_silent by done. rewrite (proj1 Qv).
    by rewrite replace_below_silent.
Qed.

End ReplaceAbsent.

(** X20.  No match is no error for the [replace] methods.  When no object
    below an element equals [one], the element itself included, and no
    [None] sits in a list, as subject or as predicate, [replace] answers
    [False], raises nothing and leaves the element as it is. *)
Theorem replace_absent self one another n :
  no_none self = true ->
  (forall x, x ∈ subelements self -> py_eq x one = false) ->
  replace self one another n = (Ok (false, self), n).
Proof.
  intros Hn Hall.
  by destruct (replace_absent_all one another self Hn Hall) as (_ & _ & H).
Qed.

Lemma replace_absent_witness :
  replace john_sees_mary (referent_named "Mary") PyNone 20%nat
  = (Ok (false, john_sees_mary), 20%nat).
Proof.
  apply replace_absent; [reflexivity|].
  intros x Hx. vm_compute in Hx.
  repeat (apply elem_of_cons in Hx as [->|Hx]; [reflexivity|]).
  by apply elem_of_nil in Hx.
Defined.

(** ** Modifier lists *)

Lemma Py_bind_ok {A B} (c : Py A) (k : A -> Py B) n a n' :
  c n = (Ok a, n') -> (c ≫= k) n = k a n'.
Proof. intros H. unfold mbind, Py_bind. by rewrite H. Qed.

Lemma Py_bind_raise {A B} (c : Py A) (k : A -> Py B) n x n' :
  c n = (Raise x, n') -> (c ≫= k) n = (Raise x, n').
Proof. intros H. unfold mbind, Py_bind. by rewrite H. Qed.

Lemma assign_parent_ok self x n :
  is_none x = false -> assign_parent self x n = (Ok (child_of self x), n).
Proof. intros H. unfold assign_parent. by rewrite H. Qed.

Lemma mapM_assign_parent self ms n :
  forallb (fun x => negb (is_none x)) ms = true ->
  mapM (assign_parent self) ms n = (Ok (map (child_of self) ms), n).
Proof.
  induction ms as [|x t IH]; [done|]. cbn [forallb].
  rewrite andb_true_iff, negb_true_iff. intros [Hx Ht].
  cbn [mapM map].
  rewrite (Py_bind_ok _ _ _ _ _ (assign_parent_ok self x n Hx)).
  by rewrite (Py_bind_ok _ _ _ _ _ (IH Ht)).
Qed.

Lemma mapM_assign_parent_none self ms n :
  forallb (fun x => negb (is_none x)) ms = false ->
  mapM (assign_parent self) ms n = (Raise AttributeError, n).
Proof.
  induction ms as [|x t IH]; [done|]. cbn [forallb mapM].
  destruct (is_none x) eqn:Hx; cbn [negb andb].
  - intros _. apply Py_bind_raise. unfold assign_parent. by rewrite Hx.
  - intros Ht.
    rewrite (Py_bind_ok _ _ _ _ _ (assign_parent_ok self x n Hx)).
    by rewrite (Py_bind_raise _ _ _ _ _ (IH Ht)).
Qed.

Lemma insert_front_all {A} (lst ms : list A) :
  foldl (fun l x => take 0 l ++ x :: drop 0 l) lst ms = rev ms ++ lst.
Proof.
  revert lst. induction ms as [|x t IH]; intros lst; [done|].
  cbn [foldl rev]. rewrite IH, take_0, drop_0. by rewrite <- app_assoc.
Qed.

Lemma add_to_list_front self lst ms n :
  forallb (fun x => negb (is_none x)) ms = true ->
  add_to_list self lst ms (Some 0%nat) n
  = (Ok (rev (map (child_of self) ms) ++ lst), n).
Proof.
  intros H. unfold add_to_list, mbind, Py_bind.
  rewrite (mapM_assign_parent _ _ _ H). unfold mret, Py_ret.
  by rewrite insert_front_all.
Qed.

Lemma add_to_list_back self lst ms n :
  forallb (fun x => negb (is_none x)) ms = true ->
  add_to_list self lst ms None n = (Ok (lst ++ map (child_of self) ms), n).
Proof.
  intros H. unfold add_to_list, mbind, Py_bind.
  by rewrite (mapM_assign_parent _ _ _ H).
Qed.

Lemma add_to_list_none self lst ms pos n :
  forallb (fun x => negb (is_none x)) ms = false ->
  add_to_list self lst ms pos n = (Raise AttributeError, n).
Proof.
  intros H. unfold add_to_list, mbind, Py_bind.
  by rewrite (mapM_assign_parent_none _ _ _ H).
Qed.

(** The four methods on modifiers that are elements or [None]. *)
Lemma Phrase_add_elements e ms n :
  is_phrase e = true ->
  let ms' := map (child_of (py_id e)) ms in
  (forallb (fun x => negb (is_none x)) ms = true ->
   (exists e', Phrase_add_front_modifier e ms n = (Ok e', n)
               /\ front_modifiers_of e' = rev ms' ++ front_modifiers_of e)
   /\ (exists e', Phrase_add_pre_modifier e ms n = (Ok e', n)
                  /\ pre_modifiers_of e' = rev ms' ++ pre_modifiers_of e)
   /\ (exists e', Phrase_add_complement e ms n = (Ok e', n)
                  /\ complements_of e' = complements_of e ++ ms')
   /\ (exists e', Phrase_add_post_modifier e ms n = (Ok e', n)
                  /\ post_modifiers_of e' = post_modifiers_of e ++ ms'))
  /\ (forallb (fun x => negb (is_none x)) ms = false ->
      Phrase_add_front_modifier e ms n = (Raise AttributeError, n)
      /\ Phrase_add_pre_modifier e ms n = (Raise AttributeError, n)
      /\ Phrase_add_complement e ms n = (Raise AttributeError, n)
      /\ Phrase_add_post_modifier e ms n = (Raise AttributeError, n)).
Proof.
  intros He ms'. subst ms'.
  destruct e; try discriminate He; cbn [py_id meta].
  all: unfold Phrase_add_front_modifier, Phrase_add_pre_modifier,
         Phrase_add_complement, Phrase_add_post_modifier, mbind, Py_bind.
  all: split; intros H.
  all: rewrite ?(add_to_list_front _ _ _ _ H), ?(add_to_list_back _ _ _ _ H),
         ?(add_to_list_none _ _ _ _ _ H).
  all: repeat split; eauto.
Qed.

(** [str_to_elt] never raises and creates one [String] for every
    [str]. *)
Lemma str_to_elt_run mods : forall n,
  exists ms,
    str_to_elt mods n = (Ok ms, (n + strs mods)%nat)
    /\ Forall2 promoted mods ms.
Proof.
  unfold str_to_elt, strs.
  induction mods as [|a t IH]; intros n; cbn [mapM List.filter List.length].
  - exists []. split; [by rewrite Nat.add_0_r|constructor].
  - destruct a as [s|e]; cbn [promote List.length].
    + destruct (IH (S n)) as (ms & Hms & Hall).
      eexists (EString (mkMeta n (IdInt 0) ∅ (-1) None) s :: ms). split.
      * unfold new_String, new_meta, fresh, mbind, Py_bind, mret, Py_ret.
        cbv beta iota.
        unfold mbind, Py_bind, mret, Py_ret in Hms. rewrite Hms.
        f_equal. lia.
      * constructor; [by eexists|done].
    + destruct (IH n) as (ms & Hms & Hall).
      exists (e :: ms). split.
      * unfold mbind, Py_bind, mret, Py_ret.
        cbv beta iota.
        unfold mbind, Py_bind, mret, Py_ret in Hms. by rewrite Hms.
      * by constructor.
Qed.

(** X21.  Attaching several modifiers at once.  The four methods turn
    every [str] among the modifiers into a new [String], in the order
    given, and create nothing else.  When what comes out holds no [None],
    [add_front_modifier] and [add_pre_modifier] put the modifiers before
    the ones that are there, in the reverse of the order they are given
    in; [add_complement] and [add_post_modifier] put them after, in the
    order given; every modifier gets the phrase for its parent.  With a
    [None] among the modifiers each of the four raises
    [AttributeError]. *)
Theorem add_modifiers_order e mods n :
  is_phrase e = true ->
  exists ms,
    str_to_elt mods n = (Ok ms, (n + strs mods)%nat)
    /\ Forall2 promoted mods ms
    /\ let k := (n + strs mods)%nat in
       let ms' := map (child_of (py_id e)) ms in
       (forallb (fun x => negb (is_none x)) ms = true ->
        (exists e', Phrase_add_front_modifier_args e mods n = (Ok e', k)
                    /\ front_modifiers_of e'
                       = rev ms' ++ front_modifiers_of e)
        /\ (exists e', Phrase_add_pre_modifier_args e mods n = (Ok e', k)
                       /\ pre_modifiers_of e'
                          = rev ms' ++ pre_modifiers_of e)
        /\ (exists e', Phrase_add_complement_args e mods n = (Ok e', k)
                       /\ complements_of e' = complements_of e ++ ms')
        /\ (exists e', Phrase_add_post_modifier_args e mods n = (Ok e', k)
                       /\ post_modifiers_of e'
                          = post_modifiers_of e ++ ms'))
       /\ (forallb (fun x => negb (is_none x)) ms = false ->
           Phrase_add_front_modifier_args e mods n = (Raise AttributeError, k)
           /\ Phrase_add_pre_modifier_args e mods n
              = (Raise AttributeError, k)
           /\ Phrase_add_complement_args e mods n
              = (Raise AttributeError, k)
           /\ Phrase_add_post_modifier_args e mods n
              = (Raise AttributeError, k)).
Proof.
  intros He. destruct (str_to_elt_run mods n) as (ms & Hms & Hall).
  exists ms. split; [done|]. split; [done|]. cbv zeta.
  unfold Phrase_add_front_modifier_args, Phrase_add_pre_modifier_args,
    Phrase_add_complement_args, Phrase_add_post_modifier_args,
    mbind, Py_bind.
  rewrite Hms.
  exact (Phrase_add_elements e ms (n + strs mods)%nat He).
Qed.

Lemma add_modifiers_order_witness :
  exists e',
    Phrase_add_pre_modifier_args very_red
      [AStr "big"; AElt (referent_named "a")] 10%nat
    = (Ok e', 11%nat)
    /\ map surface (pre_modifiers_of e') = [Some "a"; Some "big"; Some "very"].
Proof.
  destruct (add_modifiers_order very_red
              [AStr "big"; AElt (referent_named "a")] 10%nat)
    as (ms & Hms & _ & H & _); [reflexivity|].
  injection Hms as <-.
  destruct H as (_ & (e' & Hadd & Hpre) & _); [reflexivity|].
  exists e'. split; [exact Hadd|]. by rewrite Hpre.
Defined.

Lemma list_remove_first p l1 y l2 :
  same_or_equal p y = true ->
  Forall (fun o => same_or_equal p o = false) l1 ->
  list_remove p (l1 ++ y :: l2) = l1 ++ l2.
Proof.
  intros Hy. induction 1 as [|o t Ho _ IH]; cbn [app list_remove].
  - unfold same_or_equal in Hy. by rewrite Hy.
  - unfold same_or_equal in Ho. rewrite Ho. by rewrite IH.
Qed.

Lemma same_or_equal_child p x : same_or_equal x (child_of p x) = true.
Proof.
  unfold same_or_equal.
  replace (py_id (child_of p x)) with (py_id x) by (by destruct x).
  by rewrite Nat.eqb_refl.
Qed.

(** X22.  Deleting what was attached.  For a phrase and a modifier that
    is not [None], [del_pre_modifier] after [add_pre_modifier], and
    [del_front_modifier] after [add_front_modifier], give the phrase back
    as it was.  [del_complement] after [add_complement] does so when no
    complement was the modifier or equal to it; otherwise it deletes the
    first complement that is, and the one just attached stays at the
    end.  The same holds for the post-modifiers. *)
Theorem del_after_add e x n :
  is_phrase e = true -> is_none x = false ->
  let x' := child_of (py_id e) x in
  (exists e1, Phrase_add_front_modifier e [x] n = (Ok e1, n)
              /\ Phrase_del_front_modifier e1 [x] = e)
  /\ (exists e1, Phrase_add_pre_modifier e [x] n = (Ok e1, n)
                 /\ Phrase_del_pre_modifier e1 [x] = e)
  /\ (exists e1,
        Phrase_add_complement e [x] n = (Ok e1, n)
        /\ (Forall (fun o => same_or_equal x o = false) (complements_of e) ->
            Phrase_del_complement e1 [x] = e)
        /\ (forall l1 y l2,
              complements_of e = l1 ++ y :: l2 ->
              same_or_equal x y = true ->
              Forall (fun o => same_or_equal x o = false) l1 ->
              complements_of (Phrase_del_complement e1 [x])
              = l1 ++ l2 ++ [x']))
  /\ (exists e1,
        Phrase_add_post_modifier e [x] n = (Ok e1, n)
        /\ (Forall (fun o => same_or_equal x o = false)
              (post_modifiers_of e) ->
            Phrase_del_post_modifier e1 [x] = e)
        /\ (forall l1 y l2,
              post_modifiers_of e = l1 ++ y :: l2 ->
              same_or_equal x y = true ->
              Forall (fun o => same_or_equal x o = false) l1 ->
              post_modifiers_of (Phrase_del_post_modifier e1 [x])
              = l1 ++ l2 ++ [x'])).
Proof.
  intros He Hx x'. subst x'.
  assert (forallb (fun x => negb (is_none x)) [x] = true) as H
    by (cbn; by rewrite Hx).
  pose proof (same_or_equal_child (py_id e) x) as Hc.
  assert (forall l, list_remove x (child_of (py_id e) x :: l) = l) as Hfront.
  { intros l. cbn [list_remove]. unfold same_or_equal in Hc. by rewrite Hc. }
  assert (forall l, Forall (fun o => same_or_equal x o = false) l ->
                    list_remove x (l ++ [child_of (py_id e) x]) = l) as Hback.
  { intros l Hl. rewrite list_remove_first by done. apply app_nil_r. }
  destruct e; try discriminate He; cbn [py_id meta] in *.
  all: unfold Phrase_add_front_modifier, Phrase_add_pre_modifier,
         Phrase_add_complement, Phrase_add_post_modifier, mbind, Py_bind.
  all: rewrite ?(add_to_list_front _ _ _ _ H), ?(add_to_list_back _ _ _ _ H).
  all: unfold mret, Py_ret; cbn [map rev app].
  all: repeat split.
  all: try (eexists; split; [reflexivity|]).
  all: cbn [Phrase_del_front_modifier Phrase_del_pre_modifier
            Phrase_del_complement Phrase_del_post_modifier
            del_from_list foldl complements_of post_modifiers_of].
  all: rewrite ?Hfront; try done.
  all: split.
  all: try (intros Hq; by rewrite (Hback _ Hq)).
  all: intros l1 y l2 -> Hy Hq.
  all: rewrite <- app_assoc; cbn [app].
  all: by rewrite list_remove_first.
Qed.

Lemma del_after_add_witness :
  exists e1,
    Phrase_add_pre_modifier very_red [referent_named "a"] 10%nat
    = (Ok e1, 10%nat)
    /\ Phrase_del_pre_modifier e1 [referent_named "a"] = very_red.
Proof.
  destruct (del_after_add very_red (referent_named "a") 10%nat)
    as (_ & H & _); [reflexivity..|].
  exact H.
Defined.

(** ** Raising to phrases *)

Section Raising.

(** [raise_to_np] or [raise_to_vp], and the phrase either builds around a
    [String] or a [Word]. *)
Variable raise_to : Element -> Py Element.
Variable wrap : Element -> Py Element.

Hypothesis raise_to_eq : forall phrase,
  raise_to phrase
  = match phrase with
    | ECoordination m cs cj pr cm po =>
        cs' ← mapM raise_to cs;
        mret (ECoordination m cs' cj pr cm po)
    | EString _ _ | EWord _ _ _ _ => wrap phrase
    | _ => mret phrase
    end.

Hypothesis wrap_raised : forall x n, is_Some (surface x) ->
  exists y n', wrap x n = (Ok y, n') /\ is_plain_phrase y || is_noun_phrase y = true.

Lemma mapM_raise_fixed cs :
  Forall (fun c => is_raised c = true ->
                   forall n, raise_to c n = (Ok c, n)) cs ->
  forallb is_raised cs = true ->
  forall n, mapM raise_to cs n = (Ok cs, n).
Proof.
  induction 1 as [|c t Hc _ IH]; [done|]. cbn [forallb].
  rewrite andb_true_iff. intros [H1 H2] n. cbn [mapM].
  rewrite (Py_bind_ok _ _ _ _ _ (Hc H1 n)).
  by rewrite (Py_bind_ok _ _ _ _ _ (IH H2 n)).
Qed.

Lemma raised_fixed e :
  is_raised e = true -> forall n, raise_to e n = (Ok e, n).
Proof.
  element_induction e; intros He n; rewrite raise_to_eq; try done.
  cbn [is_raised] in He.
  by rewrite (Py_bind_ok _ _ _ _ _ (mapM_raise_fixed cs H He n)).
Qed.

Lemma mapM_raise_total cs :
  Forall (fun c => forall n, exists y n',
              raise_to c n = (Ok y, n') /\ is_raised y = true) cs ->
  forall n, exists ys n',
    mapM raise_to cs n = (Ok ys, n') /\ forallb is_raised ys = true.
Proof.
  induction 1 as [|c t Hc _ IH]; intros n; [by exists [], n|].
  destruct (Hc n) as (y & n1 & Hy & Hr).
  destruct (IH n1) as (ys & n2 & Hys & Hrs).
  exists (y :: ys), n2. cbn [mapM forallb].
  rewrite (Py_bind_ok _ _ _ _ _ Hy), (Py_bind_ok _ _ _ _ _ Hys).
  split; [done|]. by rewrite Hr, Hrs.
Qed.

Lemma raise_total e :
  forall n, exists y n', raise_to e n = (Ok y, n') /\ is_raised y = true.
Proof.
  element_induction e; intros n; rewrite raise_to_eq.
  all: try (by eexists _, _).
  - destruct (wrap_raised (EString m v) n) as (y & n' & Hy & Hp);
      [by eexists|].
    exists y, n'. split; [done|]. by destruct y.
  - destruct (wrap_raised (EWord m w p b) n) as (y & n' & Hy & Hp);
      [by eexists|].
    exists y, n'. split; [done|]. by destruct y.
  - destruct (mapM_raise_total cs H n) as (ys & n' & Hys & Hr).
    rewrite (Py_bind_ok _ _ _ _ _ Hys). by eexists _, _.
Qed.

End Raising.

Lemma raise_to_np_eq phrase :
  raise_to_np phrase
  = match phrase with
    | ECoordination m cs cj pr cm po =>
        cs' ← mapM raise_to_np cs;
        mret (ECoordination m cs' cj pr cm po)
    | EString _ _ | EWord _ _ _ _ => new_NounPhrase phrase PyNone ∅ None
    | _ => mret phrase
    end.
Proof. by destruct phrase. Qed.

Lemma raise_to_vp_eq phrase :
  raise_to_vp phrase
  = match phrase with
    | ECoordination m cs cj pr cm po =>
        cs' ← mapM raise_to_vp cs;
        mret (ECoordination m cs' cj pr cm po)
    | EString _ _ | EWord _ _ _ _ =>
        new_HeadPhrase VerbPhrase phrase ∅ None
    | _ => mret phrase
    end.
Proof. by destruct phrase. Qed.

Lemma wrap_np_raised x n :
  is_Some (surface x) ->
  exists y n',
    new_NounPhrase x PyNone ∅ None n = (Ok y, n')
    /\ is_plain_phrase y || is_noun_phrase y = true.
Proof.
  intros [s Hs]. destruct x; try discriminate Hs; cbn -[union];
    by eexists _, _.
Qed.

Lemma wrap_vp_raised x n :
  is_Some (surface x) ->
  exists y n',
    new_HeadPhrase VerbPhrase x ∅ None n = (Ok y, n')
    /\ is_plain_phrase y || is_noun_phrase y = true.
Proof.
  intros [s Hs]. destruct x; try discriminate Hs; cbn -[union];
    by eexists _, _.
Qed.

(** The two functions are total and leave their results as they are. *)
Lemma raise_total_fixed e n :
  (exists y n',
      raise_to_np e n = (Ok y, n') /\ is_raised y = true
      /\ forall k, raise_to_np y k = (Ok y, k))
  /\ (exists y n',
        raise_to_vp e n = (Ok y, n') /\ is_raised y = true
        /\ forall k, raise_to_vp y k = (Ok y, k)).
Proof.
  split.
  - destruct (raise_total raise_to_np _ raise_to_np_eq wrap_np_raised e n)
      as (y & n' & Hy & Hr).
    exists y, n'. split; [done|]. split; [done|].
    by apply (raised_fixed raise_to_np _ raise_to_np_eq).
  - destruct (raise_total raise_to_vp _ raise_to_vp_eq wrap_vp_raised e n)
      as (y & n' & Hy & Hr).
    exists y, n'. split; [done|]. split; [done|].
    by apply (raised_fixed raise_to_vp _ raise_to_vp_eq).
Qed.

(** X23.  [raise_to_np] and [raise_to_vp] never raise and do their work
    once.  Whatever they are given, they return an element that is
    neither a [String] nor a [Word], and whose coordinates, if it is a
    coordination, are none either, all the way down; given such an
    element, in particular their own result, they return it as it is and
    create nothing. *)
Theorem raising_is_idempotent e n :
  (exists y n',
      raise_to_np e n = (Ok y, n') /\ is_raised y = true
      /\ forall k, raise_to_np y k = (Ok y, k))
  /\ (exists y n',
        raise_to_vp e n = (Ok y, n') /\ is_raised y = true
        /\ forall k, raise_to_vp y k = (Ok y, k)).
Proof. apply raise_total_fixed. Qed.

(** ** Constructors *)

Lemma py_bool_raised_leaf x : is_Some (surface x) -> is_none x = false.
Proof. intros [s Hs]. by destruct x. Qed.

Lemma raise_to_vp_none vp n v n' :
  raise_to_vp vp n = (Ok v, n') -> is_none v = is_none vp.
Proof.
  rewrite raise_to_vp_eq.
  destruct vp; unfold mret, Py_ret; try (by intros [= <- <-]).
  unfold mbind, Py_bind.
  destruct (mapM raise_to_vp coords n) as [[?|?] ?]; [|discriminate].
  by intros [= <- <-].
Qed.

Lemma new_Clause_run subj vp feats par n s n1 v n3 :
  raise_to_np subj (S n) = (Ok s, n1) ->
  let m := mkMeta n (IdInt 0) feats (-1) par in
  let s' := if py_bool s then s
            else EElement (mkMeta n1 (IdInt 0) ∅ (-1) None) in
  raise_to_vp vp (if py_bool s then n1 else S n1) = (Ok v, n3) ->
  new_Clause subj vp feats par n
  = if is_none v then (Raise AttributeError, n3)
    else (Ok (EClause m [] [] (child_of n s') (child_of n v) [] []), n3).
Proof.
  intros Hs m s' Hv. subst m s'.
  unfold new_Clause, new_meta, new_Element, fresh, assign_parent, mbind,
    Py_bind, mret, Py_ret, raise.
  cbv beta iota. rewrite Hs. cbv beta iota.
  destruct (py_bool s) eqn:Hb; cbv beta iota.
  - assert (is_none s = false) as -> by (by destruct s).
    cbv beta iota. rewrite Hv. cbv beta iota. cbn [oid].
    by destruct (is_none v).
  - unfold new_meta, fresh, mbind, Py_bind, mret, Py_ret.
    cbv beta iota. cbn [is_none]. cbv beta iota.
    rewrite Hv. cbv beta iota. cbn [oid].
    by destruct (is_none v).
Qed.

Lemma Clause_subject_run subj k :
  exists s k1,
    Clause_subject subj k = (Ok s, k1)
    /\ is_none s = false /\ subject_from subj k s.
Proof.
  destruct subj as [x|e]; cbn [Clause_subject subject_from].
  - by eexists _, _.
  - destruct (raise_total_fixed e k) as [(np & n1 & Hnp & Hr & _) _].
    unfold mbind, Py_bind. rewrite Hnp.
    destruct (py_bool np) eqn:Hb.
    + exists np, n1. split; [done|]. split; [by destruct np|].
      split; [done|]. intros np' k' [= <- <-]. by rewrite Hb.
    + eexists _, _. split; [reflexivity|]. split; [done|].
      split; [done|]. intros np' k' [= <- <-]. by rewrite Hb.
Qed.

Lemma Clause_predicate_run vp k :
  exists v n3,
    Clause_predicate vp k = (Ok v, n3)
    /\ is_none v = is_none_arg vp /\ predicate_from vp v.
Proof.
  destruct vp as [x|e]; cbn [Clause_predicate predicate_from is_none_arg].
  - eexists _, _. split; [reflexivity|]. split; [done|]. by eexists.
  - destruct (raise_total_fixed e k) as [_ (v & n3 & Hv & Hr & _)].
    exists v, n3. split; [done|].
    split; [exact (raise_to_vp_none _ _ _ _ Hv)|].
    split; [done|]. by eexists _, _.
Qed.

Lemma new_Clause_args_run subj vp feats par n s k1 v n3 :
  Clause_subject subj (S n) = (Ok s, k1) ->
  is_none s = false ->
  Clause_predicate vp k1 = (Ok v, n3) ->
  new_Clause_args subj vp feats par n
  = if is_none v then (Raise AttributeError, n3)
    else (Ok (EClause (mkMeta n (IdInt 0) feats (-1) par) [] []
                (child_of n s) (child_of n v) [] []), n3).
Proof.
  intros Hs Hn Hv.
  unfold new_Clause_args, new_meta, fresh, assign_parent, mbind, Py_bind,
    mret, Py_ret, raise.
  cbv beta iota. rewrite Hs. cbv beta iota. rewrite Hn. cbv beta iota.
  rewrite Hv. cbv beta iota. cbn [oid].
  by destruct (is_none v).
Qed.

(** X24.  [Clause(subj, vp)].  The constructor raises [AttributeError]
    for the predicate [None].  Otherwise it returns a clause whose subject
    and predicate have the clause for their parent.  A subject given as a
    [str] is a new [String] of that value; any other is the given one
    raised to a noun phrase, or a new bare [Element] when that is false as
    a truth value (as [None] and a bare [Element] are), and is never a
    [String] or a [Word].  A predicate given as a [str] is a new [String]
    of that value; any other is the given one raised to a verb phrase. *)
Theorem Clause_init (subj vp : PyArg) feats par n :
  (is_none_arg vp = true ->
   exists n', new_Clause_args subj vp feats par n = (Raise AttributeError, n'))
  /\ (is_none_arg vp = false ->
      exists n' s v,
        new_Clause_args subj vp feats par n
        = (Ok (EClause (mkMeta n (IdInt 0) feats (-1) par) [] []
                 (child_of n s) (child_of n v) [] []), n')
        /\ is_none s = false
        /\ subject_from subj (S n) s
        /\ predicate_from vp v).
Proof.
  destruct (Clause_subject_run subj (S n)) as (s & k1 & Hs & Hn & Hsubj).
  destruct (Clause_predicate_run vp k1) as (v & n3 & Hv & Hnv & Hpred).
  pose proof (new_Clause_args_run _ _ feats par _ _ _ _ _ Hs Hn Hv) as Hrun.
  rewrite Hnv in Hrun.
  split; intros Hvp; rewrite Hvp in Hrun.
  - by exists n3.
  - by exists n3, s, v.
Qed.

Lemma union_lookup_head (h f : gmap string string) k :
  (h ∪ f) !! k = match h !! k with Some v => Some v | None => f !! k end.
Proof. rewrite lookup_union. by destruct (h !! k), (f !! k). Qed.

(** X25.  A phrase takes over the features of its head.  [NounPhrase(head,
    spec, features)] and the constructors of the other phrases with a
    head give the new phrase, for every feature name, the value the head
    has for it, and the value passed in [features] only where the head has
    none; the head is the object given, with the phrase for its parent.
    A head given as a [str] becomes a new [String] of that value, and no
    head ([None]) a new bare [Element]: the phrase has the features passed
    then.  The specifier of a noun phrase is the object given, a new
    [String] for a [str] and a new bare [Element] for [None]. *)
Theorem phrase_takes_head_features (head spec : PyArg) feats par n :
  (exists np n',
      new_NounPhrase_args head spec feats par n = (Ok np, n')
      /\ is_noun_phrase np = true /\ py_id np = n
      /\ head_from head feats n np
      /\ match spec with
         | AStr x =>
             exists i, spec_of np = EString (mkMeta i (IdInt 0) ∅ (-1) None) x
         | AElt e =>
             if is_none e
             then exists i,
                 spec_of np = EElement (mkMeta i (IdInt 0) ∅ (-1) None)
             else spec_of np = e
         end)
  /\ (forall c, exists p n',
        new_HeadPhrase_args c head feats par n = (Ok p, n')
        /\ is_plain_phrase p = true /\ py_id p = n
        /\ head_from head feats n p).
Proof.
  split; [|intros c].
  all: destruct head as [x|h]; [|destruct h]; cbn -[union].
  all: try (destruct spec as [y|s]; [|destruct s]; cbn -[union]).
  all: eexists _, _; split; [reflexivity|].
  all: cbn -[union]; split; [done|]; split; [done|].
  all: repeat match goal with |- _ /\ _ => split end.
  all: try done; try (by eexists).
  all: try (intros k; apply union_lookup_head).
  all: apply map_eq; intros k; rewrite union_lookup_head;
         by rewrite lookup_empty.
Qed.

(** ** Determiners *)

Section Determiners.

Variable guessed_plural : Element -> Res bool.

Let fix_determiner := optimise_determiner guessed_plural.

(** X26.  [optimise_determiner].  Anything but a noun phrase is returned
    as it is.  A noun phrase tagged [PROPER] or as a pronoun keeps a
    specifier that is true as a truth value and gets a new bare [Element]
    for any other.  Else, with a head that is no pronoun: when the phrase
    is the last and only distractor among the phrases given, the ones
    whose head equals its head, it gets the determiner "the"; otherwise,
    when the number guessed for it is not plural, it gets "an" if the
    string of its head starts with one of the letters a, e, i, o, u, y in
    lower case, and "a" if not; a plural phrase, and one whose head is a
    pronoun, is left as it is.  In every case the phrase returned is the
    one given with at most its specifier changed; a phrase with [None]
    for its head that is neither proper nor pronoun raises
    [AttributeError]. *)
Theorem optimise_determiner_cases phrase nps n :
  (is_noun_phrase phrase = false -> fix_determiner phrase nps n = (Ok phrase, n))
  /\ (is_noun_phrase phrase = true ->
      let h := head_of phrase in
      (proper_or_pronoun phrase = true ->
       fix_determiner phrase nps n
       = if py_bool (spec_of phrase) then (Ok phrase, n)
         else (Ok (assign_spec (EElement (mkMeta n (IdInt 0) ∅ (-1) None))
                     phrase), S n))
      /\ (proper_or_pronoun phrase = false -> is_none h = true ->
          fix_determiner phrase nps n = (Raise AttributeError, n))
      /\ (proper_or_pronoun phrase = false -> is_none h = false ->
          has_feature "cat" "PRONOUN" h = false ->
          sole_distractor phrase nps = true ->
          exists the,
            fix_determiner phrase nps n = (Ok (assign_spec the phrase), S n)
            /\ has_determiner "the" (assign_spec the phrase) = true)
      /\ (proper_or_pronoun phrase = false -> is_none h = false ->
          has_feature "cat" "PRONOUN" h = false ->
          sole_distractor phrase nps = false ->
          guessed_plural phrase = Ok false ->
          forall str, string_of h = Ok str ->
          exists a,
            fix_determiner phrase nps n = (Ok (assign_spec a phrase), S n)
            /\ has_determiner (if starts_with_vowel str then "an" else "a")
                 (assign_spec a phrase) = true)
      /\ (proper_or_pronoun phrase = false -> is_none h = false ->
          has_feature "cat" "PRONOUN" h = true
          \/ sole_distractor phrase nps = false ->
          (has_feature "cat" "PRONOUN" h = true
           /\ is_ok (guessed_plural phrase) = true)
          \/ guessed_plural phrase = Ok true ->
          fix_determiner phrase nps n = (Ok phrase, n))).
Proof.
  unfold fix_determiner. split.
  { intros H. by destruct phrase. }
  intros Hnp.
  destruct phrase as [| | | | | | |m s fr pr hd cm po|];
    try discriminate Hnp. clear Hnp.
  cbn [head_of spec_of]. unfold sole_distractor, distractors_of.
  cbn [head_of]. unfold proper_or_pronoun.
  cbn [optimise_determiner].
  set (ds := List.filter _ nps).
  set (np := ENounPhrase _ _ _ _ _ _ _).
  split; [|split; [|split; [|split]]].
  - intros ->. by destruct (py_bool s).
  - intros -> ->. done.
  - intros -> -> Hp Hsole. rewrite Hp. cbn [negb andb].
    rewrite Hsole. eexists. split; [reflexivity|]. done.
  - intros -> -> Hp Hsole Hpl str Hstr. rewrite Hp. cbn [negb andb].
    rewrite Hsole. unfold lift, mbind, Py_bind. rewrite Hpl, Hstr.
    cbn [negb andb]. eexists. split; [reflexivity|].
    by destruct (starts_with_vowel str).
  - intros -> -> Hor Hpl.
    assert (negb (has_feature "cat" "PRONOUN" hd)
            && is_last_of ds np && (List.length ds =? 1)%nat = false) as ->.
    { destruct Hor as [-> | H]; [done|]. rewrite <- andb_assoc, H.
      apply andb_false_r. }
    unfold lift, mbind, Py_bind.
    destruct Hpl as [[Hp Hok] | ->]; [|done].
    rewrite Hp. destruct (guessed_plural np) as [[]|]; done.
Qed.

End Determiners.

Lemma optimise_determiner_cases_witness :
  exists a,
    optimise_determiner (fun _ => Ok false) apple [] 10%nat
    = (Ok (assign_spec a apple), 11%nat)
    /\ has_determiner "an" (assign_spec a apple) = true.
Proof.
  destruct (optimise_determiner_cases (fun _ => Ok false) apple [] 10%nat)
    as [_ H].
  destruct (H eq_refl) as (_ & _ & _ & Han & _).
  destruct (Han eq_refl eq_refl eq_refl eq_refl eq_refl (Some "apple") eq_refl)
    as (a & Hrun & Hdet).
  by exists a.
Defined.

(** ** Modifiers of a coordination *)

Lemma new_NounPhrase_around c n :
  is_none c = false ->
  exists m s,
    new_NounPhrase c PyNone ∅ None n
    = (Ok (ENounPhrase m (EElement s) [] [] (child_of n c) [] []),
       S (S (S n)))
    /\ oid m = n.
Proof.
  intros H. destruct c; try discriminate H; cbn -[union];
    by eexists _, _.
Qed.

(** X27.  Pre-modifiers for a coordination go to its first coordinate,
    and a first coordinate for which [is_phrase_t] does not hold is first
    wrapped: it becomes the head of a new [NounPhrase], which takes its
    place and gets the modifiers.  [is_phrase_t] holds for a [Phrase], an
    [AdjectivePhrase] and an [AdverbPhrase], which get the modifiers
    themselves, and it does not hold for a [NounPhrase], a [VerbPhrase] or
    a [PrepositionalPhrase]: a noun phrase that is the first coordinate
    keeps its own pre-modifiers as they are and ends up as the head of
    another noun phrase.  A coordination without coordinates raises
    [IndexError]. *)
Theorem Coordination_add_pre_modifier_wraps m c t cj pr cm po ms n :
  forallb (fun x => negb (is_none x)) ms = true ->
  let self := ECoordination m (c :: t) cj pr cm po in
  (is_phrase_t c = false -> is_none c = false ->
   exists np n',
     Coordination_add_pre_modifier self ms n
     = (Ok (ECoordination m (np :: t) cj pr cm po), n')
     /\ is_noun_phrase np = true /\ py_id np = n
     /\ head_of np = child_of n c
     /\ pre_modifiers_of np = rev (map (child_of n) ms))
  /\ (is_plain_phrase c = true -> is_phrase_t c = true ->
      exists c',
        Coordination_add_pre_modifier self ms n
        = (Ok (ECoordination m (c' :: t) cj pr cm po), n)
        /\ py_id c' = py_id c /\ head_of c' = head_of c
        /\ pre_modifiers_of c'
           = rev (map (child_of (py_id c)) ms) ++ pre_modifiers_of c)
  /\ (is_noun_phrase c = true -> is_phrase_t c = false)
  /\ (forall k fr p h cp ps,
        is_phrase_t (EPhrase k m fr p h cp ps)
        = match k with
          | Phrase | AdjectivePhrase | AdverbPhrase => true
          | VerbPhrase | PrepositionalPhrase => false
          end)
  /\ Coordination_add_pre_modifier (ECoordination m [] cj pr cm po) ms n
     = (Raise IndexError, n).
Proof.
  intros Hms self. subst self. cbn [Coordination_add_pre_modifier].
  split; [|split; [|split; [|split]]]; try done.
  - intros Hc Hn. rewrite Hc.
    destruct (new_NounPhrase_around c n Hn) as (mm & s & Hnew & Hid).
    unfold mbind, Py_bind. rewrite Hnew. cbn [Phrase_add_pre_modifier].
    unfold mbind, Py_bind. rewrite (add_to_list_front _ _ _ _ Hms).
    unfold mret, Py_ret. rewrite Hid, app_nil_r.
    eexists _, _. split; [reflexivity|]. by repeat split.
  - intros Hp Hc. rewrite Hc.
    destruct c; try discriminate Hp.
    cbn [Phrase_add_pre_modifier].
    unfold mbind, Py_bind. rewrite (add_to_list_front _ _ _ _ Hms).
    unfold mret, Py_ret.
    eexists. split; [reflexivity|]. by repeat split.
  - by destruct c.
Qed.

Lemma Coordination_add_pre_modifier_wraps_witness :
  exists np n',
    Coordination_add_pre_modifier mary_and_john [old] 20%nat
    = (Ok (match mary_and_john with
           | ECoordination m (_ :: t) cj pr cm po =>
               ECoordination m (np :: t) cj pr cm po
           | e => e
           end), n')
    /\ is_noun_phrase np = true
    /\ is_noun_phrase (head_of np) = true
    /\ map surface (pre_modifiers_of np) = [Some "old"]
    /\ pre_modifiers_of (head_of np) = [].
Proof.
  pose proof (Coordination_add_pre_modifier_wraps _ _ _ _ _ _ _ [old] 20%nat
                eq_refl
              : let self := mary_and_john in _) as H.
  cbv zeta in H. destruct H as (H & _).
  destruct H as (np & n' & Hrun & Hnp & _ & Hh & Hpre); [reflexivity..|].
  exists np, n'. split; [exact Hrun|]. split; [done|].
  rewrite Hh, Hpre. by repeat split.
Defined.

Lemma phrase_type_refl c :
  opt_Z_eq (Some (phrase_type c)) (Some (phrase_type c)) = true.
Proof. by destruct c. Qed.

(** X28.  Replacing the head of a phrase.  When the search of
    [Phrase.replace] finds nothing in the front modifiers and the
    pre-modifiers and the head equals [one], the head is replaced and the
    answer is [True].  The features the phrase shares with the old head
    are deleted and the features of [another] are added.  A phrase of the
    same class as [self] is merged into it: its head becomes the head, its
    front modifiers and pre-modifiers come before those of [self], in
    reverse order, its complements and post-modifiers after them, all with
    [self] for their parent.  Any other element becomes the head as it
    is. *)
Theorem replace_head_merges c m fr pr h cm po one n :
  Forall (fun o => py_eq o one = false /\ is_leaf o = true) fr ->
  Forall (fun o => py_eq o one = false /\ is_leaf o = true) pr ->
  py_eq h one = true -> is_none h = false ->
  let self := EPhrase c m fr pr h cm po in
  let merged another :=
    set_features (features_of another ∪ (features m ∖ features_of h)) m in
  (forall m2 fr2 pr2 h2 cm2 po2,
      forallb (fun x => negb (is_none x)) (fr2 ++ pr2 ++ cm2 ++ po2) = true ->
      let another := EPhrase c m2 fr2 pr2 h2 cm2 po2 in
      let mine := map (child_of (oid m)) in
      replace self one another n
      = (Ok (true,
             EPhrase c (merged another)
               (rev (mine fr2) ++ fr) (rev (mine pr2) ++ pr) h2
               (cm ++ mine cm2) (po ++ mine po2)), n))
  /\ (forall another,
        is_none another = false ->
        _type another <> Some (phrase_type c) ->
        replace self one another n
        = (Ok (true, EPhrase c (merged another) fr pr another cm po), n)).
Proof.
  intros Hfr Hpr Hh Hn self merged. subst self merged.
  assert (forall another l,
             Forall (fun o => py_eq o one = false /\ is_leaf o = true) l ->
             Forall (silent one another) l) as Hq.
  { intros another l Hl. eapply Forall_impl; [exact Hl|].
    intros o [? ?]. by apply silent_leaf. }
  split.
  - intros m2 fr2 pr2 h2 cm2 po2 Hall another mine. subst another mine.
    rewrite !forallb_app, !andb_true_iff in Hall.
    destruct Hall as (H1 & H2 & H3 & H4).
    pose proof (Hq (EPhrase c m2 fr2 pr2 h2 cm2 po2) fr Hfr) as Qfr.
    pose proof (Hq (EPhrase c m2 fr2 pr2 h2 cm2 po2) pr Hpr) as Qpr.
    cbn [replace]. unfold Phrase_replace, mbind, Py_bind.
    rewrite !(replace_in_quiet _ (fun o => replace o one _)) by done.
    rewrite Hh. unfold replace_matched_head. rewrite Hn.
    cbn [_type front_modifiers_of pre_modifiers_of complements_of
         post_modifiers_of head_of features_of meta].
    rewrite phrase_type_refl. unfold mbind, Py_bind.
    rewrite (add_to_list_front _ _ _ _ H1). unfold mret, Py_ret.
    rewrite (add_to_list_front _ _ _ _ H2).
    rewrite (add_to_list_back _ _ _ _ H3).
    by rewrite (add_to_list_back _ _ _ _ H4).
  - intros another Ha Ht.
    pose proof (Hq another fr Hfr) as Qfr.
    pose proof (Hq another pr Hpr) as Qpr.
    cbn [replace]. unfold Phrase_replace, mbind, Py_bind.
    rewrite !(replace_in_quiet _ (fun o => replace o one _)) by done.
    rewrite Hh. unfold replace_matched_head. rewrite Hn, Ha.
    destruct (opt_Z_eq (Some (phrase_type c)) (_type another)) eqn:E; [|done].
    apply opt_Z_eq_true in E. congruence.
Qed.

Lemma replace_head_merges_witness :
  match very_red with
  | EPhrase c m fr pr h cm po =>
      replace very_red h hashed_a 5%nat
      = (Ok (true,
             EPhrase c
               (set_features
                  (features_of hashed_a ∪ (features m ∖ features_of h)) m)
               fr pr hashed_a cm po), 5%nat)
  | _ => False
  end.
Proof.
  let t := eval vm_compute in very_red in change very_red with t.
  cbv beta iota.
  match goal with
  | |- replace (EPhrase ?c ?m ?fr ?pr ?h ?cm ?po) _ _ ?n = _ =>
      destruct (replace_head_merges c m fr pr h cm po h n) as [_ H]
  end.
  - constructor.
  - repeat constructor.
  - reflexivity.
  - reflexivity.
  - apply H; [reflexivity | by vm_compute].
Defined.
